(** * pg-structure: catalog assembly, schema discovery and legacy constraints

  A shallow embedding of [dist/main.js] (schema discovery, the nine
  assembly phases, [pgStructure], [deserialize]), of the unique
  constraint class and of the legacy [Constraint] constructor, with
  the properties of the specification proved over it.

  JavaScript objects are mutable and shared, so the object graph is a
  heap of objects addressed by references; [new] allocates the next
  free reference and a [push] rewrites the owner in place.  A thrown
  exception is an [Error] result. *)

From Stdlib Require Import Ascii.
From stdpp Require Import base strings list pretty.
From Ceres Require Import Ceres.

Local Open Scope string_scope.
Local Open Scope list_scope.

(** ** Schema discovery: [getSchemas] *)

Module Discovery.

(** The destructured argument [{ include = [], exclude = [], system = false }]. *)
Record SchemaFilter := {
  include : list string;
  exclude : list string;
  system : bool;
}.

(** [["information\\_schema", "pg\\_%"]]: the JS literals hold one backslash. *)
Definition systemPatterns : list string := ["information\_schema"; "pg\_%"].

Definition includedPatterns (f : SchemaFilter) : list string :=
  include f ++
    (if system f && bool_decide (0 < length (include f)) then systemPatterns else []).

Definition excludedPatterns (f : SchemaFilter) : list string :=
  exclude f ++ (if system f then [] else systemPatterns).

(** [whereInclude.push(`nspname LIKE $${i + 1}`)] for each included pattern. *)
Definition whereInclude (f : SchemaFilter) : list string :=
  imap (fun i (_ : string) => "nspname LIKE $" +:+ pretty (i + 1)) (includedPatterns f).

(** [where.push(`nspname NOT LIKE $${i + include.length + 1}`)] for each
    excluded pattern: the offset is the length of [include], the
    argument, not of [includedPatterns]. *)
Definition whereExclude (f : SchemaFilter) : list string :=
  imap (fun i (_ : string) => "nspname NOT LIKE $" +:+ pretty (i + length (include f) + 1))
       (excludedPatterns f).

Definition whereFixed : list string :=
  ["NOT pg_is_other_temp_schema(oid)"; "nspname <> 'pg_toast'"].

Definition where_ (f : SchemaFilter) : list string :=
  whereFixed
    ++ (if bool_decide (0 < length (whereInclude f))
        then ["(" +:+ String.concat " OR " (whereInclude f) +:+ ")"] else [])
    ++ whereExclude f.

(** Both loops push their pattern onto the one [parameters] array. *)
Definition parameters (f : SchemaFilter) : list string :=
  includedPatterns f ++ excludedPatterns f.

Definition whereQuery (f : SchemaFilter) : string :=
  "WHERE " +:+ String.concat " AND " (where_ f).

Definition sql (f : SchemaFilter) : string :=
  "SELECT oid, nspname AS name, obj_description(oid, 'pg_namespace') AS comment FROM pg_namespace "
    +:+ whereQuery f +:+ " ORDER BY nspname".

(** What [getSchemas] hands to [client.query]. *)
Definition getSchemas_query (f : SchemaFilter) : string * list string :=
  (sql f, parameters f).

(** A clause [nspname <op> $k] passes [pattern] when the [k]-th
    positional parameter (1-based) is that pattern. *)
Definition binds (op clause : string) (params : list string) (pattern : string) : Prop :=
  exists k : nat,
    clause = "nspname " +:+ op +:+ " $" +:+ pretty (S k) /\ params !! k = Some pattern.

(** The text of a discovery query, from the conjuncts of its [WHERE]
    clause: [`SELECT ... FROM pg_namespace ${whereQuery} ORDER BY nspname`]. *)
Definition filtered (conjuncts : list string) : string :=
  "SELECT oid, nspname AS name, obj_description(oid, 'pg_namespace') AS comment FROM pg_namespace "
    +:+ ("WHERE " +:+ String.concat " AND " conjuncts) +:+ " ORDER BY nspname".

(** Clauses of which one has to hold, as one conjunct in parentheses;
    no conjunct when there is no clause. *)
Definition anyOf (clauses : list string) : list string :=
  match clauses with
  | [] => []
  | _ => ["(" +:+ String.concat " OR " clauses +:+ ")"]
  end.

End Discovery.

(** ** Catalog rows and the object graph *)

Module Catalog.

(** *** Rows

    A row keeps the columns that [main.js] and the collection keys
    read.  Letter-coded columns are PostgreSQL ["char"] columns, one
    character each. *)

Record SchemaRow := {
  s_oid : Z;
  s_name : string;
  s_comment : option string;
}.

Record TypeRow := {
  t_oid : Z;
  t_classOid : Z;
  t_schemaOid : Z;
  t_kind : ascii;
  t_name : string;
  t_sqlType : option string;
}.

Record EntityRow := {
  e_oid : Z;
  e_schemaOid : Z;
  e_kind : ascii;
  e_name : string;
}.

Record ColumnRow := {
  c_parentKind : ascii;
  c_parentOid : Z;
  c_attributeNumber : Z;
  c_name : string;
}.

Record IndexRow := {
  i_oid : Z;
  i_tableOid : Z;
  i_name : string;
  i_columnPositions : list Z;
  i_indexExpressions : list string;
}.

Record ConstraintRow := {
  k_tableOid : Z;
  k_indexOid : Z;
  k_typeOid : Z;
  k_kind : ascii;
  k_name : string;
  k_checkConstraintExpression : option string;
  k_constrainedColumnPositions : list Z;
  k_onUpdate : ascii;
  k_onDelete : ascii;
  k_matchType : ascii;
}.

Record FunctionRow := {
  f_oid : Z;
  f_schemaOid : Z;
  f_kind : ascii;
  f_name : string;
}.

Record TriggerRow := {
  g_entityOid : Z;
  g_functionOid : Z;
  g_name : string;
}.

(** The 9-tuple the assembler consumes, in phase order. *)
Record QueryResults := {
  schemaRows : list SchemaRow;
  systemSchemaRows : list SchemaRow;
  typeRows : list TypeRow;
  entityRows : list EntityRow;
  columnRows : list ColumnRow;
  indexRows : list IndexRow;
  constraintRows : list ConstraintRow;
  functionRows : list FunctionRow;
  triggerRows : list TriggerRow;
}.

(** *** Objects *)

(** A reference to a heap object: JavaScript object identity. *)
Abbreviation ref := nat (only parsing).

Record Schema := {
  schema_row : SchemaRow;
  typesIncludingEntities : list ref;
  tables : list ref;
  views : list ref;
  materializedViews : list ref;
  sequences : list ref;
  normalFunctions : list ref;
  procedures : list ref;
  aggregateFunctions : list ref;
  windowFunctions : list ref;
}.

Inductive TypeKind :=
| Domain | EnumType | BaseType | CompositeType | RangeType | PseudoType | MultiRangeType.

(** The value of [builtinTypeData]: every property is optional. *)
Record BuiltinTypeData := {
  a_name : option string;
  a_shortName : option string;
  a_internalName : option string;
  a_hasLength : option bool;
  a_hasPrecision : option bool;
  a_hasScale : option bool;
}.

Record Type_ := {
  type_kind : TypeKind;
  type_row : TypeRow;
  type_builtin : BuiltinTypeData;
  type_schema : ref;
  type_columns : list ref;
  checkConstraints : list ref;
}.

Inductive EntityKind := Table | View | MaterializedView | Sequence.

Record Entity := {
  entity_kind : EntityKind;
  entity_row : EntityRow;
  entity_schema : ref;
  columns : list ref;
  indexes : list ref;
  constraints : list ref;
  foreignKeysToThis : list ref;
  triggers : list ref;
}.

Record Column := {
  column_parent : ref;
  column_row : ColumnRow;
}.

(** One slot of [index.columnsAndExpressions]: a column, an expression,
    or [undefined] ([Array.prototype.find] without a match, [shift] on
    an empty array). *)
Inductive ColumnOrExpression :=
| IsColumn (column : ref)
| IsExpression (expression : string)
| IsUndefined.

Record Index := {
  index_row : IndexRow;
  index_parent : ref;
  columnsAndExpressions : list ColumnOrExpression;
}.

(** Where a check constraint hangs: [{ ...row, table, ... }] or
    [{ ...row, domain, ... }]. *)
Inductive CheckParent := OfTable (table : ref) | OfDomain (domain : ref).

(** The constraint classes, with the arguments [addConstraints] passes.
    [index] of the first three is the result of [getMaybe] and may be
    [undefined]; the foreign key's [onUpdate], [onDelete] and
    [matchType] are the results of the letter maps. *)
Inductive Constraint :=
| PrimaryKey (row : ConstraintRow) (index : option ref) (table : ref)
| UniqueConstraint (row : ConstraintRow) (index : option ref) (table : ref)
| ExclusionConstraint (row : ConstraintRow) (index : option ref) (table : ref)
| CheckConstraint (row : ConstraintRow) (parent : CheckParent) (expression : option string)
| ForeignKey (row : ConstraintRow) (table index : ref) (fk_columns : list ref)
             (onUpdate onDelete matchType : option string).

Inductive FunctionKind := NormalFunction | Procedure | AggregateFunction | WindowFunction.

Record Func := {
  function_kind : FunctionKind;
  function_row : FunctionRow;
  function_schema : ref;
}.

Record Trigger := {
  trigger_row : TriggerRow;
  trigger_function : ref;
  trigger_parent : ref;
}.

Inductive Obj :=
| OSchema (s : Schema)
| OType (t : Type_)
| OEntity (e : Entity)
| OColumn (c : Column)
| OIndex (i : Index)
| OConstraint (c : Constraint)
| OFunction (f : Func)
| OTrigger (t : Trigger).

(** *** The Db *)

(** How the relation naming strategy was chosen: by module name
    (["short"], ["optimal"], ...) or by functions handed in. *)
Inductive RelationNameSetting :=
| ByName (module : string)
| Custom (o2m m2o m2m : string -> string).

Record Config := {
  commentDataToken : string;
  relationNameFunctions : RelationNameSetting;
  foreignKeyAliasSeparator : string;
  foreignKeyAliasTargetFirst : bool;
}.

(** What the [Db] constructor stores: [{ name, serverVersion }], the
    config, the query results and the bound naming functions, the
    latter stood for by the setting they were loaded from. *)
Record DbInfo := {
  name : string;
  serverVersion : string;
  config : Config;
  queryResults : QueryResults;
  namingFunctions : RelationNameSetting;
}.

Record Db := {
  info : DbInfo;
  schemas : list ref;
  systemSchemas : list ref;
  heap : list Obj;
}.

(** *** Exceptions and the assembly monad *)

Inductive Error :=
| NotFound (key : Z)
| TypeError (what : string)
| SyntaxError (what : string)
| ConfigurationError (what : string)
| DriverError (what : string).

Inductive Result (A : Type) :=
| Ok (a : A)
| Throw (e : Error).
Arguments Ok {A} a.
Arguments Throw {A} e.

(** A function of [main.js] that reads and mutates the graph. *)
Definition M (A : Type) : Type := Db -> Result (A * Db).

Definition ret {A} (a : A) : M A := fun db => Ok (a, db).
Definition throw {A} (e : Error) : M A := fun _ => Throw e.
Definition bind {A B} (m : M A) (k : A -> M B) : M B :=
  fun db => match m db with
            | Ok (a, db') => k a db'
            | Throw e => Throw e
            end.
Definition read {A} (f : Db -> A) : M A := fun db => Ok (f db, db).

End Catalog.

(** ** The assembler of [main.js] *)

Module Assembler.
Import Catalog.

#[global] Instance M_ret : MRet M := @ret.
#[global] Instance M_bind : MBind M := fun A B k m => bind m k.

(** [rows.forEach((row) => ...)]: rows in order, an exception ends the loop. *)
Fixpoint forEach {A} (f : A -> M unit) (rows : list A) : M unit :=
  match rows with
  | [] => ret tt
  | row :: rest => bind (f row) (fun _ => forEach f rest)
  end.

(** [rows.map((row) => ...)] with a callback that may throw. *)
Fixpoint mapM {A B} (f : A -> M B) (l : list A) : M (list B) :=
  match l with
  | [] => ret []
  | x :: rest => bind (f x) (fun y => bind (mapM f rest) (fun ys => ret (y :: ys)))
  end.

(** *** Heap primitives *)

Definition set_heap (db : Db) (h : list Obj) : Db :=
  {| info := info db; schemas := schemas db; systemSchemas := systemSchemas db; heap := h |}.

(** [new C(args)]: the object receives the next free reference. *)
Definition new (o : Obj) : M ref :=
  fun db => Ok (length (heap db), set_heap db (heap db ++ [o])).

(** An in-place update of the object behind [r]; [f] answers [None]
    when the object lacks the property, which in JavaScript is a
    [TypeError] (a method call on [undefined]). *)
Definition mutate (what : string) (r : ref) (f : Obj -> option Obj) : M unit :=
  fun db => match heap db !! r ≫= f with
            | Some o => Ok (tt, set_heap db (<[r := o]> (heap db)))
            | None => Throw (TypeError what)
            end.

Inductive SchemaCollection :=
| TypesIncludingEntities | Tables | Views | MaterializedViews | Sequences
| NormalFunctions | Procedures | AggregateFunctions | WindowFunctions.

Definition schema_push (c : SchemaCollection) (x : ref) (s : Schema) : Schema :=
  let add (c' : SchemaCollection) (l : list ref) :=
    match c, c' with
    | TypesIncludingEntities, TypesIncludingEntities | Tables, Tables | Views, Views
    | MaterializedViews, MaterializedViews | Sequences, Sequences
    | NormalFunctions, NormalFunctions | Procedures, Procedures
    | AggregateFunctions, AggregateFunctions | WindowFunctions, WindowFunctions => l ++ [x]
    | _, _ => l
    end in
  {| schema_row := schema_row s;
     typesIncludingEntities := add TypesIncludingEntities (typesIncludingEntities s);
     tables := add Tables (tables s);
     views := add Views (views s);
     materializedViews := add MaterializedViews (materializedViews s);
     sequences := add Sequences (sequences s);
     normalFunctions := add NormalFunctions (normalFunctions s);
     procedures := add Procedures (procedures s);
     aggregateFunctions := add AggregateFunctions (aggregateFunctions s);
     windowFunctions := add WindowFunctions (windowFunctions s) |}.

(** [schema.<collection>.push(x)].  A push appends.  The collection
    of the design refuses a second element under an indexed value
    that is taken; which attributes each collection indexes is fixed
    in classes that are not part of the sources at hand, so that
    refusal is left out and a push here always succeeds on an object
    that owns the collection. *)
Definition pushToSchema (c : SchemaCollection) (schema x : ref) : M unit :=
  mutate "schema collection" schema
    (fun o => match o with OSchema s => Some (OSchema (schema_push c x s)) | _ => None end).

Inductive EntityCollection := Columns | Indexes | Constraints | ForeignKeysToThis | Triggers.

(** Modelled from the spec: the entity classes are not part of the
    sources at hand.  Every entity owns [columns]; tables and
    materialized views own [indexes], [constraints] and [triggers];
    [foreignKeysToThis] is a property of tables. *)
Definition entity_owns (k : EntityKind) (c : EntityCollection) : bool :=
  match c, k with
  | Columns, _ => true
  | (Indexes | Constraints | Triggers), (Table | MaterializedView) => true
  | ForeignKeysToThis, Table => true
  | _, _ => false
  end.

Definition entity_push (c : EntityCollection) (x : ref) (e : Entity) : Entity :=
  let add (c' : EntityCollection) (l : list ref) :=
    match c, c' with
    | Columns, Columns | Indexes, Indexes | Constraints, Constraints
    | ForeignKeysToThis, ForeignKeysToThis | Triggers, Triggers => l ++ [x]
    | _, _ => l
    end in
  {| entity_kind := entity_kind e;
     entity_row := entity_row e;
     entity_schema := entity_schema e;
     columns := add Columns (columns e);
     indexes := add Indexes (indexes e);
     constraints := add Constraints (constraints e);
     foreignKeysToThis := add ForeignKeysToThis (foreignKeysToThis e);
     triggers := add Triggers (triggers e) |}.

(** [entity.<collection>.push(x)] *)
Definition pushToEntity (c : EntityCollection) (entity x : ref) : M unit :=
  mutate "entity collection" entity
    (fun o => match o with
              | OEntity e => if entity_owns (entity_kind e) c
                             then Some (OEntity (entity_push c x e)) else None
              | _ => None
              end).

(** Modelled from the spec: the type classes are not part of the
    sources at hand.  A composite type owns [columns], a domain owns
    [checkConstraints]. *)
Definition type_push_column (x : ref) (o : Obj) : option Obj :=
  match o with
  | OType t =>
      match type_kind t with
      | CompositeType =>
          Some (OType {| type_kind := type_kind t; type_row := type_row t;
                         type_builtin := type_builtin t; type_schema := type_schema t;
                         type_columns := type_columns t ++ [x];
                         checkConstraints := checkConstraints t |})
      | _ => None
      end
  | _ => None
  end.

Definition type_push_checkConstraint (x : ref) (o : Obj) : option Obj :=
  match o with
  | OType t =>
      match type_kind t with
      | Domain =>
          Some (OType {| type_kind := type_kind t; type_row := type_row t;
                         type_builtin := type_builtin t; type_schema := type_schema t;
                         type_columns := type_columns t;
                         checkConstraints := checkConstraints t ++ [x] |})
      | _ => None
      end
  | _ => None
  end.

(** [parent.columns.push(x)] for an entity or a composite type. *)
Definition pushColumn (parent x : ref) : M unit :=
  mutate "columns" parent
    (fun o => match o with
              | OEntity e => Some (OEntity (entity_push Columns x e))
              | _ => type_push_column x o
              end).

(** [index.columnsAndExpressions.push(x)] *)
Definition pushColumnOrExpression (index : ref) (x : ColumnOrExpression) : M unit :=
  mutate "columnsAndExpressions" index
    (fun o => match o with
              | OIndex i =>
                  Some (OIndex {| index_row := index_row i; index_parent := index_parent i;
                                  columnsAndExpressions := columnsAndExpressions i ++ [x] |})
              | _ => None
              end).

(** *** Collections and lookups *)

Definition schemaAt (db : Db) (r : ref) : option Schema :=
  match heap db !! r with Some (OSchema s) => Some s | _ => None end.
Definition typeAt (db : Db) (r : ref) : option Type_ :=
  match heap db !! r with Some (OType t) => Some t | _ => None end.
Definition entityAt (db : Db) (r : ref) : option Entity :=
  match heap db !! r with Some (OEntity e) => Some e | _ => None end.
Definition columnAt (db : Db) (r : ref) : option Column :=
  match heap db !! r with Some (OColumn c) => Some c | _ => None end.
Definition indexAt (db : Db) (r : ref) : option Index :=
  match heap db !! r with Some (OIndex i) => Some i | _ => None end.
Definition constraintAt (db : Db) (r : ref) : option Constraint :=
  match heap db !! r with Some (OConstraint c) => Some c | _ => None end.

(** The key attributes the collections are indexed on. *)
Inductive Key := KOid | KClassOid | KAttributeNumber.

Definition attribute (k : Key) (o : Obj) : option Z :=
  match k, o with
  | KOid, OSchema s => Some (s_oid (schema_row s))
  | KOid, OType t => Some (t_oid (type_row t))
  | KOid, OEntity e => Some (e_oid (entity_row e))
  | KOid, OIndex i => Some (i_oid (index_row i))
  | KOid, OFunction f => Some (f_oid (function_row f))
  | KClassOid, OType t => Some (t_classOid (type_row t))
  | KAttributeNumber, OColumn c => Some (c_attributeNumber (column_row c))
  | _, _ => None
  end.

(** Modelled from the spec: the indexable collection is not part of
    the sources at hand.  [getMaybe(key, { key: attr })] is an exact
    match on the chosen attribute, absent on a miss; the first element
    in insertion order answers. *)
Definition getMaybe (k : Key) (collection : list ref) (key : Z) (db : Db) : option ref :=
  find (fun r => bool_decide (heap db !! r ≫= attribute k = Some key)) collection.

(** Modelled from the spec: [get] is [getMaybe] that fails with
    NotFound when the key is absent. *)
Definition get (k : Key) (collection : Db -> list ref) (key : Z) : M ref :=
  fun db => match getMaybe k (collection db) key db with
            | Some r => Ok (r, db)
            | None => Throw (NotFound key)
            end.

Definition overSchemas (db : Db) (f : Schema -> list ref) : list ref :=
  concat (omap (fun r => f <$> schemaAt db r) (schemas db)).

(** Modelled from the spec: the [Db] class is not part of the sources
    at hand.  Its root collections gather, schema by schema, what the
    user schemas own. *)
Definition db_tables (db : Db) : list ref := overSchemas db tables.

Definition db_entities (db : Db) : list ref :=
  overSchemas db (fun s => tables s ++ views s ++ materializedViews s ++ sequences s).

Definition db_typesIncludingEntities (db : Db) : list ref :=
  overSchemas db typesIncludingEntities.

Definition db_functions (db : Db) : list ref :=
  overSchemas db (fun s => normalFunctions s ++ procedures s
                             ++ aggregateFunctions s ++ windowFunctions s).

Definition db_indexes (db : Db) : list ref :=
  concat (omap (fun r => indexes <$> entityAt db r) (db_entities db)).

(** *** Phases 1 and 2: schemas *)

Definition emptySchema (row : SchemaRow) : Schema :=
  {| schema_row := row; typesIncludingEntities := []; tables := []; views := [];
     materializedViews := []; sequences := []; normalFunctions := []; procedures := [];
     aggregateFunctions := []; windowFunctions := [] |}.

Definition pushDbSchemas (x : ref) : M unit :=
  fun db => Ok (tt, {| info := info db; schemas := schemas db ++ [x];
                       systemSchemas := systemSchemas db; heap := heap db |}).

Definition pushDbSystemSchemas (x : ref) : M unit :=
  fun db => Ok (tt, {| info := info db; schemas := schemas db;
                       systemSchemas := systemSchemas db ++ [x]; heap := heap db |}).

Definition addSystemSchema (row : SchemaRow) : M unit :=
  schema ← new (OSchema (emptySchema row)); pushDbSystemSchemas schema.

Definition addSystemSchemas (rows : list SchemaRow) : M unit :=
  forEach addSystemSchema rows.

Definition addSchema (row : SchemaRow) : M unit :=
  schema ← new (OSchema (emptySchema row)); pushDbSchemas schema.

Definition addSchemas (rows : list SchemaRow) : M unit :=
  forEach addSchema rows.

(** *** Phase 3: types *)

Definition noAlias : BuiltinTypeData :=
  {| a_name := None; a_shortName := None; a_internalName := None;
     a_hasLength := None; a_hasPrecision := None; a_hasScale := None |}.

Definition alias (n s i : option string) (l p c : option bool) : BuiltinTypeData :=
  {| a_name := n; a_shortName := s; a_internalName := i;
     a_hasLength := l; a_hasPrecision := p; a_hasScale := c |}.

Definition builtinTypeAliases : list (string * BuiltinTypeData) :=
  [ ("int2", alias (Some "smallint") None None None None None);
    ("int4", alias (Some "integer") (Some "int") None None None None);
    ("int8", alias (Some "bigint") None None None None None);
    ("numeric", alias None None (Some "decimal") None (Some true) (Some true));
    ("float4", alias (Some "real") None None None None None);
    ("float8", alias (Some "double precision") None None None None None);
    ("varchar", alias (Some "character varying") None None (Some true) None None);
    ("char", alias (Some "character") None None (Some true) None None);
    ("timestamp", alias (Some "timestamp without time zone") None None None (Some true) None);
    ("timestamptz", alias (Some "timestamp with time zone") None None None (Some true) None);
    ("time", alias (Some "time without time zone") None None None (Some true) None);
    ("timetz", alias (Some "time with time zone") None None None (Some true) None);
    ("interval", alias None None None None (Some true) None);
    ("bool", alias (Some "boolean") None None None None None);
    ("bit", alias None None None (Some true) None None);
    ("varbit", alias (Some "bit varying") None None (Some true) None None) ].

(** Property names every object literal inherits from
    [Object.prototype]: [builtinTypeAliases[row.name]] is truthy for
    them too, and spreading the inherited value adds nothing. *)
Definition inheritedProperties : list string :=
  [ "constructor"; "hasOwnProperty"; "isPrototypeOf"; "propertyIsEnumerable";
    "toLocaleString"; "toString"; "valueOf"; "__proto__"; "__defineGetter__";
    "__defineSetter__"; "__lookupGetter__"; "__lookupSetter__" ].

Definition assoc {V} (key : string) (table : list (string * V)) : option V :=
  snd <$> find (fun kv => bool_decide (fst kv = key)) table.

(** [builtinTypeAliases[row.name] ? { internalName: row.name,
    ...builtinTypeAliases[row.name] } : {}] *)
Definition builtinTypeData (row : TypeRow) : BuiltinTypeData :=
  match assoc (t_name row) builtinTypeAliases with
  | Some a =>
      alias (a_name a) (a_shortName a)
            (Some (default (t_name row) (a_internalName a)))
            (a_hasLength a) (a_hasPrecision a) (a_hasScale a)
  | None =>
      if bool_decide (t_name row ∈ inheritedProperties)
      then alias None None (Some (t_name row)) None None None
      else noAlias
  end.

Definition typeKinds (kind : ascii) : option TypeKind :=
  if bool_decide (kind = "d"%char) then Some Domain
  else if bool_decide (kind = "e"%char) then Some EnumType
  else if bool_decide (kind = "b"%char) then Some BaseType
  else if bool_decide (kind = "c"%char) then Some CompositeType
  else if bool_decide (kind = "r"%char) then Some RangeType
  else if bool_decide (kind = "p"%char) then Some PseudoType
  else if bool_decide (kind = "m"%char) then Some MultiRangeType
  else None.

(** [db.systemSchemas.getMaybe(oid, { key: "oid" }) ||
    db.schemas.get(oid, { key: "oid" })] *)
Definition typeSchema (schemaOid : Z) : M ref :=
  fun db => match getMaybe KOid (systemSchemas db) schemaOid db with
            | Some schema => Ok (schema, db)
            | None => get KOid schemas schemaOid db
            end.

Definition addType (row : TypeRow) : M unit :=
  schema ← typeSchema (t_schemaOid row);
  match typeKinds (t_kind row) with
  | None => throw (TypeError "typeKinds[kind] is not a constructor")
  | Some kind =>
      type ← new (OType {| type_kind := kind; type_row := row;
                           type_builtin := builtinTypeData row; type_schema := schema;
                           type_columns := []; checkConstraints := [] |});
      pushToSchema TypesIncludingEntities schema type
  end.

Definition addTypes (rows : list TypeRow) : M unit := forEach addType rows.

(** *** Phase 4: entities *)

Definition newEntity (kind : EntityKind) (row : EntityRow) (schema : ref) : M ref :=
  new (OEntity {| entity_kind := kind; entity_row := row; entity_schema := schema;
                  columns := []; indexes := []; constraints := [];
                  foreignKeysToThis := []; triggers := [] |}).

Definition addEntity (row : EntityRow) : M unit :=
  schema ← get KOid schemas (e_schemaOid row);
  if bool_decide (e_kind row = "r"%char) || bool_decide (e_kind row = "p"%char) then
    e ← newEntity Table row schema; pushToSchema Tables schema e
  else if bool_decide (e_kind row = "v"%char) then
    e ← newEntity View row schema; pushToSchema Views schema e
  else if bool_decide (e_kind row = "m"%char) then
    e ← newEntity MaterializedView row schema; pushToSchema MaterializedViews schema e
  else if bool_decide (e_kind row = "S"%char) then
    e ← newEntity Sequence row schema; pushToSchema Sequences schema e
  else ret tt.

Definition addEntities (rows : list EntityRow) : M unit := forEach addEntity rows.

(** *** Phase 5: columns *)

Definition addColumn (row : ColumnRow) : M unit :=
  parent ← (if bool_decide (c_parentKind row = "c"%char)
            then get KClassOid db_typesIncludingEntities (c_parentOid row)
            else get KOid db_entities (c_parentOid row));
  column ← new (OColumn {| column_parent := parent; column_row := row |});
  pushColumn parent column.

Definition addColumns (rows : list ColumnRow) : M unit := forEach addColumn rows.

(** *** Phase 6: indexes *)

(** [parent.columns] of the entity behind [parent]. *)
Definition columnsOf (db : Db) (parent : ref) : list ref :=
  default [] (columns <$> entityAt db parent).

(** [parent.columns.find((c) => c.attributeNumber === position)] *)
Definition findColumn (db : Db) (parent : ref) (position : Z) : option ref :=
  find (fun c => bool_decide (heap db !! c ≫= attribute KAttributeNumber = Some position))
       (columnsOf db parent).

Definition slotOfColumn (c : option ref) : ColumnOrExpression :=
  match c with Some c => IsColumn c | None => IsUndefined end.

(** The body of [row.columnPositions.forEach]; [indexExpressions] is
    the local copy that [shift()] consumes from the front. *)
Fixpoint eachPosition (index parent : ref) (positions : list Z)
         (indexExpressions : list string) : M unit :=
  match positions with
  | [] => ret tt
  | position :: rest =>
      if bool_decide (0 < position)%Z then
        c ← read (fun db => findColumn db parent position);
        pushColumnOrExpression index (slotOfColumn c);;
        eachPosition index parent rest indexExpressions
      else
        match indexExpressions with
        | e :: es =>
            pushColumnOrExpression index (IsExpression e);;
            eachPosition index parent rest es
        | [] =>
            pushColumnOrExpression index IsUndefined;;
            eachPosition index parent rest []
        end
  end.

Definition addIndex (row : IndexRow) : M unit :=
  parent ← get KOid db_entities (i_tableOid row);
  index ← new (OIndex {| index_row := row; index_parent := parent;
                         columnsAndExpressions := [] |});
  eachPosition index parent (i_columnPositions row) (i_indexExpressions row);;
  pushToEntity Indexes parent index.

Definition addIndexes (rows : list IndexRow) : M unit := forEach addIndex rows.

(** *** Phase 7: constraints *)

Definition actionLetterMap (letter : ascii) : option string :=
  if bool_decide (letter = "a"%char) then Some "NO ACTION"
  else if bool_decide (letter = "r"%char) then Some "RESTRICT"
  else if bool_decide (letter = "c"%char) then Some "CASCADE"
  else if bool_decide (letter = "n"%char) then Some "SET NULL"
  else if bool_decide (letter = "d"%char) then Some "SET DEFAULT"
  else None.

(** Modelled from the spec: the [MatchType] enumeration is not part of
    the sources at hand; its members are FULL, PARTIAL and SIMPLE. *)
Definition MatchType_Full : string := "FULL".
Definition MatchType_Partial : string := "PARTIAL".
Definition MatchType_Simple : string := "SIMPLE".

Definition matchTypeLetterMap (letter : ascii) : option string :=
  if bool_decide (letter = "f"%char) then Some MatchType_Full
  else if bool_decide (letter = "p"%char) then Some MatchType_Partial
  else if bool_decide (letter = "s"%char) then Some MatchType_Simple
  else None.

(** Modelled from the spec: the foreign key class is not part of the
    sources at hand; [referencedTable] is derived from the table of the
    referenced index. *)
Definition referencedTable (index : ref) : M ref :=
  fun db => match indexAt db index with
            | Some i => Ok (index_parent i, db)
            | None => Throw (TypeError "referencedTable")
            end.

(** The [row.kind === "f"] branch, entered with a resolved [table]. *)
Definition addForeignKey (row : ConstraintRow) (table : ref) (index : option ref) : M unit :=
  match index with
  | None => ret tt
  | Some index =>
      cols ← mapM (get KAttributeNumber (fun db => columnsOf db table))
                  (k_constrainedColumnPositions row);
      foreignKey ← new (OConstraint
                          (ForeignKey row table index cols
                                      (actionLetterMap (k_onUpdate row))
                                      (actionLetterMap (k_onDelete row))
                                      (matchTypeLetterMap (k_matchType row))));
      pushToEntity Constraints table foreignKey;;
      referenced ← referencedTable index;
      pushToEntity ForeignKeysToThis referenced foreignKey
  end.

(** [table.constraints.push(new C(args))] *)
Definition addTableConstraint (table : ref) (c : Constraint) : M unit :=
  constraint ← new (OConstraint c); pushToEntity Constraints table constraint.

Definition addConstraint (row : ConstraintRow) : M unit :=
  table ← read (fun db => getMaybe KOid (db_tables db) (k_tableOid row) db);
  index ← read (fun db => getMaybe KOid (db_indexes db) (k_indexOid row) db);
  domain ← read (fun db => getMaybe KOid (db_typesIncludingEntities db) (k_typeOid row) db);
  match table with
  | Some table =>
      if bool_decide (k_kind row = "p"%char) then
        addTableConstraint table (PrimaryKey row index table)
      else if bool_decide (k_kind row = "u"%char) then
        addTableConstraint table (UniqueConstraint row index table)
      else if bool_decide (k_kind row = "x"%char) then
        addTableConstraint table (ExclusionConstraint row index table)
      else if bool_decide (k_kind row = "c"%char) then
        addTableConstraint table
          (CheckConstraint row (OfTable table) (k_checkConstraintExpression row))
      else if bool_decide (k_kind row = "f"%char) then
        addForeignKey row table index
      else ret tt
  | None =>
      match domain with
      | Some domain =>
          if bool_decide (k_kind row = "c"%char) then
            constraint ← new (OConstraint
                                (CheckConstraint row (OfDomain domain)
                                                 (k_checkConstraintExpression row)));
            mutate "checkConstraints" domain (type_push_checkConstraint constraint)
          else ret tt
      | None => ret tt
      end
  end.

Definition addConstraints (rows : list ConstraintRow) : M unit := forEach addConstraint rows.

(** *** Phase 8: functions *)

Definition newFunction (kind : FunctionKind) (row : FunctionRow) (schema : ref) : M ref :=
  new (OFunction {| function_kind := kind; function_row := row; function_schema := schema |}).

Definition addFunction (row : FunctionRow) : M unit :=
  schema ← get KOid schemas (f_schemaOid row);
  if bool_decide (f_kind row = "f"%char) then
    f ← newFunction NormalFunction row schema; pushToSchema NormalFunctions schema f
  else if bool_decide (f_kind row = "p"%char) then
    f ← newFunction Procedure row schema; pushToSchema Procedures schema f
  else if bool_decide (f_kind row = "a"%char) then
    f ← newFunction AggregateFunction row schema; pushToSchema AggregateFunctions schema f
  else if bool_decide (f_kind row = "w"%char) then
    f ← newFunction WindowFunction row schema; pushToSchema WindowFunctions schema f
  else ret tt.

Definition addFunctions (rows : list FunctionRow) : M unit := forEach addFunction rows.

(** *** Phase 9: triggers *)

Definition addTrigger (row : TriggerRow) : M unit :=
  entity ← get KOid db_entities (g_entityOid row);
  func ← get KOid db_functions (g_functionOid row);
  trigger ← new (OTrigger {| trigger_row := row; trigger_function := func;
                             trigger_parent := entity |});
  pushToEntity Triggers entity trigger.

Definition addTriggers (rows : list TriggerRow) : M unit := forEach addTrigger rows.

(** *** All phases *)

Definition addObjects (queryResults : QueryResults) : M unit :=
  addSchemas (schemaRows queryResults);;
  addSystemSchemas (systemSchemaRows queryResults);;
  addTypes (typeRows queryResults);;
  addEntities (entityRows queryResults);;
  addColumns (columnRows queryResults);;
  addIndexes (indexRows queryResults);;
  addConstraints (constraintRows queryResults);;
  addFunctions (functionRows queryResults);;
  addTriggers (triggerRows queryResults).

(** Modelled from the spec: the [Db] constructor is not part of the
    sources at hand; a new [Db] stores its arguments and owns empty
    collections. *)
Definition newDb (i : DbInfo) : Db :=
  {| info := i; schemas := []; systemSchemas := []; heap := [] |}.

End Assembler.

(** ** The unique constraint class *)

Module UniqueConstraintClass.
Import Catalog Assembler.

(** Modelled from the spec: the index class is not part of the
    sources at hand.  The columns of an index are the slots of
    [columnsAndExpressions] that hold a column, in order. *)
Definition Index_columns (ix : Index) : list ref :=
  omap (fun x => match x with IsColumn c => Some c | _ => None end)
       (columnsAndExpressions ix).

(** What the constructor stores: [this.index = args.index],
    [this.table = args.table] and, in the base class, the row. *)
Definition stored (c : Constraint) : option (ConstraintRow * option ref * ref) :=
  match c with
  | UniqueConstraint row index table => Some (row, index, table)
  | _ => None
  end.

(** [get columns() { return this.index.columns; }], read in the state
    [db]; an [undefined] index is a [TypeError]. *)
Definition columns (this : ref) (db : Db) : Result (list ref) :=
  match constraintAt db this ≫= stored with
  | Some (_, Some index, _) =>
      match indexAt db index with
      | Some ix => Ok (Index_columns ix)
      | None => Throw (TypeError "this.index.columns")
      end
  | _ => Throw (TypeError "this.index is undefined")
  end.

(** [get schema() { return this.table.schema; }] *)
Definition schema (this : ref) (db : Db) : Result ref :=
  match constraintAt db this ≫= stored with
  | Some (_, _, table) =>
      match entityAt db table with
      | Some t => Ok (entity_schema t)
      | None => Throw (TypeError "this.table.schema")
      end
  | None => Throw (TypeError "this.table is undefined")
  end.

(** [get fullName() { return `${this.schema.name}.${this.table.name}.${this.name}`; }] *)
Definition fullName (this : ref) (db : Db) : Result string :=
  match constraintAt db this ≫= stored, schema this db with
  | Some (row, _, table), Ok s =>
      match schemaAt db s, entityAt db table with
      | Some s, Some t =>
          Ok (s_name (schema_row s) +:+ "." +:+ e_name (entity_row t) +:+ "." +:+ k_name row)
      | _, _ => Throw (TypeError "fullName")
      end
  | _, Throw e => Throw e
  | None, _ => Throw (TypeError "fullName")
  end.

End UniqueConstraintClass.

(** ** The legacy [Constraint] constructor *)

Module Legacy.

(** A reference into the legacy object store. *)
Abbreviation ref := nat (only parsing).

(** [var allowedActions = ['NO ACTION', 'CASCADE', 'SET NULL', 'RESTRICT'];] *)
Definition allowedActions : list string := ["NO ACTION"; "CASCADE"; "SET NULL"; "RESTRICT"].

(** The [args] object: a property that is left out is [None].  The
    object-valued properties are references. *)
Record Args := {
  name : option string;
  referencesSchema : option ref;
  referencesTable : option ref;
  onUpdate : option string;
  onDelete : option string;
  table : option ref;
  through : option ref;
  throughForeignKeyConstraint : option ref;
  throughForeignKeyConstraintToSelf : option ref;
}.

(** [internal(this).attributes]: the arguments plus the two
    containers, held by reference. *)
Record Attributes := {
  args : Args;
  foreignKeys : ref;
  foreignKeysByName : ref;
}.

Inductive Cell :=
| ArrayCell (items : list ref)
| ObjectCell (entries : list (string * ref))
| ConstraintCell (attributes : Attributes)
| OtherCell.

Abbreviation Store := (list Cell) (only parsing).

Inductive Error :=
| ArgumentsRequired
| InvalidArguments (constraint : option string)
| TypeError (what : string).

Inductive Result (A : Type) :=
| Ok (a : A)
| Throw (e : Error).
Arguments Ok {A} a.
Arguments Throw {A} e.

(** [joi.string().required()]: present and not the empty string. *)
Definition requiredString (v : option string) : bool :=
  match v with Some s => negb (bool_decide (s = "")) | None => false end.

(** [joi.object().required()] *)
Definition requiredObject (v : option ref) : bool :=
  match v with Some _ => true | None => false end.

(** [joi.string().valid(allowedActions)]: optional, and when present
    one of the listed values. *)
Definition validAction (v : option string) : bool :=
  match v with Some s => bool_decide (s ∈ allowedActions) | None => true end.

(** [joi.validate(args, joi.object().keys(constraintAttributes), options)]
    has no error; the three [joi.object()] keys accept any object or
    none. *)
Definition validation (a : Args) : bool :=
  requiredString (name a) && requiredObject (referencesSchema a)
  && requiredObject (referencesTable a) && validAction (onUpdate a)
  && validAction (onDelete a) && requiredObject (table a).

Definition attributesOf (s : Store) (r : ref) : option Attributes :=
  match s !! r with Some (ConstraintCell a) => Some a | _ => None end.

(** Modelled from the spec: [helper.accessor] is not part of the
    sources at hand, and the spec does not describe it; the comment
    at its use says it sets or gets the internal object.  Called
    without a value it gets the internal property, here the container
    itself, not a copy. *)
Definition internalObjectForeignKeys (s : Store) (this : ref) : option ref :=
  foreignKeys <$> attributesOf s this.
Definition internalObjectForeignKeysByName (s : Store) (this : ref) : option ref :=
  foreignKeysByName <$> attributesOf s this.

(** [var Constraint = function Constraint(args, options)]: the new
    store and the reference of [this]. *)
Definition Constraint (a : option Args) (s : Store) : Result (ref * Store) :=
  match a with
  | None => Throw ArgumentsRequired
  | Some a =>
      if negb (validation a) then Throw (InvalidArguments (name a))
      else
        match through a with
        | Some _ =>
            match throughForeignKeyConstraintToSelf a with
            | Some toSelf =>
                match internalObjectForeignKeys s toSelf,
                      internalObjectForeignKeysByName s toSelf with
                | Some keys, Some byName =>
                    Ok (length s,
                        s ++ [ConstraintCell {| args := a; foreignKeys := keys;
                                                foreignKeysByName := byName |}])
                | _, _ => Throw (TypeError "internalObjectForeignKeys is not a function")
                end
            | None => Throw (TypeError "throughForeignKeyConstraintToSelf is undefined")
            end
        | None =>
            Ok (S (S (length s)),
                s ++ [ArrayCell []; ObjectCell [];
                      ConstraintCell {| args := a; foreignKeys := length s;
                                        foreignKeysByName := S (length s) |}])
        end
  end.

(** [Constraint.prototype.foreignKeys()] without a callback: the
    columns in order. *)
Definition foreignKeysOf (s : Store) (this : ref) : option (list ref) :=
  match foreignKeys <$> attributesOf s this with
  | Some r => match s !! r with Some (ArrayCell items) => Some items | _ => None end
  | None => None
  end.

(** [Constraint.prototype.foreignKeysByName()] without a callback. *)
Definition foreignKeysByNameOf (s : Store) (this : ref) : option (list (string * ref)) :=
  match foreignKeysByName <$> attributesOf s this with
  | Some r => match s !! r with Some (ObjectCell entries) => Some entries | _ => None end
  | None => None
  end.

End Legacy.

(** ** The entry points: [pgStructure] and [deserialize] *)

Module Entry.
Import Catalog Assembler.

(** *** Arguments *)

(** [includeSchemas] and [excludeSchemas]: one pattern or a list. *)
Inductive Patterns := OnePattern (p : string) | ManyPatterns (l : list string).

(** The options bag; a key that is left out is [None]. *)
Record Options := {
  envPrefix : option string;
  opt_name : option string;
  opt_commentDataToken : option string;
  includeSchemas : option Patterns;
  excludeSchemas : option Patterns;
  includeSystemSchemas : option bool;
  opt_foreignKeyAliasSeparator : option string;
  opt_foreignKeyAliasTargetFirst : option bool;
  opt_relationNameFunctions : option RelationNameSetting;
  keepConnection : option bool;
}.

Definition noOptions : Options :=
  {| envPrefix := None; opt_name := None; opt_commentDataToken := None;
     includeSchemas := None; excludeSchemas := None; includeSystemSchemas := None;
     opt_foreignKeyAliasSeparator := None; opt_foreignKeyAliasTargetFirst := None;
     opt_relationNameFunctions := None; keepConnection := None |}.

(** A connected client of the caller, a connection string, or a
    connection object (of which [getDatabaseName] reads [database]). *)
Inductive ClientOrConfig :=
| ConnectedClient
| ConnectionString (s : string)
| ConnectionConfig (database : option string).

(** The first argument of [pgStructure]. *)
Inductive FirstArgument :=
| Absent
| Given (c : ClientOrConfig)
| OptionsBag (o : Options).

Definition present {A} (o : option A) : bool :=
  match o with Some _ => true | None => false end.

(** [isOptions(input)]: some own key of the input is a recognised
    option.  Clients, strings and connection objects carry none. *)
Definition isOptions (input : FirstArgument) : bool :=
  match input with
  | OptionsBag o =>
      present (envPrefix o) || present (opt_name o) || present (opt_commentDataToken o)
      || present (includeSchemas o) || present (excludeSchemas o)
      || present (includeSystemSchemas o) || present (opt_foreignKeyAliasSeparator o)
      || present (opt_foreignKeyAliasTargetFirst o)
      || present (opt_relationNameFunctions o) || present (keepConnection o)
  | _ => false
  end.

(** Modelled from the spec: [arrify] is not part of the sources at
    hand; a single pattern becomes a one-element list, nothing the
    empty list. *)
Definition arrify (p : option Patterns) : list string :=
  match p with
  | None => []
  | Some (OnePattern s) => [s]
  | Some (ManyPatterns l) => l
  end.

(** *** The outside world *)

(** What the environment, the driver and the SQL resources answer.
    The catalog answers depend on the schema OIDs asked for. *)
Record World := {
  getEnvValues : string -> Result ClientOrConfig;
  parseDatabase : string -> option string;
  connect : ClientOrConfig -> Result unit;
  showServerVersion : Result string;
  schemasAnswer : string -> list string -> Result (list SchemaRow);
  systemSchemasAnswer : Result (list SchemaRow);
  getQueryVersionFor : string -> Result string;
  typeAnswer : list Z -> Result (list TypeRow);
  entityAnswer : list Z -> Result (list EntityRow);
  columnAnswer : list Z -> Result (list ColumnRow);
  indexAnswer : list Z -> Result (list IndexRow);
  constraintAnswer : list Z -> Result (list ConstraintRow);
  functionAnswer : list Z -> Result (list FunctionRow);
  triggerAnswer : list Z -> Result (list TriggerRow);
}.

(** What happens on the client, in order. *)
Inductive Event :=
| Connect
| Query (sql : string) (parameters : list string)
| ExecuteSqlFile (file : string) (schemaOids : list Z)
| End_.

(** An asynchronous function: it extends the trace of client events
    and resolves or rejects; a rejection keeps the trace so far. *)
Definition Async (A : Type) : Type := list Event -> Result A * list Event.

Definition resolve {A} (a : A) : Async A := fun t => (Ok a, t).
Definition await {A B} (m : Async A) (k : A -> Async B) : Async B :=
  fun t => match m t with
           | (Ok a, t') => k a t'
           | (Throw e, t') => (Throw e, t')
           end.
Definition emit (e : Event) : Async unit := fun t => (Ok tt, t ++ [e]).
Definition settle {A} (r : Result A) : Async A := fun t => (r, t).

#[global] Instance Async_ret : MRet Async := @resolve.
#[global] Instance Async_bind : MBind Async := fun A B k m => await m k.

(** *** [getSchemas], [getSystemSchemas], [getQueryResultsFromDb] *)

Definition getSchemas (w : World) (f : Discovery.SchemaFilter) : Async (list SchemaRow) :=
  emit (Query (Discovery.sql f) (Discovery.parameters f));;
  settle (schemasAnswer w (Discovery.sql f) (Discovery.parameters f)).

Definition systemSchemasSql : string :=
  "SELECT oid, nspname AS name, obj_description(oid, 'pg_namespace') AS comment FROM pg_namespace WHERE nspname IN ('pg_catalog') ORDER BY nspname".

Definition getSystemSchemas (w : World) : Async (list SchemaRow) :=
  emit (Query systemSchemasSql []);; settle (systemSchemasAnswer w).

(** Modelled from the spec: [executeSqlFile] is not part of the
    sources at hand; it runs the query of that logical name for the
    given schema OIDs on the client. *)
Definition executeSqlFile {A} (file : string) (answer : list Z -> Result A)
           (schemaOids : list Z) : Async (Result A) :=
  emit (ExecuteSqlFile file schemaOids);; resolve (answer schemaOids).

(** The seven calls inside [Promise.all] are all started, in order;
    the promise resolves with every result or rejects with a
    rejection, here the first in array order. *)
Definition getQueryResultsFromDb (w : World) (serverVersion : string)
           (includeSchemasArray excludeSchemasArray : list string)
           (includeSystemSchemas : option bool) : Async QueryResults :=
  schemaRows ← getSchemas w {| Discovery.include := includeSchemasArray;
                               Discovery.exclude := excludeSchemasArray;
                               Discovery.system := default false includeSystemSchemas |};
  systemSchemaRows ← getSystemSchemas w;
  let schemaOids := s_oid <$> schemaRows in
  let schemaOidsIncludingSystem := schemaOids ++ (s_oid <$> systemSchemaRows) in
  _ ← settle (getQueryVersionFor w serverVersion);
  types ← executeSqlFile "type" (typeAnswer w) schemaOidsIncludingSystem;
  entities ← executeSqlFile "entity" (entityAnswer w) schemaOids;
  cols ← executeSqlFile "column" (columnAnswer w) schemaOids;
  idxs ← executeSqlFile "index" (indexAnswer w) schemaOids;
  cons ← executeSqlFile "constraint" (constraintAnswer w) schemaOids;
  funs ← executeSqlFile "function" (functionAnswer w) schemaOids;
  trigs ← executeSqlFile "trigger" (triggerAnswer w) schemaOids;
  types ← settle types; entities ← settle entities; cols ← settle cols;
  idxs ← settle idxs; cons ← settle cons; funs ← settle funs; trigs ← settle trigs;
  resolve {| schemaRows := schemaRows; systemSchemaRows := systemSchemaRows;
             typeRows := types; entityRows := entities; columnRows := cols;
             indexRows := idxs; constraintRows := cons; functionRows := funs;
             triggerRows := trigs |}.

(** *** [pgStructure] *)

(** [x || "database"]: the empty string is falsy too. *)
Definition orElse (x : option string) (fallback : string) : string :=
  match x with
  | Some s => if bool_decide (s = "") then fallback else s
  | None => fallback
  end.

Definition getDatabaseName (w : World) (pgClientOrConfig : ClientOrConfig) : string :=
  match pgClientOrConfig with
  | ConnectedClient => "database"
  | ConnectionString s => orElse (parseDatabase w s) "database"
  | ConnectionConfig database => orElse database "database"
  end.

(** Modelled from the spec: [getConnectedPgClient] is not part of the
    sources at hand.  A connected client of the caller is used as it
    is and stays the caller's; from a connection string or object the
    core creates and connects a client of its own, to be closed. *)
Definition getConnectedPgClient (w : World) (pgClientOrConfig : ClientOrConfig)
  : Async bool :=
  match pgClientOrConfig with
  | ConnectedClient => resolve false
  | _ => emit Connect;; settle (connect w pgClientOrConfig);; resolve true
  end.

(** Modelled from the spec: the naming function loader is not part of
    the sources at hand; a strategy is selected by name or injected. *)
Definition getRelationNameFunctions (setting : RelationNameSetting) : RelationNameSetting :=
  setting.

(** The [Db] that [pgStructure] constructs before assembly. *)
Definition initialInfo (w : World) (options : Options) (pgClientOrConfig : ClientOrConfig)
           (serverVersion : string) (queryResults : QueryResults) : DbInfo :=
  {| name := orElse (opt_name options) (getDatabaseName w pgClientOrConfig);
     serverVersion := serverVersion;
     config :=
       {| commentDataToken := default "pg-structure" (opt_commentDataToken options);
          relationNameFunctions :=
            default (ByName "short") (opt_relationNameFunctions options);
          foreignKeyAliasSeparator := default "," (opt_foreignKeyAliasSeparator options);
          foreignKeyAliasTargetFirst :=
            default false (opt_foreignKeyAliasTargetFirst options) |};
     queryResults := queryResults;
     namingFunctions :=
       getRelationNameFunctions
         (default (ByName "short") (opt_relationNameFunctions options)) |}.

(** A synchronous call inside the asynchronous function. *)
Definition run (m : M unit) (db : Db) : Async Db :=
  settle (match m db with Ok (_, db') => Ok db' | Throw e => Throw e end).

Definition pgStructure (w : World) (clientOrOptions : FirstArgument)
           (maybeOptions : Options) : Async Db :=
  let '(maybePgClientOrConfig, options) :=
    match clientOrOptions with
    | OptionsBag o =>
        if isOptions clientOrOptions then (None, o)
        else (Some (ConnectionConfig None), maybeOptions)
    | Given c => (Some c, maybeOptions)
    | Absent => (None, maybeOptions)
    end in
  pgClientOrConfig ← match maybePgClientOrConfig with
                     | Some c => resolve c
                     | None => settle (getEnvValues w (default "DB" (envPrefix options)))
                     end;
  shouldCloseConnection ← getConnectedPgClient w pgClientOrConfig;
  emit (Query "SHOW server_version" []);;
  serverVersion ← settle (showServerVersion w);
  queryResults ← getQueryResultsFromDb w serverVersion
                   (arrify (includeSchemas options)) (arrify (excludeSchemas options))
                   (includeSystemSchemas options);
  db ← run (addObjects queryResults)
           (newDb (initialInfo w options pgClientOrConfig serverVersion queryResults));
  (if negb (default false (keepConnection options)) && shouldCloseConnection
   then emit End_ else resolve tt);;
  resolve db.

(** *** Snapshots, [serialize] and [deserialize] *)

(** The parsed snapshot: [{ name, serverVersion, config, queryResults }]. *)
Record Snapshot := {
  snap_name : string;
  snap_serverVersion : string;
  snap_config : Config;
  snap_queryResults : QueryResults;
}.

Definition snapshotOf (db : Db) : Snapshot :=
  {| snap_name := name (info db); snap_serverVersion := serverVersion (info db);
     snap_config := config (info db); snap_queryResults := queryResults (info db) |}.

Section Json.

(** The host's [JSON.stringify] and [JSON.parse], on snapshots. *)
Variable JSON_stringify : Snapshot -> string.
Variable JSON_parse : string -> Result Snapshot.

(** Modelled from the spec: [Db.serialize] is not part of the
    sources at hand; the snapshot is a single object containing
    [{ name, serverVersion, config, queryResults }], the raw rows
    plus top-level config. *)
Definition serialize (db : Db) : string := JSON_stringify (snapshotOf db).

Definition deserialize (serializedData : string) : Result Db :=
  match JSON_parse serializedData with
  | Throw e => Throw e
  | Ok data =>
      let db := newDb {| name := snap_name data;
                         serverVersion := snap_serverVersion data;
                         config := snap_config data;
                         queryResults := snap_queryResults data;
                         namingFunctions :=
                           getRelationNameFunctions
                             (relationNameFunctions (snap_config data)) |} in
      match addObjects (snap_queryResults data) db with
      | Ok (_, db') => Ok db'
      | Throw e => Throw e
      end
  end.

End Json.

End Entry.

(** ** A text form of snapshots

  Functions that really print a snapshot and parse it back, in
  S-expression syntax, each record as the tuple of its fields.
  Injected naming functions have no text form: they print as a unit
  that does not parse back as a name. *)

Module SnapshotText.
Import Catalog Entry.

Definition viaTuple {R T} `{Deserialize T} (build : T -> R) : Deserialize R :=
  fun l s => match _from_sexp l s with
             | inr t => inr (build t)
             | inl e => inl e
             end.

#[local] Instance Serialize_SchemaRow : Serialize SchemaRow :=
  fun r => to_sexp (s_oid r, s_name r, s_comment r).
#[local] Instance Deserialize_SchemaRow : Deserialize SchemaRow :=
  viaTuple (fun '(a, b, c) => {| s_oid := a; s_name := b; s_comment := c |}).

#[local] Instance Serialize_TypeRow : Serialize TypeRow :=
  fun r => to_sexp (t_oid r, t_classOid r, t_schemaOid r, t_kind r, t_name r, t_sqlType r).
#[local] Instance Deserialize_TypeRow : Deserialize TypeRow :=
  viaTuple (fun '(a, b, c, d, e, f) =>
              {| t_oid := a; t_classOid := b; t_schemaOid := c; t_kind := d;
                 t_name := e; t_sqlType := f |}).

#[local] Instance Serialize_EntityRow : Serialize EntityRow :=
  fun r => to_sexp (e_oid r, e_schemaOid r, e_kind r, e_name r).
#[local] Instance Deserialize_EntityRow : Deserialize EntityRow :=
  viaTuple (fun '(a, b, c, d) =>
              {| e_oid := a; e_schemaOid := b; e_kind := c; e_name := d |}).

#[local] Instance Serialize_ColumnRow : Serialize ColumnRow :=
  fun r => to_sexp (c_parentKind r, c_parentOid r, c_attributeNumber r, c_name r).
#[local] Instance Deserialize_ColumnRow : Deserialize ColumnRow :=
  viaTuple (fun '(a, b, c, d) =>
              {| c_parentKind := a; c_parentOid := b; c_attributeNumber := c; c_name := d |}).

#[local] Instance Serialize_IndexRow : Serialize IndexRow :=
  fun r => to_sexp (i_oid r, i_tableOid r, i_name r, i_columnPositions r,
                    i_indexExpressions r).
#[local] Instance Deserialize_IndexRow : Deserialize IndexRow :=
  viaTuple (fun '(a, b, c, d, e) =>
              {| i_oid := a; i_tableOid := b; i_name := c; i_columnPositions := d;
                 i_indexExpressions := e |}).

#[local] Instance Serialize_ConstraintRow : Serialize ConstraintRow :=
  fun r => to_sexp (k_tableOid r, k_indexOid r, k_typeOid r, k_kind r, k_name r,
                    k_checkConstraintExpression r, k_constrainedColumnPositions r,
                    k_onUpdate r, k_onDelete r, k_matchType r).
#[local] Instance Deserialize_ConstraintRow : Deserialize ConstraintRow :=
  viaTuple (fun '(a, b, c, d, e, f, g, h, i, j) =>
              {| k_tableOid := a; k_indexOid := b; k_typeOid := c; k_kind := d;
                 k_name := e; k_checkConstraintExpression := f;
                 k_constrainedColumnPositions := g; k_onUpdate := h; k_onDelete := i;
                 k_matchType := j |}).

#[local] Instance Serialize_FunctionRow : Serialize FunctionRow :=
  fun r => to_sexp (f_oid r, f_schemaOid r, f_kind r, f_name r).
#[local] Instance Deserialize_FunctionRow : Deserialize FunctionRow :=
  viaTuple (fun '(a, b, c, d) =>
              {| f_oid := a; f_schemaOid := b; f_kind := c; f_name := d |}).

#[local] Instance Serialize_TriggerRow : Serialize TriggerRow :=
  fun r => to_sexp (g_entityOid r, g_functionOid r, g_name r).
#[local] Instance Deserialize_TriggerRow : Deserialize TriggerRow :=
  viaTuple (fun '(a, b, c) => {| g_entityOid := a; g_functionOid := b; g_name := c |}).

#[local] Instance Serialize_QueryResults : Serialize QueryResults :=
  fun r => to_sexp (schemaRows r, systemSchemaRows r, typeRows r, entityRows r,
                    columnRows r, indexRows r, constraintRows r, functionRows r,
                    triggerRows r).
#[local] Instance Deserialize_QueryResults : Deserialize QueryResults :=
  viaTuple (fun '(a, b, c, d, e, f, g, h, i) =>
              {| schemaRows := a; systemSchemaRows := b; typeRows := c; entityRows := d;
                 columnRows := e; indexRows := f; constraintRows := g;
                 functionRows := h; triggerRows := i |}).

#[local] Instance Serialize_RelationNameSetting : Serialize RelationNameSetting :=
  fun s => match s with
           | ByName module => to_sexp module
           | Custom _ _ _ => to_sexp tt
           end.
#[local] Instance Deserialize_RelationNameSetting : Deserialize RelationNameSetting :=
  viaTuple ByName.

#[local] Instance Serialize_Config : Serialize Config :=
  fun c => to_sexp (commentDataToken c, relationNameFunctions c,
                    foreignKeyAliasSeparator c, foreignKeyAliasTargetFirst c).
#[local] Instance Deserialize_Config : Deserialize Config :=
  viaTuple (fun '(a, b, c, d) =>
              {| commentDataToken := a; relationNameFunctions := b;
                 foreignKeyAliasSeparator := c; foreignKeyAliasTargetFirst := d |}).

#[local] Instance Serialize_Snapshot : Serialize Snapshot :=
  fun s => to_sexp (snap_name s, snap_serverVersion s, snap_config s, snap_queryResults s).
#[local] Instance Deserialize_Snapshot : Deserialize Snapshot :=
  viaTuple (fun '(a, b, c, d) =>
              {| snap_name := a; snap_serverVersion := b; snap_config := c;
                 snap_queryResults := d |}).

Definition stringify (s : Snapshot) : string := to_string s.

Definition parse (text : string) : Result Snapshot :=
  match from_string text with
  | inr s => Ok s
  | inl _ => Throw (SyntaxError "Unexpected token")
  end.

End SnapshotText.

(** ** Properties of schema discovery *)

Module DiscoveryFacts.
Import Discovery.

(** The property as the specification words it, for one call: the
    system patterns join the included patterns whenever
    [includeSystemSchemas] is true, and every pattern is bound by its
    predicate. *)
Definition query_as_specified (w : Entry.World) (f : SchemaFilter) (t : list Entry.Event) : Prop :=
  exists (likes notLikes params : list string),
    (Entry.getSchemas w f t).2
    = t ++ [Entry.Query
              (filtered (["NOT pg_is_other_temp_schema(oid)"; "nspname <> 'pg_toast'"]
                           ++ anyOf likes ++ notLikes))
              params]
    /\ Forall2 (fun clause pattern => binds "LIKE" clause params pattern)
               likes (include f ++ (if system f then systemPatterns else []))
    /\ Forall2 (fun clause pattern => binds "NOT LIKE" clause params pattern)
               notLikes (exclude f ++ (if system f then [] else systemPatterns)).

Example query_default :
  getSchemas_query {| include := []; exclude := []; system := false |} =
  ("SELECT oid, nspname AS name, obj_description(oid, 'pg_namespace') AS comment FROM pg_namespace WHERE NOT pg_is_other_temp_schema(oid) AND nspname <> 'pg_toast' AND nspname NOT LIKE $1 AND nspname NOT LIKE $2 ORDER BY nspname",
   ["information\_schema"; "pg\_%"]).
Proof. reflexivity. Qed.

Example query_filtered :
  getSchemas_query {| include := ["pub%"]; exclude := ["pub_test"]; system := false |} =
  ("SELECT oid, nspname AS name, obj_description(oid, 'pg_namespace') AS comment FROM pg_namespace WHERE NOT pg_is_other_temp_schema(oid) AND nspname <> 'pg_toast' AND (nspname LIKE $1) AND nspname NOT LIKE $2 AND nspname NOT LIKE $3 AND nspname NOT LIKE $4 ORDER BY nspname",
   ["pub%"; "pub_test"; "information\_schema"; "pg\_%"]).
Proof. reflexivity. Qed.

(** With system schemas requested and both lists given, the exclusion
    placeholder is numbered from [include.length] although two system
    patterns were pushed in between: [$2] holds an include pattern and
    the exclusion pattern sits, unreferenced, in fourth place. *)
Example query_system_numbering :
  let f := {| include := ["pub%"]; exclude := ["pub_test"]; system := true |} in
  whereInclude f = ["nspname LIKE $1"; "nspname LIKE $2"; "nspname LIKE $3"]
  /\ whereExclude f = ["nspname NOT LIKE $2"]
  /\ parameters f = ["pub%"; "information\_schema"; "pg\_%"; "pub_test"].
Proof. repeat split. Qed.

Lemma included_length_no_system f :
  system f = false \/ include f = [] ->
  length (includedPatterns f) = length (include f).
Proof.
  unfold includedPatterns. intros [Hs | Hi].
  - rewrite Hs. simpl. by rewrite app_nil_r.
  - rewrite Hi. simpl. rewrite andb_comm. reflexivity.
Qed.

Lemma included_binds f i pattern :
  includedPatterns f !! i = Some pattern ->
  exists clause, whereInclude f !! i = Some clause
                 /\ binds "LIKE" clause (parameters f) pattern.
Proof.
  intros Hi. exists ("nspname LIKE $" +:+ pretty (i + 1)). split.
  - unfold whereInclude. rewrite list_lookup_imap, Hi. reflexivity.
  - exists i. split.
    + by replace (i + 1) with (S i) by lia.
    + unfold parameters. by apply lookup_app_l_Some.
Qed.

Lemma excluded_binds f j pattern :
  system f = false \/ include f = [] ->
  excludedPatterns f !! j = Some pattern ->
  exists clause, whereExclude f !! j = Some clause
                 /\ binds "NOT LIKE" clause (parameters f) pattern.
Proof.
  intros Hf Hj.
  exists ("nspname NOT LIKE $" +:+ pretty (j + length (include f) + 1)). split.
  - unfold whereExclude. rewrite list_lookup_imap, Hj. reflexivity.
  - exists (length (include f) + j). split.
    + by replace (j + length (include f) + 1) with (S (length (include f) + j)) by lia.
    + unfold parameters. rewrite <- (included_length_no_system f Hf).
      by rewrite lookup_app_r, Nat.add_comm, Nat.add_sub by lia.
Qed.

Lemma sql_filtered f :
  sql f = filtered (whereFixed ++ anyOf (whereInclude f) ++ whereExclude f).
Proof.
  unfold sql, whereQuery, where_, filtered, anyOf.
  destruct (whereInclude f) as [| clause l]; [reflexivity |].
  rewrite bool_decide_eq_true_2 by (simpl; lia). reflexivity.
Qed.

Lemma includedPatterns_eq f :
  includedPatterns f
  = include f ++ (if system f && bool_decide (include f <> []) then systemPatterns else []).
Proof. unfold includedPatterns. destruct (include f); reflexivity. Qed.

(** What [getSchemas] does on the client: it sends one query. *)
Lemma getSchemas_trace w f t :
  (Entry.getSchemas w f t).2
  = t ++ [Entry.Query (filtered (whereFixed ++ anyOf (whereInclude f) ++ whereExclude f))
                      (includedPatterns f ++ excludedPatterns f)].
Proof.
  unfold Entry.getSchemas, mbind, Entry.Async_bind, Entry.await, Entry.emit, Entry.settle.
  simpl. by rewrite sql_filtered.
Qed.

Lemma whereInclude_binds f :
  Forall2 (fun clause pattern => binds "LIKE" clause (parameters f) pattern)
          (whereInclude f) (includedPatterns f).
Proof.
  apply Forall2_same_length_lookup. split; [unfold whereInclude; by rewrite length_imap |].
  intros i clause pattern Hc Hp.
  destruct (included_binds f i pattern Hp) as (clause' & Hc' & Hb). congruence.
Qed.

Lemma whereExclude_binds f :
  system f = false \/ include f = [] ->
  Forall2 (fun clause pattern => binds "NOT LIKE" clause (parameters f) pattern)
          (whereExclude f) (excludedPatterns f).
Proof.
  intros Hf.
  apply Forall2_same_length_lookup. split; [unfold whereExclude; by rewrite length_imap |].
  intros j clause pattern Hc Hp.
  destruct (excluded_binds f j pattern Hf Hp) as (clause' & Hc' & Hb). congruence.
Qed.

(** C3 (as amended): [getSchemas] sends one query, whose [WHERE]
    clause is a conjunction.  Its first two conjuncts are the fixed
    exclusions of other-backend temp schemas and of [pg_toast].  The
    patterns [information\_schema] and [pg\_%] are appended to the
    excluded patterns exactly when [includeSystemSchemas] is false,
    and to the included patterns exactly when it is true and the
    caller gave at least one include pattern.  When there is an
    included pattern, the next conjunct is the disjunction of one
    [LIKE $k] predicate per included pattern, whose [k]-th parameter
    is that pattern; with no included pattern there is no such
    conjunct.  The remaining conjuncts are one [NOT LIKE] predicate
    per excluded pattern, and, whenever no system pattern was added
    to the included patterns, each is [NOT LIKE $k] with that
    excluded pattern as the [k]-th parameter. *)
Theorem getSchemas_query_spec (w : Entry.World) (f : SchemaFilter) (t : list Entry.Event) :
  let included :=
    include f ++ (if system f && bool_decide (include f <> []) then systemPatterns else []) in
  let excluded := exclude f ++ (if system f then [] else systemPatterns) in
  exists likes notLikes : list string,
    (Entry.getSchemas w f t).2
    = t ++ [Entry.Query
              (filtered (["NOT pg_is_other_temp_schema(oid)"; "nspname <> 'pg_toast'"]
                           ++ anyOf likes ++ notLikes))
              (included ++ excluded)]
    /\ Forall2 (fun clause pattern => binds "LIKE" clause (included ++ excluded) pattern)
               likes included
    /\ length notLikes = length excluded
    /\ (system f = false \/ include f = [] ->
        Forall2 (fun clause pattern => binds "NOT LIKE" clause (included ++ excluded) pattern)
                notLikes excluded).
Proof.
  intros included excluded. subst included excluded.
  rewrite <- includedPatterns_eq. fold (excludedPatterns f).
  exists (whereInclude f), (whereExclude f).
  split; [apply getSchemas_trace |]. split; [apply whereInclude_binds |].
  split; [unfold whereExclude; by rewrite length_imap | apply whereExclude_binds].
Qed.

End DiscoveryFacts.

(** ** Properties of the assembler *)

Module AssemblerFacts.
Import Catalog Assembler.

(** *** The monad and the heap primitives *)

Lemma bind_Ok {A B} (m : M A) (k : A -> M B) db a db' :
  m db = Ok (a, db') -> (m ≫= k) db = k a db'.
Proof. unfold mbind, M_bind, bind. by intros ->. Qed.

Lemma bind_Throw {A B} (m : M A) (k : A -> M B) db e :
  m db = Throw e -> (m ≫= k) db = Throw e.
Proof. unfold mbind, M_bind, bind. by intros ->. Qed.

Lemma schemaAt_lt db r s : schemaAt db r = Some s -> r < length (heap db).
Proof.
  unfold schemaAt. destruct (heap db !! r) eqn:E; [| done].
  intros _. by eapply lookup_lt_Some.
Qed.

Lemma schemaAt_heap db r s : schemaAt db r = Some s -> heap db !! r = Some (OSchema s).
Proof. unfold schemaAt. by destruct (heap db !! r) as [[]|]; intros [= ->]. Qed.

Lemma entityAt_heap db r e : entityAt db r = Some e -> heap db !! r = Some (OEntity e).
Proof. unfold entityAt. by destruct (heap db !! r) as [[]|]; intros [= ->]. Qed.

Lemma typeAt_heap db r t : typeAt db r = Some t -> heap db !! r = Some (OType t).
Proof. unfold typeAt. by destruct (heap db !! r) as [[]|]; intros [= ->]. Qed.

Lemma indexAt_heap db r i : indexAt db r = Some i -> heap db !! r = Some (OIndex i).
Proof. unfold indexAt. by destruct (heap db !! r) as [[]|]; intros [= ->]. Qed.

Lemma new_eq o db :
  new o db = Ok (length (heap db), set_heap db (heap db ++ [o])).
Proof. reflexivity. Qed.

Lemma mutate_Ok what r f db o o' :
  heap db !! r = Some o -> f o = Some o' ->
  mutate what r f db = Ok (tt, set_heap db (<[r := o']> (heap db))).
Proof. unfold mutate. intros -> Hf. simpl. by rewrite Hf. Qed.

Lemma pushToSchema_Ok c schema x db s :
  heap db !! schema = Some (OSchema s) ->
  pushToSchema c schema x db
  = Ok (tt, set_heap db (<[schema := OSchema (schema_push c x s)]> (heap db))).
Proof. intros H. unfold pushToSchema. by erewrite mutate_Ok. Qed.

Lemma pushToEntity_Ok c entity x db e :
  heap db !! entity = Some (OEntity e) ->
  entity_owns (entity_kind e) c = true ->
  pushToEntity c entity x db
  = Ok (tt, set_heap db (<[entity := OEntity (entity_push c x e)]> (heap db))).
Proof.
  intros H Ho. unfold pushToEntity. erewrite mutate_Ok; [done | done |].
  simpl. by rewrite Ho.
Qed.

(** *** Phase 3: where a type lands *)

(** The [Db] after [addType] put the new type under [schema]. *)
Definition typeAdded (row : TypeRow) (kind : TypeKind) (schema : ref) (s : Schema)
           (db : Db) : Db :=
  let type := length (heap db) in
  set_heap db
    (<[schema := OSchema (schema_push TypesIncludingEntities type s)]>
       (heap db ++ [OType {| type_kind := kind; type_row := row;
                             type_builtin := builtinTypeData row; type_schema := schema;
                             type_columns := []; checkConstraints := [] |}])).

Lemma addType_under row kind schema s db :
  typeSchema (t_schemaOid row) db = Ok (schema, db) ->
  typeKinds (t_kind row) = Some kind ->
  schemaAt db schema = Some s ->
  addType row db = Ok (tt, typeAdded row kind schema s db).
Proof.
  intros Hres Hkind Hs. unfold addType.
  erewrite bind_Ok by exact Hres. rewrite Hkind.
  erewrite bind_Ok by apply new_eq.
  erewrite pushToSchema_Ok; [reflexivity |].
  simpl. rewrite lookup_app_l by eauto using schemaAt_lt.
  by apply schemaAt_heap.
Qed.

(** C6: the schema of a type row is looked up by [schemaOid] in
    [systemSchemas] first; only when it is absent there are the user
    schemas consulted, and absence from both is fatal (NotFound).  The
    type built from the row is appended to the [typesIncludingEntities]
    of the schema found: it is the one new heap object, it points back
    at that schema, and the schema is otherwise unchanged. *)
Theorem addType_schema_resolution (row : TypeRow) (kind : TypeKind) (db : Db) :
  typeKinds (t_kind row) = Some kind ->
  (forall schema s,
      getMaybe KOid (systemSchemas db) (t_schemaOid row) db = Some schema ->
      schemaAt db schema = Some s ->
      addType row db = Ok (tt, typeAdded row kind schema s db))
  /\ (forall schema s,
      getMaybe KOid (systemSchemas db) (t_schemaOid row) db = None ->
      getMaybe KOid (schemas db) (t_schemaOid row) db = Some schema ->
      schemaAt db schema = Some s ->
      addType row db = Ok (tt, typeAdded row kind schema s db))
  /\ (getMaybe KOid (systemSchemas db) (t_schemaOid row) db = None ->
      getMaybe KOid (schemas db) (t_schemaOid row) db = None ->
      addType row db = Throw (NotFound (t_schemaOid row))).
Proof.
  intros Hkind. repeat split.
  - intros schema s Hsys Hs. apply addType_under; [| done | done].
    unfold typeSchema. by rewrite Hsys.
  - intros schema s Hsys Husr Hs. apply addType_under; [| done | done].
    unfold typeSchema, get. by rewrite Hsys, Husr.
  - intros Hsys Husr. unfold addType. apply bind_Throw.
    unfold typeSchema, get. by rewrite Hsys, Husr.
Qed.

(** What [typeAdded] means for the graph. *)
Lemma typeAdded_graph row kind schema s db :
  schemaAt db schema = Some s ->
  let db' := typeAdded row kind schema s db in
  length (heap db') = S (length (heap db))
  /\ (typeAt db' (length (heap db))
      = Some {| type_kind := kind; type_row := row; type_builtin := builtinTypeData row;
                type_schema := schema; type_columns := []; checkConstraints := [] |})
  /\ (typesIncludingEntities <$> schemaAt db' schema)
     = Some (typesIncludingEntities s ++ [length (heap db)])
  /\ (forall r, r <> schema -> r < length (heap db) -> heap db' !! r = heap db !! r).
Proof.
  intros Hs db'. pose proof (schemaAt_lt _ _ _ Hs) as Hlt.
  subst db'. unfold typeAdded, typeAt, schemaAt. simpl. repeat split.
  - by rewrite length_insert, length_app, Nat.add_comm.
  - rewrite list_lookup_insert_ne by lia.
    by rewrite lookup_app_r, Nat.sub_diag by lia.
  - rewrite list_lookup_insert_eq by (rewrite length_app; lia). reflexivity.
  - intros r Hne Hr. rewrite list_lookup_insert_ne by done.
    by rewrite lookup_app_l.
Qed.

(** *** Phase 6: the columns and expressions of an index *)

Definition slotOfExpression (e : option string) : ColumnOrExpression :=
  match e with Some e => IsExpression e | None => IsUndefined end.

(** How many of the first [i] positions consumed an expression: the
    positions that are not greater than zero. *)
Definition consumedBefore (positions : list Z) (i : nat) : nat :=
  length (filter (fun p => ¬ (0 < p)%Z) (take i positions)).

(** The list as the specification words it: slot [i] is the column
    with that attribute number when the position is greater than zero,
    otherwise the next unconsumed index expression. *)
Definition columnsAndExpressions_spec (column : Z -> option ref)
           (positions : list Z) (indexExpressions : list string) : list ColumnOrExpression :=
  imap (fun i position =>
          if bool_decide (0 < position)%Z then slotOfColumn (column position)
          else slotOfExpression (indexExpressions !! consumedBefore positions i))
       positions.

(** The expressions of a list of slots, in order. *)
Definition expressionsOf (l : list ColumnOrExpression) : list string :=
  omap (fun x => match x with IsExpression e => Some e | _ => None end) l.

(** What the loop of [eachPosition] appends, as a function. *)
Fixpoint walk (column : Z -> option ref) (positions : list Z)
         (indexExpressions : list string) : list ColumnOrExpression :=
  match positions with
  | [] => []
  | position :: rest =>
      if bool_decide (0 < position)%Z
      then slotOfColumn (column position) :: walk column rest indexExpressions
      else slotOfExpression (head indexExpressions)
             :: walk column rest (tail indexExpressions)
  end.

Lemma walk_lookup column positions : forall indexExpressions i position,
  positions !! i = Some position ->
  walk column positions indexExpressions !! i
  = Some (if bool_decide (0 < position)%Z then slotOfColumn (column position)
          else slotOfExpression (indexExpressions !! consumedBefore positions i)).
Proof.
  induction positions as [| p rest IH]; intros es i position Hi; [done |].
  destruct i as [| i]; simpl in Hi.
  - injection Hi as ->. simpl. case_bool_decide; [done |].
    unfold consumedBefore. simpl. by destruct es.
  - simpl. unfold consumedBefore. simpl. rewrite filter_cons.
    case_bool_decide as Hp.
    + rewrite decide_False by tauto. simpl. by apply IH.
    + rewrite decide_True by done. simpl. erewrite IH by done.
      case_bool_decide; [done |]. unfold consumedBefore. by destruct es.
Qed.

Lemma walk_length column positions : forall indexExpressions,
  length (walk column positions indexExpressions) = length positions.
Proof.
  induction positions as [| p rest IH]; intros es; [done |].
  simpl. case_bool_decide; simpl; by rewrite IH.
Qed.

(** The loop computes the list of the specification. *)
Lemma walk_spec column positions indexExpressions :
  walk column positions indexExpressions
  = columnsAndExpressions_spec column positions indexExpressions.
Proof.
  apply list_eq. intros i. unfold columnsAndExpressions_spec.
  rewrite list_lookup_imap.
  destruct (positions !! i) as [position |] eqn:Hi; simpl.
  - by apply walk_lookup.
  - apply lookup_ge_None. rewrite walk_length. by apply lookup_ge_None.
Qed.

(** Expressions come out in the order of [indexExpressions]: they are
    its first elements, as many as positions consumed one. *)
Lemma walk_expressions column positions : forall indexExpressions,
  expressionsOf (walk column positions indexExpressions)
  = take (consumedBefore positions (length positions)) indexExpressions.
Proof.
  unfold expressionsOf, consumedBefore.
  induction positions as [| p rest IH]; intros es; [by destruct es |].
  simpl. rewrite filter_cons. case_bool_decide as Hp.
  - rewrite decide_False by tauto. simpl.
    destruct (column p); simpl; apply IH.
  - rewrite decide_True by done. simpl. destruct es as [| e es]; simpl.
    + rewrite IH. by rewrite take_nil.
    + by rewrite IH.
Qed.

Lemma walk_ext (f g : Z -> option ref) positions :
  (forall p, f p = g p) ->
  forall indexExpressions, walk f positions indexExpressions = walk g positions indexExpressions.
Proof.
  intros Hfg. induction positions as [| p rest IH]; intros es; [done |].
  simpl. by rewrite Hfg, !IH.
Qed.

Lemma find_ext {A} (f g : A -> bool) (l : list A) :
  (forall x, f x = g x) -> find f l = find g l.
Proof. intros Hfg. induction l as [| x l IH]; [done |]. simpl. by rewrite Hfg, IH. Qed.

(** Two heaps show the same entities and columns when they differ
    only in slots that hold an index in the second and an index or
    nothing in the first. *)
Definition sameColumns (h h' : list Obj) : Prop :=
  forall r : ref, h' !! r = h !! r
            \/ ((h !! r = None \/ exists i, h !! r = Some (OIndex i))
                /\ exists i', h' !! r = Some (OIndex i')).

Lemma findColumn_same db db' parent position :
  sameColumns (heap db) (heap db') ->
  findColumn db' parent position = findColumn db parent position.
Proof.
  intros Hsame. unfold findColumn.
  assert (columnsOf db' parent = columnsOf db parent) as ->.
  { unfold columnsOf, entityAt.
    destruct (Hsame parent) as [-> | [[-> | [i ->]] [i' ->]]]; reflexivity. }
  apply find_ext. intros c.
  destruct (Hsame c) as [-> | [[-> | [i ->]] [i' ->]]]; reflexivity.
Qed.

Lemma sameColumns_alloc h i : sameColumns h (h ++ [OIndex i]).
Proof.
  intros r. destruct (decide (r < length h)) as [Hlt | Hge].
  - left. by rewrite lookup_app_l.
  - destruct (decide (r = length h)) as [-> | Hne].
    + right. split; [left; by apply lookup_ge_None |].
      exists i. by rewrite lookup_app_r, Nat.sub_diag.
    + left. rewrite !(proj2 (lookup_ge_None _ _)); [done | lia |].
      rewrite length_app. simpl. lia.
Qed.

Lemma sameColumns_insert h index i i' :
  h !! index = Some (OIndex i) -> sameColumns h (<[index := OIndex i']> h).
Proof.
  intros Hi r. destruct (decide (r = index)) as [-> | Hne].
  - right. split; [right; eauto |]. exists i'.
    apply list_lookup_insert_eq. by eapply lookup_lt_Some.
  - left. by apply list_lookup_insert_ne.
Qed.

Definition withSlots (ix : Index) (slots : list ColumnOrExpression) : Index :=
  {| index_row := index_row ix; index_parent := index_parent ix;
     columnsAndExpressions := columnsAndExpressions ix ++ slots |}.

Lemma pushColumnOrExpression_Ok index x db ix :
  heap db !! index = Some (OIndex ix) ->
  pushColumnOrExpression index x db
  = Ok (tt, set_heap db (<[index := OIndex (withSlots ix [x])]> (heap db))).
Proof. intros H. unfold pushColumnOrExpression. by erewrite mutate_Ok. Qed.

Lemma withSlots_app ix l1 l2 : withSlots (withSlots ix l1) l2 = withSlots ix (l1 ++ l2).
Proof. unfold withSlots. simpl. by rewrite app_assoc. Qed.

(** The loop over [columnPositions] leaves the heap as it was but for
    the index, which gains the slots of [walk]. *)
Lemma eachPosition_walk index parent positions : forall indexExpressions db ix,
  heap db !! index = Some (OIndex ix) ->
  eachPosition index parent positions indexExpressions db
  = Ok (tt, set_heap db
              (<[index := OIndex (withSlots ix (walk (fun p => findColumn db parent p)
                                                    positions indexExpressions))]>
                 (heap db))).
Proof.
  induction positions as [| p rest IH]; intros es db ix Hix.
  - simpl. unfold ret, withSlots. rewrite app_nil_r.
    destruct ix; simpl. rewrite list_insert_id by done. by destruct db.
  - assert (forall x,
               pushColumnOrExpression index x db
               = Ok (tt, set_heap db (<[index := OIndex (withSlots ix [x])]> (heap db))))
      as Hpush by (intros; by apply pushColumnOrExpression_Ok).
    assert (forall x es',
               eachPosition index parent rest es'
                 (set_heap db (<[index := OIndex (withSlots ix [x])]> (heap db)))
               = Ok (tt, set_heap db
                           (<[index := OIndex
                                (withSlots ix (x :: walk (fun p => findColumn db parent p)
                                                         rest es'))]> (heap db))))
      as Hrest.
    { intros x es'. rewrite (IH es' _ (withSlots ix [x])).
      - simpl. rewrite list_insert_insert_eq, withSlots_app. simpl.
        rewrite (walk_ext _ (fun p => findColumn db parent p)); [done |].
        intros q. apply findColumn_same. simpl. by eapply sameColumns_insert.
      - simpl. apply list_lookup_insert_eq. by eapply lookup_lt_Some. }
    simpl. case_bool_decide.
    + erewrite bind_Ok by reflexivity.
      erewrite bind_Ok by apply Hpush. apply Hrest.
    + destruct es as [| e es]; (erewrite bind_Ok by apply Hpush); apply Hrest.
Qed.

Lemma entityAt_lt db r e : entityAt db r = Some e -> r < length (heap db).
Proof. intros H. apply entityAt_heap in H. by eapply lookup_lt_Some. Qed.

(** [findColumn] answers a column of the parent with that attribute number. *)
Lemma findColumn_Some db parent position c :
  findColumn db parent position = Some c ->
  c ∈ columnsOf db parent
  /\ heap db !! c ≫= attribute KAttributeNumber = Some position.
Proof.
  unfold findColumn. intros H. apply find_some in H as [Hin Hc].
  split; [by apply list_elem_of_In |]. by apply bool_decide_eq_true in Hc.
Qed.

(** C4: for an index row whose table resolves to an entity that owns
    indexes, [addIndexes] creates one index whose
    [columnsAndExpressions] has one slot per entry of
    [columnPositions], in order: a position greater than zero gives
    the parent's column with that attribute number, a position equal
    to zero gives the next unconsumed element of [indexExpressions];
    hence the expressions of the list are the leading elements of
    [indexExpressions] in their original order.  The index is appended
    to the parent's [indexes]. *)
Theorem addIndex_columnsAndExpressions (row : IndexRow) (db : Db) (parent : ref) (e : Entity) :
  getMaybe KOid (db_entities db) (i_tableOid row) db = Some parent ->
  entityAt db parent = Some e ->
  entity_owns (entity_kind e) Indexes = true ->
  let index := length (heap db) in
  let positions := i_columnPositions row in
  let slots := columnsAndExpressions_spec (fun p => findColumn db parent p) positions
                                          (i_indexExpressions row) in
  exists db',
    addIndex row db = Ok (tt, db')
    /\ indexAt db' index
       = Some {| index_row := row; index_parent := parent; columnsAndExpressions := slots |}
    /\ (indexes <$> entityAt db' parent) = Some (indexes e ++ [index])
    /\ length slots = length positions
    /\ (forall i position, positions !! i = Some position ->
          ((0 < position)%Z ->
             slots !! i = Some (slotOfColumn (findColumn db parent position)))
          /\ (position = 0%Z ->
                slots !! i = Some (slotOfExpression
                                     (i_indexExpressions row !! consumedBefore positions i))))
    /\ expressionsOf slots
       = take (consumedBefore positions (length positions)) (i_indexExpressions row).
Proof.
  intros Hparent He Howns index positions slots.
  pose proof (entityAt_lt _ _ _ He) as Hlt.
  pose proof (entityAt_heap _ _ _ He) as Hheap.
  set (ix0 := {| index_row := row; index_parent := parent; columnsAndExpressions := [] |}).
  set (db1 := set_heap db (heap db ++ [OIndex ix0])).
  assert (heap db1 !! index = Some (OIndex ix0)) as Hix.
  { subst db1 index. simpl. by rewrite lookup_app_r, Nat.sub_diag. }
  assert (walk (fun p => findColumn db1 parent p) positions (i_indexExpressions row) = slots)
    as Hslots.
  { subst slots. rewrite <- walk_spec. apply walk_ext. intros p.
    apply findColumn_same. subst db1. simpl. apply sameColumns_alloc. }
  eexists. split; [| split; [| split; [| split; [| split]]]].
  - unfold addIndex.
    erewrite bind_Ok by (unfold get; by rewrite Hparent).
    erewrite bind_Ok by apply new_eq. fold ix0 db1 index.
    erewrite bind_Ok by (by apply eachPosition_walk).
    fold positions. rewrite Hslots. apply pushToEntity_Ok; [| done].
    simpl. rewrite list_lookup_insert_ne by (subst index; lia).
    by rewrite lookup_app_l.
  - unfold indexAt. simpl. rewrite list_lookup_insert_ne by (subst index; lia).
    rewrite list_lookup_insert_eq by (rewrite length_app; simpl; subst index; lia).
    reflexivity.
  - unfold entityAt. simpl.
    rewrite list_lookup_insert_eq by (rewrite length_insert, length_app; lia).
    reflexivity.
  - subst slots. rewrite <- walk_spec. apply walk_length.
  - intros i position Hi. subst slots. unfold columnsAndExpressions_spec.
    rewrite list_lookup_imap, Hi. simpl. split.
    + intros Hpos. by rewrite bool_decide_eq_true_2.
    + intros ->. by rewrite bool_decide_eq_false_2.
  - subst slots. rewrite <- walk_spec. apply walk_expressions.
Qed.

(** *** Phase 7: constraints *)

Lemma bind_read {A B} (f : Db -> A) (k : A -> M B) db : (read f ≫= k) db = k (f db) db.
Proof. reflexivity. Qed.

Lemma forEach_skip {A} (f : A -> M unit) row rest db :
  f row db = Ok (tt, db) -> forEach f (row :: rest) db = forEach f rest db.
Proof. intros H. simpl. unfold bind. by rewrite H. Qed.

(** The three lookups that open the loop body. *)
Definition resolveTable (row : ConstraintRow) (db : Db) : option ref :=
  getMaybe KOid (db_tables db) (k_tableOid row) db.
Definition resolveIndex (row : ConstraintRow) (db : Db) : option ref :=
  getMaybe KOid (db_indexes db) (k_indexOid row) db.
Definition resolveDomain (row : ConstraintRow) (db : Db) : option ref :=
  getMaybe KOid (db_typesIncludingEntities db) (k_typeOid row) db.

Lemma addConstraint_unfold row db :
  addConstraint row db
  = match resolveTable row db with
    | Some table =>
        if bool_decide (k_kind row = "p"%char) then
          addTableConstraint table (PrimaryKey row (resolveIndex row db) table) db
        else if bool_decide (k_kind row = "u"%char) then
          addTableConstraint table (UniqueConstraint row (resolveIndex row db) table) db
        else if bool_decide (k_kind row = "x"%char) then
          addTableConstraint table (ExclusionConstraint row (resolveIndex row db) table) db
        else if bool_decide (k_kind row = "c"%char) then
          addTableConstraint table
            (CheckConstraint row (OfTable table) (k_checkConstraintExpression row)) db
        else if bool_decide (k_kind row = "f"%char) then
          addForeignKey row table (resolveIndex row db) db
        else Ok (tt, db)
    | None =>
        match resolveDomain row db with
        | Some domain =>
            if bool_decide (k_kind row = "c"%char) then
              (constraint ← new (OConstraint
                                   (CheckConstraint row (OfDomain domain)
                                                    (k_checkConstraintExpression row)));
               mutate "checkConstraints" domain (type_push_checkConstraint constraint)) db
            else Ok (tt, db)
        | None => Ok (tt, db)
        end
    end.
Proof.
  unfold addConstraint. rewrite !bind_read.
  fold (resolveTable row db) (resolveIndex row db) (resolveDomain row db).
  destruct (resolveTable row db); [| destruct (resolveDomain row db)];
    repeat case_bool_decide; reflexivity.
Qed.

(** Resolving columns by attribute number reads the graph only. *)
Lemma mapM_get k collection keys : forall cols db,
  Forall2 (fun key c => getMaybe k (collection db) key db = Some c) keys cols ->
  mapM (get k collection) keys db = Ok (cols, db).
Proof.
  induction keys as [| key keys IH]; intros cols db H.
  - by apply Forall2_nil_inv_l in H as ->.
  - apply Forall2_cons_inv_l in H as (c & cols' & Hc & Hrest & ->).
    simpl. unfold bind, get at 1. rewrite Hc. by rewrite (IH cols').
Qed.

(** A foreign-key row whose index does not resolve changes nothing. *)
Lemma addConstraint_foreignKey_skip row db :
  k_kind row = "f"%char -> resolveIndex row db = None ->
  addConstraint row db = Ok (tt, db).
Proof.
  intros Hkind Hindex. rewrite addConstraint_unfold, Hkind, Hindex.
  destruct (resolveTable row db); [reflexivity |].
  by destruct (resolveDomain row db).
Qed.

Lemma count_occ_fresh (l : list nat) (x : nat) :
  Forall (fun r => r < x) l -> count_occ Nat.eq_dec (l ++ [x]) x = 1.
Proof.
  intros H. rewrite count_occ_app. simpl.
  destruct (Nat.eq_dec x x); [| done].
  rewrite (proj1 (count_occ_not_In Nat.eq_dec l x)); [done |].
  intros Hin. rewrite Forall_forall in H.
  apply list_elem_of_In, H in Hin. lia.
Qed.

(** One foreign-key row, in any state of the graph.  With an
    unresolved index the row leaves the graph untouched and the loop
    goes on.  With the index, the owning table and the constrained
    columns resolved, the index being that of a table whose
    [foreignKeysToThis] lists allocated objects only, one object is
    created, the foreign key, and it is appended to both
    collections. *)
Lemma addConstraint_foreignKey_step (row : ConstraintRow) (db : Db) :
  k_kind row = "f"%char ->
  (resolveIndex row db = None ->
     addConstraint row db = Ok (tt, db)
     /\ forall rest, addConstraints (row :: rest) db = addConstraints rest db)
  /\ (forall table index t cols ix r,
        resolveTable row db = Some table ->
        resolveIndex row db = Some index ->
        entityAt db table = Some t ->
        entity_owns (entity_kind t) Constraints = true ->
        Forall2 (fun position c =>
                   getMaybe KAttributeNumber (columnsOf db table) position db = Some c)
                (k_constrainedColumnPositions row) cols ->
        indexAt db index = Some ix ->
        entityAt db (index_parent ix) = Some r ->
        entity_kind r = Table ->
        Forall (fun x => x < length (heap db)) (foreignKeysToThis r) ->
        let foreignKey := length (heap db) in
        exists db',
          addConstraint row db = Ok (tt, db')
          /\ length (heap db') = S (length (heap db))
          /\ constraintAt db' foreignKey
             = Some (ForeignKey row table index cols
                                (actionLetterMap (k_onUpdate row))
                                (actionLetterMap (k_onDelete row))
                                (matchTypeLetterMap (k_matchType row)))
          /\ (forall x, x < length (heap db) -> constraintAt db' x = constraintAt db x)
          /\ (constraints <$> entityAt db' table) = Some (constraints t ++ [foreignKey])
          /\ (foreignKeysToThis <$> entityAt db' (index_parent ix))
             = Some (foreignKeysToThis r ++ [foreignKey])
          /\ count_occ Nat.eq_dec (foreignKeysToThis r ++ [foreignKey]) foreignKey = 1).
Proof.
  intros Hkind. split.
  - intros Hindex. pose proof (addConstraint_foreignKey_skip row db Hkind Hindex) as Hskip.
    split; [done |]. intros rest. by apply forEach_skip.
  - intros table index t cols ix r Htable Hindex Ht Howns Hcols Hix Hr Hrk Hfresh fk.
    pose proof (entityAt_heap _ _ _ Ht) as Htheap.
    pose proof (entityAt_heap _ _ _ Hr) as Hrheap.
    pose proof (indexAt_heap _ _ _ Hix) as Hixheap.
    pose proof (entityAt_lt _ _ _ Ht) as Htlt.
    pose proof (entityAt_lt _ _ _ Hr) as Hrlt.
    assert (index < length (heap db)) as Hixlt by (by eapply lookup_lt_Some).
    assert (index <> table) as Hne by congruence.
    assert (index <> index_parent ix) as Hne' by congruence.
    set (o := OConstraint (ForeignKey row table index cols
                                      (actionLetterMap (k_onUpdate row))
                                      (actionLetterMap (k_onDelete row))
                                      (matchTypeLetterMap (k_matchType row)))).
    set (h1 := heap db ++ [o]).
    set (h2 := <[table := OEntity (entity_push Constraints fk t)]> h1).
    assert (length h1 = S (length (heap db))) as Hlen1
        by (subst h1; rewrite length_app; simpl; lia).
    assert (length h2 = S (length (heap db))) as Hlen2
        by (subst h2; by rewrite length_insert).
    assert (exists r2, h2 !! index_parent ix = Some (OEntity r2)
                       /\ entity_kind r2 = Table
                       /\ foreignKeysToThis r2 = foreignKeysToThis r
                       /\ (index_parent ix = table -> r2 = entity_push Constraints fk t))
      as (r2 & Hr2 & Hr2k & Hr2f & Hr2t).
    { destruct (decide (index_parent ix = table)) as [Heq | Hneq].
      - exists (entity_push Constraints fk t). rewrite Heq in *.
        assert (r = t) as -> by congruence.
        split; [| done]. subst h2. apply list_lookup_insert_eq. lia.
      - exists r. split; [| done]. subst h2 h1.
        rewrite list_lookup_insert_ne by done. by rewrite lookup_app_l. }
    exists (set_heap db (<[index_parent ix := OEntity (entity_push ForeignKeysToThis fk r2)]> h2)).
    split; [| split; [| split; [| split; [| split; [| split]]]]].
    + rewrite addConstraint_unfold, Htable, Hkind, Hindex. simpl.
      unfold addForeignKey.
      erewrite bind_Ok by (apply mapM_get; exact Hcols).
      erewrite bind_Ok by apply new_eq. fold o h1 fk.
      erewrite bind_Ok
        by (apply pushToEntity_Ok; [simpl; subst h1; by rewrite lookup_app_l | done]).
      simpl. fold h2.
      erewrite bind_Ok.
      2:{ unfold referencedTable, indexAt. simpl. subst h2 h1.
          rewrite list_lookup_insert_ne by done.
          rewrite lookup_app_l by done. rewrite Hixheap. reflexivity. }
      erewrite pushToEntity_Ok; [reflexivity | exact Hr2 |]. by rewrite Hr2k.
    + simpl. by rewrite length_insert.
    + unfold constraintAt. simpl.
      rewrite list_lookup_insert_ne by (subst fk; lia). subst h2.
      rewrite list_lookup_insert_ne by (subst fk; lia). subst h1.
      by rewrite lookup_app_r, Nat.sub_diag.
    + intros x Hx. unfold constraintAt. simpl.
      destruct (decide (x = index_parent ix)) as [-> | Hx1].
      * rewrite list_lookup_insert_eq by lia. by rewrite Hrheap.
      * rewrite list_lookup_insert_ne by done. subst h2.
        destruct (decide (x = table)) as [-> | Hx2].
        -- rewrite list_lookup_insert_eq by lia. by rewrite Htheap.
        -- rewrite list_lookup_insert_ne by done. subst h1. by rewrite lookup_app_l.
    + unfold entityAt. simpl.
      destruct (decide (index_parent ix = table)) as [Heq | Hneq].
      * rewrite Heq, list_lookup_insert_eq by (rewrite <- Heq; lia).
        rewrite (Hr2t Heq). reflexivity.
      * rewrite list_lookup_insert_ne by done. subst h2.
        rewrite list_lookup_insert_eq by lia. reflexivity.
    + unfold entityAt. simpl. rewrite list_lookup_insert_eq by lia.
      simpl. by rewrite Hr2f.
    + by apply count_occ_fresh.
Qed.

Lemma typeAt_lt db r t : typeAt db r = Some t -> r < length (heap db).
Proof. intros H. apply typeAt_heap in H. by eapply lookup_lt_Some. Qed.

(** C10: a constraint row whose [tableOid] resolves to no loaded
    table is skipped, leaving the graph as it was and raising nothing,
    unless its [typeOid] resolves and its kind is [c]; in that case,
    the type being a domain, one check constraint is created and
    appended to the domain's [checkConstraints]. *)
Theorem addConstraint_without_table (row : ConstraintRow) (db : Db) :
  resolveTable row db = None ->
  (resolveDomain row db = None \/ k_kind row <> "c"%char ->
     addConstraint row db = Ok (tt, db)
     /\ forall rest, addConstraints (row :: rest) db = addConstraints rest db)
  /\ (forall domain d,
        resolveDomain row db = Some domain ->
        k_kind row = "c"%char ->
        typeAt db domain = Some d ->
        type_kind d = Domain ->
        let constraint := length (heap db) in
        exists db',
          addConstraint row db = Ok (tt, db')
          /\ length (heap db') = S (length (heap db))
          /\ constraintAt db' constraint
             = Some (CheckConstraint row (OfDomain domain) (k_checkConstraintExpression row))
          /\ (checkConstraints <$> typeAt db' domain)
             = Some (checkConstraints d ++ [constraint])
          /\ (forall x, x <> domain -> x < length (heap db) -> heap db' !! x = heap db !! x)).
Proof.
  intros Htable. split.
  - intros Hskip.
    assert (addConstraint row db = Ok (tt, db)) as H.
    { rewrite addConstraint_unfold, Htable.
      destruct Hskip as [-> | Hkind]; [done |].
      destruct (resolveDomain row db); [| done].
      by rewrite bool_decide_eq_false_2. }
    split; [done |]. intros rest. by apply forEach_skip.
  - intros domain d Hdomain Hkind Hd Hdk c.
    pose proof (typeAt_heap _ _ _ Hd) as Hdheap.
    pose proof (typeAt_lt _ _ _ Hd) as Hdlt.
    eexists. split; [| split; [| split; [| split]]].
    + rewrite addConstraint_unfold, Htable, Hdomain, Hkind. simpl.
      erewrite bind_Ok by apply new_eq.
      eapply mutate_Ok.
      * simpl. rewrite lookup_app_l by done. exact Hdheap.
      * simpl. rewrite Hdk. reflexivity.
    + simpl. rewrite length_insert, length_app. simpl. lia.
    + unfold constraintAt. simpl. rewrite list_lookup_insert_ne by (subst c; lia).
      by rewrite lookup_app_r, Nat.sub_diag.
    + unfold typeAt. simpl.
      rewrite list_lookup_insert_eq by (rewrite length_app; lia). reflexivity.
    + intros x Hx Hlt. simpl. rewrite list_lookup_insert_ne by done.
      by rewrite lookup_app_l.
Qed.
End AssemblerFacts.

(** ** Foreign-key symmetry of an assembled graph *)

Module SymmetryFacts.
Import Catalog Assembler AssemblerFacts.

Definition isForeignKey (c : Constraint) : bool :=
  match c with ForeignKey _ _ _ _ _ _ _ => true | _ => false end.

Definition occurs (x : nat) (l : list nat) : nat := count_occ Nat.eq_dec l x.

Definition allocatedIn (db : Db) (l : list nat) : Prop :=
  Forall (fun x => x < length (heap db)) l.

(** What foreign-key symmetry asks of one foreign key [f]: its index
    exists, the table of the index lists [f] once in
    [foreignKeysToThis], and its own table lists it once in
    [constraints]. *)
Definition linked (db : Db) (f table index : nat) : Prop :=
  exists ix r t,
    indexAt db index = Some ix
    /\ entityAt db (index_parent ix) = Some r
    /\ occurs f (foreignKeysToThis r) = 1
    /\ entityAt db table = Some t
    /\ occurs f (constraints t) = 1.

(** The invariant of the assembly: entities list allocated objects
    only, and every foreign key is linked. *)
Record symmetric (db : Db) : Prop := {
  sym_allocated : forall r e,
    entityAt db r = Some e ->
    allocatedIn db (foreignKeysToThis e) /\ allocatedIn db (constraints e);
  sym_linked : forall f row table index cols u d m,
    constraintAt db f = Some (ForeignKey row table index cols u d m) ->
    linked db f table index;
}.

(** How one heap slot may change in a step that builds no foreign key:
    constraints stay as they are, an index keeps its parent, an entity
    keeps [foreignKeysToThis] and gains only new objects in
    [constraints], no object changes its class, and a new object is no
    foreign key and no entity with foreign keys to it. *)
Definition slotQuiet (n n' : nat) (old new : option Obj) : Prop :=
  match old with
  | Some (OConstraint c) => new = Some (OConstraint c)
  | Some (OIndex i) => exists i', new = Some (OIndex i') /\ index_parent i' = index_parent i
  | Some (OEntity e) =>
      exists e' l, new = Some (OEntity e')
                   /\ foreignKeysToThis e' = foreignKeysToThis e
                   /\ constraints e' = constraints e ++ l
                   /\ Forall (fun x => n <= x < n') l
  | Some _ =>
      match new with
      | Some (OConstraint _) | Some (OIndex _) | Some (OEntity _) | None => False
      | Some _ => True
      end
  | None =>
      match new with
      | Some (OConstraint c) => isForeignKey c = false
      | Some (OEntity e) =>
          foreignKeysToThis e = [] /\ Forall (fun x => n <= x < n') (constraints e)
      | _ => True
      end
  end.

Definition quiet (db db' : Db) : Prop :=
  length (heap db) <= length (heap db')
  /\ forall x, slotQuiet (length (heap db)) (length (heap db')) (heap db !! x) (heap db' !! x).

Lemma Forall_bounds_weaken (n n' m m' : nat) (l : list nat) :
  m <= n -> n' <= m' -> Forall (fun x => n <= x < n') l -> Forall (fun x => m <= x < m') l.
Proof. intros H1 H2 H. eapply Forall_impl; [exact H |]. intros x. simpl. lia. Qed.

Lemma slotQuiet_refl n o : slotQuiet n n o o.
Proof.
  destruct o as [[] |]; simpl; eauto.
  eexists _, []. by rewrite app_nil_r.
Qed.

Lemma quiet_refl db : quiet db db.
Proof. split; [done |]. intros x. apply slotQuiet_refl. Qed.

Lemma slotQuiet_trans n1 n2 n3 o1 o2 o3 :
  n1 <= n2 -> n2 <= n3 ->
  slotQuiet n1 n2 o1 o2 -> slotQuiet n2 n3 o2 o3 -> slotQuiet n1 n3 o1 o3.
Proof.
  intros H12 H23 Ha Hb.
  destruct o1 as [[s1 | t1 | e1 | c1 | i1 | k1 | f1 | g1] |]; simpl in *.
  - destruct o2 as [[] |]; try done; destruct o3 as [[] |]; done.
  - destruct o2 as [[] |]; try done; destruct o3 as [[] |]; done.
  - destruct Ha as (e2 & l & -> & Hf & Hc & Hl). simpl in Hb.
    destruct Hb as (e3 & l' & -> & Hf' & Hc' & Hl').
    exists e3, (l ++ l'). split; [done |]. split; [congruence |].
    split; [by rewrite Hc', Hc, app_assoc |].
    apply Forall_app. split;
      [apply (Forall_bounds_weaken n1 n2) | apply (Forall_bounds_weaken n2 n3)];
      done || lia.
  - destruct o2 as [[] |]; try done; destruct o3 as [[] |]; done.
  - destruct Ha as (i2 & -> & Hp). simpl in Hb. destruct Hb as (i3 & -> & Hp').
    exists i3. split; [done | congruence].
  - subst o2. exact Hb.
  - destruct o2 as [[] |]; try done; destruct o3 as [[] |]; done.
  - destruct o2 as [[] |]; try done; destruct o3 as [[] |]; done.
  - destruct o2 as [[s2 | t2 | e2 | c2 | i2 | k2 | f2 | g2] |]; simpl in *.
    + destruct o3 as [[] |]; done.
    + destruct o3 as [[] |]; done.
    + destruct Ha as [Hf Hl]. destruct Hb as (e3 & l' & -> & Hf' & Hc' & Hl').
      split; [congruence |]. rewrite Hc'.
      apply Forall_app. split;
        [apply (Forall_bounds_weaken n1 n2) | apply (Forall_bounds_weaken n2 n3)];
        done || lia.
    + destruct o3 as [[] |]; done.
    + destruct Hb as (i3 & -> & _). done.
    + by subst o3.
    + destruct o3 as [[] |]; done.
    + destruct o3 as [[] |]; done.
    + destruct o3 as [[s3 | t3 | e3 | c3 | i3 | k3 | f3 | g3] |]; try done.
      destruct Hb as [Hf Hl]. split; [done |].
      apply (Forall_bounds_weaken n2 n3); done || lia.
Qed.

Lemma quiet_trans db1 db2 db3 : quiet db1 db2 -> quiet db2 db3 -> quiet db1 db3.
Proof.
  intros [H12 Ha] [H23 Hb]. split; [lia |]. intros x.
  eapply slotQuiet_trans; [exact H12 | exact H23 | apply Ha | apply Hb].
Qed.

Lemma slotQuiet_same n n' o : slotQuiet n n' o o.
Proof.
  destruct o as [[] |]; simpl; eauto.
  eexists _, []. by rewrite app_nil_r.
Qed.

Lemma occurs_app x l l' : occurs x (l ++ l') = occurs x l + occurs x l'.
Proof. apply count_occ_app. Qed.

Lemma occurs_fresh x n n' l : x < n -> Forall (fun y => n <= y < n') l -> occurs x l = 0.
Proof.
  intros Hx Hl. apply count_occ_not_In. intros Hin.
  rewrite Forall_forall in Hl. apply list_elem_of_In, Hl in Hin. lia.
Qed.

Lemma occurs_unallocated x n l : Forall (fun y => y < n) l -> n <= x -> occurs x l = 0.
Proof.
  intros Hl Hx. apply count_occ_not_In. intros Hin.
  rewrite Forall_forall in Hl. apply list_elem_of_In, Hl in Hin. lia.
Qed.

Lemma occurs_singleton x : occurs x [x] = 1.
Proof. unfold occurs. simpl. by destruct (Nat.eq_dec x x). Qed.

Lemma occurs_other x y : x <> y -> occurs x [y] = 0.
Proof. intros H. unfold occurs. simpl. destruct (Nat.eq_dec y x); [congruence | done]. Qed.

Lemma allocatedIn_grow db db' l :
  length (heap db) <= length (heap db') -> allocatedIn db l -> allocatedIn db' l.
Proof. intros Hle H. eapply Forall_impl; [exact H |]. intros x. simpl. lia. Qed.

(** A quiet step keeps the invariant. *)
Lemma symmetric_quiet db db' : symmetric db -> quiet db db' -> symmetric db'.
Proof.
  intros [Halloc Hlinked] [Hlen Hslots]. split.
  - intros r e' He'. apply entityAt_heap in He'.
    specialize (Hslots r). rewrite He' in Hslots.
    destruct (heap db !! r) as [[s | t | e | c | i | k | f | g] |] eqn:E; simpl in Hslots;
      try done.
    + destruct Hslots as (e2 & l & [= <-] & Hf & Hc & Hl).
      destruct (Halloc r e) as [Ha Hb]; [unfold entityAt; by rewrite E |].
      rewrite Hf, Hc. split; [by eapply allocatedIn_grow |].
      apply Forall_app. split; [by eapply allocatedIn_grow |].
      eapply Forall_impl; [exact Hl |]. intros x. simpl. lia.
    + by destruct Hslots as (i' & [=] & _).
    + destruct Hslots as [-> Hl]. split; [apply Forall_nil_2 |].
      eapply Forall_impl; [exact Hl |]. intros x. simpl. lia.
  - intros f row table index cols u d m Hf.
    assert (heap db' !! f = Some (OConstraint (ForeignKey row table index cols u d m)))
      as Hf' by (unfold constraintAt in Hf; by destruct (heap db' !! f) as [[] |]; simplify_eq).
    pose proof (Hslots f) as Hslot. rewrite Hf' in Hslot.
    destruct (heap db !! f) as [[s | t | e | c | i | k | g | h] |] eqn:E; simpl in Hslot;
      try done.
    + by destruct Hslot as (? & ? & [=] & _).
    + by destruct Hslot as (? & [=] & _).
    + injection Hslot as <-.
      assert (f < length (heap db)) as Hflt by (by eapply lookup_lt_Some).
      destruct (Hlinked f row table index cols u d m) as (ix & r & t & Hix & Hr & Hto & Ht & Hcs);
        [unfold constraintAt; by rewrite E |].
      pose proof (Hslots index) as Hsi. rewrite (indexAt_heap _ _ _ Hix) in Hsi.
      destruct Hsi as (ix' & Hix' & Hparent).
      pose proof (Hslots (index_parent ix)) as Hsr. rewrite (entityAt_heap _ _ _ Hr) in Hsr.
      destruct Hsr as (r' & lr & Hr' & Hrf & _).
      pose proof (Hslots table) as Hst. rewrite (entityAt_heap _ _ _ Ht) in Hst.
      destruct Hst as (t' & lt & Ht' & _ & Htc & Hlt).
      exists ix', r', t'. unfold indexAt, entityAt.
      rewrite Hix', Hparent, Hr', Ht', Hrf, Htc. repeat split; try done.
      rewrite occurs_app, Hcs. by erewrite occurs_fresh.
Qed.

(** A step of the assembler that is quiet. *)
Definition quietStep {A} (m : M A) : Prop :=
  forall db a db', m db = Ok (a, db') -> quiet db db'.

Lemma quietStep_ret {A} (a : A) : quietStep (ret a).
Proof. intros db a' db' [= _ <-]. apply quiet_refl. Qed.

Lemma quietStep_mret {A} (a : A) : quietStep (mret a : M A).
Proof. apply quietStep_ret. Qed.

Lemma quietStep_throw {A} e : quietStep (throw e : M A).
Proof. by intros db a db' H. Qed.

Lemma quietStep_read {A} (f : Db -> A) : quietStep (read f).
Proof. intros db a db' [= _ <-]. apply quiet_refl. Qed.

Lemma quietStep_get k collection key : quietStep (get k collection key).
Proof.
  intros db a db' H. unfold get in H.
  destruct (getMaybe k (collection db) key db); [| done].
  injection H as _ <-. apply quiet_refl.
Qed.

Lemma quietStep_bind {A B} (m : M A) (k : A -> M B) :
  quietStep m -> (forall a, quietStep (k a)) -> quietStep (bind m k).
Proof.
  intros Hm Hk db b db' H. unfold bind in H.
  destruct (m db) as [[a db1] | e] eqn:E; [| done].
  eapply quiet_trans; [by eapply Hm | by eapply Hk].
Qed.

Lemma quietStep_mbind {A B} (m : M A) (k : A -> M B) :
  quietStep m -> (forall a, quietStep (k a)) -> quietStep (m ≫= k).
Proof. apply quietStep_bind. Qed.

Lemma quietStep_forEach {A} (f : A -> M unit) rows :
  (forall row, quietStep (f row)) -> quietStep (forEach f rows).
Proof.
  intros Hf. induction rows as [| row rest IH]; simpl.
  - apply quietStep_ret.
  - apply quietStep_bind; [apply Hf | by intros _].
Qed.

Lemma quietStep_pushDbSchemas x : quietStep (pushDbSchemas x).
Proof. intros db a db' [= _ <-]. split; [done |]. intros y. apply slotQuiet_same. Qed.

Lemma quietStep_pushDbSystemSchemas x : quietStep (pushDbSystemSchemas x).
Proof. intros db a db' [= _ <-]. split; [done |]. intros y. apply slotQuiet_same. Qed.

Lemma quietStep_typeSchema oid : quietStep (typeSchema oid).
Proof.
  intros db a db' H. unfold typeSchema in H.
  destruct (getMaybe KOid (systemSchemas db) oid db).
  - injection H as _ <-. apply quiet_refl.
  - by eapply quietStep_get.
Qed.

(** What a new object must be for its allocation to be quiet. *)
Definition quietObject (o : Obj) : Prop :=
  match o with
  | OConstraint c => isForeignKey c = false
  | OEntity e => foreignKeysToThis e = [] /\ constraints e = []
  | _ => True
  end.

Lemma quiet_append db o : quietObject o -> quiet db (set_heap db (heap db ++ [o])).
Proof.
  intros Ho. split; simpl; [rewrite length_app; lia |]. intros x.
  destruct (decide (x < length (heap db))) as [Hlt | Hge].
  - rewrite lookup_app_l by done. apply slotQuiet_same.
  - rewrite (proj2 (lookup_ge_None (heap db) x)) by lia.
    destruct (decide (x = length (heap db))) as [-> | Hne].
    + rewrite lookup_app_r, Nat.sub_diag by done. simpl.
      destruct o; try done. destruct Ho as [-> ->]. by split.
    + rewrite (proj2 (lookup_ge_None _ x)); [done |]. rewrite length_app. simpl. lia.
Qed.

Lemma quietStep_new o : quietObject o -> quietStep (new o).
Proof. intros Ho db a db' [= _ <-]. by apply quiet_append. Qed.

(** An in-place update is quiet when it is so on the object. *)
Lemma quietStep_mutate what r f :
  (forall n o o', f o = Some o' -> slotQuiet n n (Some o) (Some o')) ->
  quietStep (mutate what r f).
Proof.
  intros Hf db a db' H. unfold mutate in H.
  destruct (heap db !! r) as [o |] eqn:E; [| done]. simpl in H.
  destruct (f o) as [o' |] eqn:Ef; [| done]. simplify_eq.
  split; cbn [heap set_heap]; [by rewrite length_insert |]. intros x. rewrite length_insert.
  destruct (decide (x = r)) as [-> | Hne].
  - rewrite list_lookup_insert_eq by (by eapply lookup_lt_Some). rewrite E. by apply Hf.
  - rewrite list_lookup_insert_ne by done. apply slotQuiet_same.
Qed.

Create HintDb quiet_steps.
#[local] Hint Resolve quietStep_ret quietStep_mret quietStep_throw quietStep_read
  quietStep_get quietStep_pushDbSchemas quietStep_pushDbSystemSchemas
  quietStep_typeSchema : quiet_steps.

Lemma quietStep_pushToSchema c schema x : quietStep (pushToSchema c schema x).
Proof.
  apply quietStep_mutate. intros n o o' H. by destruct o; simplify_eq.
Qed.

Lemma slotQuiet_entity_push c x e n :
  c <> Constraints -> c <> ForeignKeysToThis ->
  slotQuiet n n (Some (OEntity e)) (Some (OEntity (entity_push c x e))).
Proof.
  intros H1 H2. exists (entity_push c x e), []. rewrite app_nil_r.
  by destruct c.
Qed.

Lemma quietStep_pushToEntity c entity x :
  c <> Constraints -> c <> ForeignKeysToThis -> quietStep (pushToEntity c entity x).
Proof.
  intros H1 H2. apply quietStep_mutate. intros n o o' H.
  destruct o; try done. destruct (entity_owns _ _); [| done].
  injection H as <-. by apply slotQuiet_entity_push.
Qed.

Lemma quietStep_pushColumn parent x : quietStep (pushColumn parent x).
Proof.
  apply quietStep_mutate. intros n o o' H. destruct o; try done.
  - simpl in H. destruct (type_kind t); by simplify_eq.
  - injection H as <-. by apply slotQuiet_entity_push.
Qed.

Lemma quietStep_pushColumnOrExpression index x :
  quietStep (pushColumnOrExpression index x).
Proof.
  apply quietStep_mutate. intros n o o' H. destruct o; try done.
  injection H as <-. by eexists.
Qed.

Lemma quietStep_pushCheckConstraint domain x :
  quietStep (mutate "checkConstraints" domain (type_push_checkConstraint x)).
Proof.
  apply quietStep_mutate. intros n o o' H. destruct o; try done.
  simpl in H. destruct (type_kind t); by simplify_eq.
Qed.

Lemma quietStep_eachPosition index parent positions :
  forall indexExpressions, quietStep (eachPosition index parent positions indexExpressions).
Proof.
  induction positions as [| p rest IH]; intros es; simpl.
  - apply quietStep_ret.
  - case_bool_decide; [| destruct es];
      repeat first [ apply quietStep_mbind; [| intros]
                   | apply quietStep_read
                   | apply quietStep_pushColumnOrExpression
                   | apply IH ].
Qed.

(** A constraint that is no foreign key, allocated and pushed onto the
    [constraints] of its table. *)
Lemma quietStep_addTableConstraint table c :
  isForeignKey c = false -> quietStep (addTableConstraint table c).
Proof.
  intros Hc db [] db' H. unfold addTableConstraint in H.
  change (pushToEntity Constraints table (length (heap db))
            (set_heap db (heap db ++ [OConstraint c])) = Ok (tt, db')) in H.
  unfold pushToEntity, mutate in H. cbn [heap set_heap] in H.
  destruct ((heap db ++ [OConstraint c]) !! table) as [o |] eqn:E; [| done].
  cbn [mbind option_bind] in H. destruct o as [| | e | | | | |]; try done.
  destruct (entity_owns (entity_kind e) Constraints); [| done]. simplify_eq.
  assert (table < length (heap db)) as Hlt.
  { apply lookup_lt_Some in E as Hlt. rewrite length_app in Hlt. simpl in Hlt.
    destruct (decide (table = length (heap db))) as [-> | Hne]; [| lia].
    by rewrite lookup_app_r, Nat.sub_diag in E. }
  rewrite lookup_app_l in E by done.
  split; cbn [heap set_heap]; rewrite length_insert, length_app; simpl; [lia |].
  intros x. destruct (decide (x = table)) as [-> | Hne].
  - rewrite list_lookup_insert_eq by (rewrite length_app; lia). rewrite E.
    eexists _, [length (heap db)]. repeat split. apply Forall_singleton. lia.
  - rewrite list_lookup_insert_ne by done.
    destruct (decide (x < length (heap db))) as [Hx | Hx].
    + rewrite lookup_app_l by done. apply slotQuiet_same.
    + rewrite (proj2 (lookup_ge_None (heap db) x)) by lia.
      destruct (decide (x = length (heap db))) as [-> | Hne'].
      * by rewrite lookup_app_r, Nat.sub_diag.
      * rewrite (proj2 (lookup_ge_None _ x)); [done |]. rewrite length_app. simpl. lia.
Qed.

#[local] Hint Resolve quietStep_pushToSchema quietStep_pushColumn
  quietStep_pushColumnOrExpression quietStep_pushCheckConstraint
  quietStep_eachPosition : quiet_steps.

(** Walks a function body that allocates quiet objects and pushes
    outside [constraints] and [foreignKeysToThis]. *)
Ltac quiet_steps :=
  repeat first
    [ progress intros
    | apply quietStep_mbind
    | apply quietStep_bind
    | apply quietStep_forEach
    | solve [auto with quiet_steps]
    | solve [apply quietStep_new; simpl; auto]
    | solve [apply quietStep_pushToEntity; discriminate]
    | solve [apply quietStep_addTableConstraint; reflexivity]
    | case_bool_decide
    | match goal with
      | |- quietStep (match ?x with _ => _ end) => destruct x
      | |- quietStep (if ?b then _ else _) => destruct b
      end ].

Lemma quietStep_addSchemas rows : quietStep (addSchemas rows).
Proof. unfold addSchemas, addSchema. quiet_steps. Qed.

Lemma quietStep_addSystemSchemas rows : quietStep (addSystemSchemas rows).
Proof. unfold addSystemSchemas, addSystemSchema. quiet_steps. Qed.

Lemma quietStep_addTypes rows : quietStep (addTypes rows).
Proof. unfold addTypes, addType. quiet_steps. Qed.

Lemma quietStep_addEntities rows : quietStep (addEntities rows).
Proof. unfold addEntities, addEntity, newEntity. quiet_steps. Qed.

Lemma quietStep_addColumns rows : quietStep (addColumns rows).
Proof. unfold addColumns, addColumn. quiet_steps. Qed.

Lemma quietStep_addIndexes rows : quietStep (addIndexes rows).
Proof. unfold addIndexes, addIndex. quiet_steps. Qed.

Lemma quietStep_addFunctions rows : quietStep (addFunctions rows).
Proof. unfold addFunctions, addFunction, newFunction. quiet_steps. Qed.

Lemma quietStep_addTriggers rows : quietStep (addTriggers rows).
Proof. unfold addTriggers, addTrigger. quiet_steps. Qed.

(** *** The foreign-key step *)

Definition keepsSymmetric {A} (m : M A) : Prop :=
  forall db a db', symmetric db -> m db = Ok (a, db') -> symmetric db'.

Lemma keepsSymmetric_quiet {A} (m : M A) : quietStep m -> keepsSymmetric m.
Proof. intros Hm db a db' Hs H. eapply symmetric_quiet; [exact Hs | by eapply Hm]. Qed.

Lemma keepsSymmetric_bind {A B} (m : M A) (k : A -> M B) :
  keepsSymmetric m -> (forall a, keepsSymmetric (k a)) -> keepsSymmetric (m ≫= k).
Proof.
  intros Hm Hk db b db' Hs H. unfold mbind, M_bind, bind in H.
  destruct (m db) as [[a db1] | e] eqn:E; [| done].
  eapply Hk; [| exact H]. by eapply Hm.
Qed.

Lemma keepsSymmetric_forEach {A} (f : A -> M unit) rows :
  (forall row, keepsSymmetric (f row)) -> keepsSymmetric (forEach f rows).
Proof.
  intros Hf. induction rows as [| row rest IH]; simpl.
  - apply keepsSymmetric_quiet, quietStep_ret.
  - apply (keepsSymmetric_bind (f row) (fun _ => forEach f rest)); [apply Hf | by intros _].
Qed.

Lemma mbind_inv {A B} (m : M A) (k : A -> M B) db b db' :
  (m ≫= k) db = Ok (b, db') ->
  exists a db1, m db = Ok (a, db1) /\ k a db1 = Ok (b, db').
Proof.
  unfold mbind, M_bind, bind. destruct (m db) as [[a db1] | e]; [| done].
  intros H. by exists a, db1.
Qed.

Lemma mapM_get_state k collection keys : forall cols db db',
  mapM (get k collection) keys db = Ok (cols, db') -> db' = db.
Proof.
  induction keys as [| key keys IH]; intros cols db db' H; simpl in H.
  - by injection H as _ <-.
  - unfold bind, get at 1 in H.
    destruct (getMaybe k (collection db) key db); [| done].
    destruct (mapM (get k collection) keys db) as [[ys db1] | e] eqn:E; [| done].
    injection H as _ <-. by eapply IH.
Qed.

Lemma pushToEntity_inv c entity x db db' :
  pushToEntity c entity x db = Ok (tt, db') ->
  exists e, heap db !! entity = Some (OEntity e)
            /\ db' = set_heap db (<[entity := OEntity (entity_push c x e)]> (heap db)).
Proof.
  unfold pushToEntity, mutate. destruct (heap db !! entity) as [o |]; [| done].
  cbn [mbind option_bind]. destruct o as [| | e | | | | |]; try done.
  destruct (entity_owns (entity_kind e) c); [| done]. intros H. simplify_eq. by exists e.
Qed.

(** The heap after a foreign key was allocated at [fk] and pushed onto
    the [constraints] of [table] and the [foreignKeysToThis] of [R]. *)
Definition afterForeignKey (h : list Obj) (c : Constraint) (table R : nat) (x : nat)
  : option Obj :=
  match h !! x with
  | Some (OEntity e) =>
      Some (OEntity
              ((if decide (x = R) then entity_push ForeignKeysToThis (length h) else id)
                 ((if decide (x = table) then entity_push Constraints (length h) else id) e)))
  | Some o => Some o
  | None => if decide (x = length h) then Some (OConstraint c) else None
  end.

Lemma lookup_snoc_old (h : list Obj) (c : Constraint) x e :
  (h ++ [OConstraint c]) !! x = Some (OEntity e) -> h !! x = Some (OEntity e).
Proof.
  intros H. destruct (decide (x < length h)) as [Hlt | Hge].
  - by rewrite lookup_app_l in H.
  - destruct (decide (x = length h)) as [-> | Hne].
    + by rewrite lookup_app_r, Nat.sub_diag in H.
    + rewrite (proj2 (lookup_ge_None _ x)) in H; [done |]. rewrite length_app. simpl. lia.
Qed.

Lemma afterForeignKey_heap h c table R t r2 :
  h !! table = Some (OEntity t) ->
  (<[table := OEntity (entity_push Constraints (length h) t)]> (h ++ [OConstraint c])) !! R
  = Some (OEntity r2) ->
  forall x,
    (<[R := OEntity (entity_push ForeignKeysToThis (length h) r2)]>
       (<[table := OEntity (entity_push Constraints (length h) t)]> (h ++ [OConstraint c])))
      !! x
    = afterForeignKey h c table R x.
Proof.
  intros Ht Hr2 x. unfold afterForeignKey.
  assert (table < length h) as Htlt by (by eapply lookup_lt_Some).
  assert (length (<[table := OEntity (entity_push Constraints (length h) t)]>
                    (h ++ [OConstraint c])) = S (length h)) as Hlen
      by (rewrite length_insert, length_app; simpl; lia).
  assert (R < length h /\ exists r, h !! R = Some (OEntity r)
                                   /\ r2 = (if decide (R = table)
                                            then entity_push Constraints (length h) else id) r)
    as (HRlt & r & Hr & Hr2eq).
  { destruct (decide (R = table)) as [-> | Hne].
    - split; [done |]. exists t. split; [done |].
      rewrite list_lookup_insert_eq in Hr2 by (rewrite length_app; lia). by injection Hr2.
    - rewrite list_lookup_insert_ne in Hr2 by done.
      apply lookup_snoc_old in Hr2 as Hr. split; [by eapply lookup_lt_Some |]. by exists r2. }
  destruct (decide (x = R)) as [-> | HxR].
  - rewrite list_lookup_insert_eq by lia. rewrite Hr, Hr2eq. cbv beta iota.
    by repeat case_decide.
  - rewrite list_lookup_insert_ne by done.
    destruct (decide (x = table)) as [-> | Hxt].
    + rewrite list_lookup_insert_eq by (rewrite length_app; lia). rewrite Ht.
      cbv beta iota. by repeat case_decide.
    + rewrite list_lookup_insert_ne by done.
      destruct (decide (x < length h)) as [Hlt | Hge].
      * rewrite lookup_app_l by done.
        destruct (h !! x) as [[] |] eqn:E; try done;
          try (by repeat case_decide); apply lookup_ge_None in E; lia.
      * rewrite (proj2 (lookup_ge_None h x)) by lia.
        destruct (decide (x = length h)) as [-> | Hne].
        -- by rewrite lookup_app_r, Nat.sub_diag.
        -- apply lookup_ge_None. rewrite length_app. simpl. lia.
Qed.

Definition pushedForeignKey (table R n x : nat) (e : Entity) : Entity :=
  (if decide (x = R) then entity_push ForeignKeysToThis n else id)
    ((if decide (x = table) then entity_push Constraints n else id) e).

Lemma pushedForeignKey_lists table R n x e :
  foreignKeysToThis (pushedForeignKey table R n x e)
  = foreignKeysToThis e ++ (if decide (x = R) then [n] else [])
  /\ constraints (pushedForeignKey table R n x e)
     = constraints e ++ (if decide (x = table) then [n] else []).
Proof. unfold pushedForeignKey. repeat case_decide; simpl; by rewrite ?app_nil_r. Qed.

Lemma afterForeignKey_entity h c table R x e :
  h !! x = Some (OEntity e) ->
  afterForeignKey h c table R x = Some (OEntity (pushedForeignKey table R (length h) x e)).
Proof. intros H. unfold afterForeignKey. by rewrite H. Qed.

Lemma afterForeignKey_entity_inv h c table R x e' :
  afterForeignKey h c table R x = Some (OEntity e') ->
  exists e, h !! x = Some (OEntity e) /\ e' = pushedForeignKey table R (length h) x e.
Proof.
  unfold afterForeignKey. destruct (h !! x) as [[] |]; try done.
  - intros [= <-]. by eexists.
  - by case_decide.
Qed.

Lemma afterForeignKey_index h c table R x ix :
  h !! x = Some (OIndex ix) -> afterForeignKey h c table R x = Some (OIndex ix).
Proof. intros H. unfold afterForeignKey. by rewrite H. Qed.

Lemma afterForeignKey_constraint_inv h c table R x c' :
  afterForeignKey h c table R x = Some (OConstraint c') ->
  (h !! x = Some (OConstraint c') /\ x < length h) \/ (x = length h /\ c' = c).
Proof.
  unfold afterForeignKey. destruct (h !! x) as [[] |] eqn:E; try done.
  - intros [= <-]. left. split; [done |]. by eapply lookup_lt_Some.
  - case_decide; [| done]. intros [= <-]. by right.
Qed.

Lemma occurs_pushed x n l (P : Prop) `{Decision P} :
  x <> n -> occurs x (l ++ (if decide P then [n] else [])) = occurs x l.
Proof.
  intros Hx. rewrite occurs_app. case_decide.
  - rewrite occurs_other by done. lia.
  - unfold occurs. simpl. lia.
Qed.

(** The foreign-key step keeps the invariant. *)
Lemma symmetric_foreignKey db db' row table index cols u d m ix t r :
  symmetric db ->
  indexAt db index = Some ix ->
  entityAt db table = Some t ->
  entityAt db (index_parent ix) = Some r ->
  length (heap db') = S (length (heap db)) ->
  (forall x, heap db' !! x
             = afterForeignKey (heap db) (ForeignKey row table index cols u d m)
                               table (index_parent ix) x) ->
  symmetric db'.
Proof.
  intros [Halloc Hlinked] Hix Ht Hr Hlen Hshape.
  assert (forall x e, entityAt db x = Some e ->
            entityAt db' x
            = Some (pushedForeignKey table (index_parent ix) (length (heap db)) x e))
    as Hentity.
  { intros x e He. unfold entityAt. rewrite Hshape.
    by erewrite afterForeignKey_entity by (by apply entityAt_heap). }
  assert (forall x i, indexAt db x = Some i -> indexAt db' x = Some i) as Hindex.
  { intros x i Hi. unfold indexAt. rewrite Hshape.
    by erewrite afterForeignKey_index by (by apply indexAt_heap). }
  split.
  - intros x e' He'. apply entityAt_heap in He'. rewrite Hshape in He'.
    apply afterForeignKey_entity_inv in He' as (e & He & ->).
    destruct (pushedForeignKey_lists table (index_parent ix) (length (heap db)) x e)
      as [-> ->].
    destruct (Halloc x e) as [Ha Hb]; [unfold entityAt; by rewrite He |].
    unfold allocatedIn in *. rewrite Hlen.
    split; apply Forall_app; split;
      try (eapply Forall_impl; [eassumption |]; intros y; simpl; lia);
      case_decide; try apply Forall_nil_2; apply Forall_singleton; lia.
  - intros f row' table' index' cols' u' d' m' Hf.
    assert (heap db' !! f
            = Some (OConstraint (ForeignKey row' table' index' cols' u' d' m'))) as Hf'
        by (unfold constraintAt in Hf; by destruct (heap db' !! f) as [[] |]; simplify_eq).
    rewrite Hshape in Hf'.
    apply afterForeignKey_constraint_inv in Hf' as [[Hold Hlt] | [-> Hnew]].
    + destruct (Hlinked f row' table' index' cols' u' d' m')
        as (ix' & r' & t' & Hix' & Hr' & Hto & Ht' & Hcs);
        [unfold constraintAt; by rewrite Hold |].
      eexists ix', _, _. split; [by apply Hindex |].
      split; [by apply Hentity |]. split; [| split; [by apply Hentity |]].
      * destruct (pushedForeignKey_lists table (index_parent ix) (length (heap db))
                                         (index_parent ix') r') as [-> _].
        rewrite <- Hto. apply occurs_pushed. lia.
      * destruct (pushedForeignKey_lists table (index_parent ix) (length (heap db))
                                         table' t') as [_ ->].
        rewrite <- Hcs. apply occurs_pushed. lia.
    + injection Hnew as -> -> -> -> -> -> ->.
      eexists ix, _, _. split; [by apply Hindex |].
      split; [by apply Hentity |]. split; [| split; [by apply Hentity |]].
      * destruct (pushedForeignKey_lists table (index_parent ix) (length (heap db))
                                         (index_parent ix) r) as [-> _].
        rewrite decide_True by done. rewrite occurs_app, occurs_singleton.
        destruct (Halloc _ _ Hr) as [Ha _].
        by rewrite (occurs_unallocated _ (length (heap db)) _ Ha).
      * destruct (pushedForeignKey_lists table (index_parent ix) (length (heap db))
                                         table t) as [_ ->].
        rewrite decide_True by done. rewrite occurs_app, occurs_singleton.
        destruct (Halloc _ _ Ht) as [_ Hb].
        by rewrite (occurs_unallocated _ (length (heap db)) _ Hb).
Qed.

Lemma lookup_snoc_index (h : list Obj) (c : Constraint) x ix :
  (h ++ [OConstraint c]) !! x = Some (OIndex ix) -> h !! x = Some (OIndex ix).
Proof.
  intros H. destruct (decide (x < length h)) as [Hlt | Hge].
  - by rewrite lookup_app_l in H.
  - destruct (decide (x = length h)) as [-> | Hne].
    + by rewrite lookup_app_r, Nat.sub_diag in H.
    + rewrite (proj2 (lookup_ge_None _ x)) in H; [done |]. rewrite length_app. simpl. lia.
Qed.

Lemma keepsSymmetric_addForeignKey row table index :
  keepsSymmetric (addForeignKey row table index).
Proof.
  intros db [] db' Hs H. destruct index as [index |];
    [| injection H as <-; exact Hs].
  unfold addForeignKey in H.
  apply mbind_inv in H as (cols & db0 & Hcols & H). apply mapM_get_state in Hcols as ->.
  apply mbind_inv in H as (fk & db1 & Hnew & H). injection Hnew as <- <-.
  apply mbind_inv in H as ([] & db2 & Hpush & H).
  apply pushToEntity_inv in Hpush as (t & Ht1 & ->). cbn [heap set_heap] in Ht1.
  apply lookup_snoc_old in Ht1 as Ht.
  assert (table < length (heap db)) as Htlt by (by eapply lookup_lt_Some).
  apply mbind_inv in H as (R & db3 & HR & H). unfold referencedTable in HR.
  destruct (indexAt _ index) as [ix |] eqn:Eix; [| done]. injection HR as <- <-.
  apply pushToEntity_inv in H as (r2 & Hr2 & ->). cbn [heap set_heap] in Hr2.
  apply indexAt_heap in Eix. cbn [heap set_heap] in Eix.
  assert (index <> table) as Hne.
  { intros ->. rewrite list_lookup_insert_eq in Eix by (rewrite length_app; lia). done. }
  rewrite list_lookup_insert_ne in Eix by done. apply lookup_snoc_index in Eix.
  assert (exists r, heap db !! index_parent ix = Some (OEntity r)) as [r Hr].
  { destruct (decide (index_parent ix = table)) as [-> | HRt]; [by exists t |].
    rewrite list_lookup_insert_ne in Hr2 by done. apply lookup_snoc_old in Hr2. by exists r2. }
  eapply (symmetric_foreignKey db _ row table index cols _ _ _ ix t r Hs).
  - unfold indexAt. by rewrite Eix.
  - unfold entityAt. by rewrite Ht.
  - unfold entityAt. by rewrite Hr.
  - cbn [heap set_heap]. rewrite !length_insert, length_app. simpl. lia.
  - cbn [heap set_heap]. by apply afterForeignKey_heap.
Qed.

Lemma keepsSymmetric_addConstraint row : keepsSymmetric (addConstraint row).
Proof.
  intros db [] db' Hs H. rewrite addConstraint_unfold in H.
  destruct (resolveTable row db) as [table |].
  - do 4 (case_bool_decide;
          [by eapply keepsSymmetric_quiet;
             [apply quietStep_addTableConstraint | exact Hs | exact H] |]).
    case_bool_decide; [by eapply keepsSymmetric_addForeignKey | by injection H as <-].
  - destruct (resolveDomain row db) as [domain |]; [| by injection H as <-].
    case_bool_decide; [| by injection H as <-].
    eapply keepsSymmetric_quiet; [| exact Hs | exact H]. quiet_steps.
Qed.

Lemma keepsSymmetric_addObjects queryResults : keepsSymmetric (addObjects queryResults).
Proof.
  unfold addObjects.
  repeat (apply keepsSymmetric_bind; [| intros _]).
  - apply keepsSymmetric_quiet, quietStep_addSchemas.
  - apply keepsSymmetric_quiet, quietStep_addSystemSchemas.
  - apply keepsSymmetric_quiet, quietStep_addTypes.
  - apply keepsSymmetric_quiet, quietStep_addEntities.
  - apply keepsSymmetric_quiet, quietStep_addColumns.
  - apply keepsSymmetric_quiet, quietStep_addIndexes.
  - apply keepsSymmetric_forEach, keepsSymmetric_addConstraint.
  - apply keepsSymmetric_quiet, quietStep_addFunctions.
  - apply keepsSymmetric_quiet, quietStep_addTriggers.
Qed.

Lemma symmetric_newDb i : symmetric (newDb i).
Proof. split; intros; unfold entityAt, constraintAt in *; simpl in *; done. Qed.

(** Foreign-key symmetry: in every graph that the nine phases assemble
    over a new [Db], each foreign key [f] of a table pointing to a
    table [R] (the table of its index) occurs exactly once in
    [R.foreignKeysToThis] and exactly once in the [constraints] of its
    own table. *)
Lemma assembled_foreignKey_symmetry queryResults i D f row table index cols u d m :
  addObjects queryResults (newDb i) = Ok (tt, D) ->
  constraintAt D f = Some (ForeignKey row table index cols u d m) ->
  exists ix R T,
    indexAt D index = Some ix
    /\ entityAt D (index_parent ix) = Some R
    /\ occurs f (foreignKeysToThis R) = 1
    /\ entityAt D table = Some T
    /\ occurs f (constraints T) = 1.
Proof.
  intros Hrun Hf.
  pose proof (keepsSymmetric_addObjects queryResults _ _ _ (symmetric_newDb i) Hrun) as Hs.
  exact (sym_linked _ Hs _ _ _ _ _ _ _ _ Hf).
Qed.

(** Every state the assembler reaches lists allocated objects only. *)
Lemma assembled_allocated queryResults i D r e :
  addObjects queryResults (newDb i) = Ok (tt, D) ->
  entityAt D r = Some e ->
  Forall (fun x => x < length (heap D)) (foreignKeysToThis e).
Proof.
  intros Hrun He.
  pose proof (keepsSymmetric_addObjects queryResults _ _ _ (symmetric_newDb i) Hrun) as Hs.
  exact (proj1 (sym_allocated _ Hs _ _ He)).
Qed.

(** The six phases before the constraints, and then any number of
    constraint rows, lead to a state that satisfies the invariant: in
    particular the reference about to be allocated occurs in no
    [foreignKeysToThis]. *)
Lemma constraint_phase_symmetric queryResults i db0 rows db :
  (addSchemas (schemaRows queryResults);;
   addSystemSchemas (systemSchemaRows queryResults);;
   addTypes (typeRows queryResults);;
   addEntities (entityRows queryResults);;
   addColumns (columnRows queryResults);;
   addIndexes (indexRows queryResults)) (newDb i) = Ok (tt, db0) ->
  forEach addConstraint rows db0 = Ok (tt, db) ->
  symmetric db
  /\ forall r e, entityAt db r = Some e ->
                 Forall (fun x => x < length (heap db)) (foreignKeysToThis e).
Proof.
  intros Hbefore Hrows.
  assert (symmetric db0) as Hs0.
  { assert (keepsSymmetric
              (addSchemas (schemaRows queryResults);;
               addSystemSchemas (systemSchemaRows queryResults);;
               addTypes (typeRows queryResults);;
               addEntities (entityRows queryResults);;
               addColumns (columnRows queryResults);;
               addIndexes (indexRows queryResults))) as Hkeeps.
    { repeat (apply keepsSymmetric_bind; [| intros _]); apply keepsSymmetric_quiet;
        auto using quietStep_addSchemas, quietStep_addSystemSchemas, quietStep_addTypes,
          quietStep_addEntities, quietStep_addColumns, quietStep_addIndexes. }
    exact (Hkeeps _ _ _ (symmetric_newDb i) Hbefore). }
  assert (symmetric db) as Hs
      by exact (keepsSymmetric_forEach _ rows keepsSymmetric_addConstraint _ _ _ Hs0 Hrows).
  split; [exact Hs |]. intros r e He. exact (proj1 (sym_allocated _ Hs _ _ He)).
Qed.

End SymmetryFacts.

(** ** A small catalog: two tables, an expression index, a foreign key, a domain *)

Module Scenario.
Import Catalog Assembler AssemblerFacts.
Local Open Scope Z_scope.

Definition publicRow : SchemaRow :=
  {| s_oid := 2200; s_name := "public"; s_comment := None |}.
Definition pgCatalogRow : SchemaRow :=
  {| s_oid := 11; s_name := "pg_catalog"; s_comment := None |}.

Definition int4Row : TypeRow :=
  {| t_oid := 23; t_classOid := 0; t_schemaOid := 11; t_kind := "b";
     t_name := "int4"; t_sqlType := None |}.
Definition emailRow : TypeRow :=
  {| t_oid := 500; t_classOid := 0; t_schemaOid := 2200; t_kind := "d";
     t_name := "email"; t_sqlType := Some "text" |}.

Definition accountRow : EntityRow :=
  {| e_oid := 100; e_schemaOid := 2200; e_kind := "r"; e_name := "account" |}.
Definition orderRow : EntityRow :=
  {| e_oid := 200; e_schemaOid := 2200; e_kind := "r"; e_name := "order" |}.

Definition column (parent number : Z) (n : string) : ColumnRow :=
  {| c_parentKind := "r"; c_parentOid := parent; c_attributeNumber := number; c_name := n |}.

Definition accountPkeyIndex : IndexRow :=
  {| i_oid := 101; i_tableOid := 100; i_name := "account_pkey";
     i_columnPositions := [1]; i_indexExpressions := [] |}.
Definition orderNoteIndex : IndexRow :=
  {| i_oid := 201; i_tableOid := 200; i_name := "order_note_idx";
     i_columnPositions := [2; 0; 1; 0];
     i_indexExpressions := ["lower(note)"; "upper(note)"] |}.

Definition constraintRow (table index type : Z) (kind : ascii) (n : string)
           (positions : list Z) (onUpdate onDelete matchType : ascii) : ConstraintRow :=
  {| k_tableOid := table; k_indexOid := index; k_typeOid := type; k_kind := kind;
     k_name := n; k_checkConstraintExpression := None;
     k_constrainedColumnPositions := positions;
     k_onUpdate := onUpdate; k_onDelete := onDelete; k_matchType := matchType |}.

Definition accountPkey : ConstraintRow :=
  constraintRow 100 101 0 "p" "account_pkey" [1] " " " " " ".
Definition orderAccountFk : ConstraintRow :=
  constraintRow 200 101 0 "f" "order_account_fk" [2] "a" "c" "s".
(** A foreign key to an index of a schema that was filtered out. *)
Definition orderHiddenFk : ConstraintRow :=
  constraintRow 200 999 0 "f" "order_hidden_fk" [2] "a" "d" "s".
Definition emailCheck : ConstraintRow :=
  {| k_tableOid := 0; k_indexOid := 0; k_typeOid := 500; k_kind := "c";
     k_name := "email_check"; k_checkConstraintExpression := Some "VALUE ~ '@'";
     k_constrainedColumnPositions := [];
     k_onUpdate := " "; k_onDelete := " "; k_matchType := " " |}.
(** A primary key of a table that is not loaded. *)
Definition strayPkey : ConstraintRow :=
  constraintRow 777 778 0 "p" "stray_pkey" [1] " " " " " ".

Definition sampleResults : QueryResults :=
  {| schemaRows := [publicRow];
     systemSchemaRows := [pgCatalogRow];
     typeRows := [int4Row; emailRow];
     entityRows := [accountRow; orderRow];
     columnRows := [column 100 1 "id"; column 200 1 "id"; column 200 2 "account_id"];
     indexRows := [accountPkeyIndex; orderNoteIndex];
     constraintRows := [accountPkey; orderHiddenFk; orderAccountFk; emailCheck; strayPkey];
     functionRows := [];
     triggerRows := [] |}.

Definition sampleConfig : Config :=
  {| commentDataToken := "pg-structure"; relationNameFunctions := ByName "short";
     foreignKeyAliasSeparator := ","; foreignKeyAliasTargetFirst := false |}.

Definition sampleInfo : DbInfo :=
  {| name := "shop"; serverVersion := "14.2"; config := sampleConfig;
     queryResults := sampleResults; namingFunctions := ByName "short" |}.

(** The state a phase leaves behind, or the untouched input when it threw. *)
Definition after (m : M unit) (db : Db) : Db :=
  match m db with Ok (_, db') => db' | Throw _ => db end.

Definition withSchemas : Db :=
  Eval vm_compute in
    after (addSchemas [publicRow];; addSystemSchemas [pgCatalogRow]) (newDb sampleInfo).

Definition withColumns : Db :=
  Eval vm_compute in
    after (addTypes (typeRows sampleResults);; addEntities (entityRows sampleResults);;
           addColumns (columnRows sampleResults)) withSchemas.

Definition withIndexes : Db :=
  Eval vm_compute in after (addIndexes (indexRows sampleResults)) withColumns.

Example sample_assembles :
  exists db, addObjects sampleResults (newDb sampleInfo) = Ok (tt, db)
             /\ length (heap db) = 14%nat.
Proof. eexists. split; vm_compute; reflexivity. Qed.

Example order_index_slots :
  (columnsAndExpressions <$> indexAt withIndexes 10%nat)
  = Some [IsColumn 8%nat; IsExpression "lower(note)"; IsColumn 7%nat;
          IsExpression "upper(note)"].
Proof. reflexivity. Qed.

(** A type of a schema that was not loaded. *)
Definition orphanRow : TypeRow :=
  {| t_oid := 600; t_classOid := 0; t_schemaOid := 4242; t_kind := "e";
     t_name := "mood"; t_sqlType := None |}.

Lemma addType_schema_resolution_witness :
  (typeKinds (t_kind int4Row) = Some BaseType
   /\ getMaybe KOid (systemSchemas withSchemas) (t_schemaOid int4Row) withSchemas = Some 1%nat
   /\ addType int4Row withSchemas
      = Ok (tt, typeAdded int4Row BaseType 1%nat (emptySchema pgCatalogRow) withSchemas))
  /\ (typeKinds (t_kind emailRow) = Some Domain
      /\ getMaybe KOid (systemSchemas withSchemas) (t_schemaOid emailRow) withSchemas = None
      /\ getMaybe KOid (schemas withSchemas) (t_schemaOid emailRow) withSchemas = Some 0%nat
      /\ addType emailRow withSchemas
         = Ok (tt, typeAdded emailRow Domain 0%nat (emptySchema publicRow) withSchemas))
  /\ (typeKinds (t_kind orphanRow) = Some EnumType
      /\ addType orphanRow withSchemas = Throw (NotFound 4242)).
Proof.
  split; [| split].
  - split; [reflexivity |]. split; [reflexivity |].
    exact (proj1 (addType_schema_resolution int4Row BaseType withSchemas eq_refl)
                 1%nat (emptySchema pgCatalogRow) eq_refl eq_refl).
  - split; [reflexivity |]. split; [reflexivity |]. split; [reflexivity |].
    exact (proj1 (proj2 (addType_schema_resolution emailRow Domain withSchemas eq_refl))
                 0%nat (emptySchema publicRow) eq_refl eq_refl eq_refl).
  - split; [reflexivity |].
    exact (proj2 (proj2 (addType_schema_resolution orphanRow EnumType withSchemas eq_refl))
                 eq_refl eq_refl).
Defined.

Lemma addIndex_columnsAndExpressions_witness :
  getMaybe KOid (db_entities withColumns) (i_tableOid orderNoteIndex) withColumns = Some 5%nat
  /\ exists db',
      addIndex orderNoteIndex withColumns = Ok (tt, db')
      /\ (columnsAndExpressions <$> indexAt db' 9%nat)
         = Some [IsColumn 8%nat; IsExpression "lower(note)"; IsColumn 7%nat;
                 IsExpression "upper(note)"].
Proof.
  split; [reflexivity |].
  destruct (addIndex_columnsAndExpressions orderNoteIndex withColumns 5%nat _
                                           eq_refl eq_refl eq_refl)
    as (db' & Hrun & Hix & _).
  exists db'. split; [exact Hrun |].
  change (length (heap withColumns)) with 9%nat in Hix. rewrite Hix. reflexivity.
Defined.

Lemma addConstraint_without_table_witness :
  (resolveTable strayPkey withIndexes = None
   /\ addConstraint strayPkey withIndexes = Ok (tt, withIndexes))
  /\ (resolveTable emailCheck withIndexes = None
      /\ resolveDomain emailCheck withIndexes = Some 3%nat
      /\ exists db',
          addConstraint emailCheck withIndexes = Ok (tt, db')
          /\ constraintAt db' 11%nat
             = Some (CheckConstraint emailCheck (OfDomain 3%nat) (Some "VALUE ~ '@'"))
          /\ (checkConstraints <$> typeAt db' 3%nat) = Some [11%nat]).
Proof.
  split.
  - split; [reflexivity |].
    exact (proj1 (proj1 (addConstraint_without_table strayPkey withIndexes eq_refl)
                        (or_introl eq_refl))).
  - split; [reflexivity |]. split; [reflexivity |].
    destruct (proj2 (addConstraint_without_table emailCheck withIndexes eq_refl)
                    3%nat _ eq_refl eq_refl eq_refl eq_refl)
      as (db' & Hrun & _ & Hc & Hcs & _).
    exists db'. split; [exact Hrun |]. split; [exact Hc | exact Hcs].
Defined.

End Scenario.

Module UniqueConstraintFacts.
Import Catalog Assembler AssemblerFacts UniqueConstraintClass.

(** C8: in every state of the graph, reading [columns] of a unique
    constraint answers the columns of its backing index as they are in
    that state, same elements in the same order.  The constraint
    object stores the row, the index and the table and no columns of
    its own, so a later change of the index shows through: two states
    that hold the same constraint object answer each the columns of
    their own index. *)
Theorem unique_columns_delegates (db : Db) (this index table : ref)
        (row : ConstraintRow) (ix : Index) :
  constraintAt db this = Some (UniqueConstraint row (Some index) table) ->
  indexAt db index = Some ix ->
  columns this db = Ok (Index_columns ix)
  /\ forall db' ix',
      constraintAt db' this = constraintAt db this ->
      indexAt db' index = Some ix' ->
      columns this db' = Ok (Index_columns ix').
Proof.
  intros Hc Hix. unfold columns. split.
  - by rewrite Hc; simpl; rewrite Hix.
  - intros db' ix' Hc' Hix'. by rewrite Hc', Hc; simpl; rewrite Hix'.
Qed.

End UniqueConstraintFacts.

Module LegacyFacts.
Import Legacy.

Lemma attributesOf_app_l s cell r a :
  attributesOf s r = Some a -> attributesOf (s ++ cell) r = Some a.
Proof.
  unfold attributesOf. destruct (s !! r) as [c |] eqn:E; [| done].
  intros H. by rewrite (lookup_app_l_Some _ _ _ _ E).
Qed.

Lemma attributesOf_new s cells a :
  attributesOf (s ++ cells ++ [ConstraintCell a]) (length s + length cells) = Some a.
Proof.
  unfold attributesOf. rewrite lookup_app_r by lia.
  replace (length s + length cells - length s) with (length cells) by lia.
  by rewrite lookup_app_r, Nat.sub_diag.
Qed.

(** Reading an array through a reference is the same before and after
    one constraint cell is appended. *)
Lemma array_after_append s a r :
  match (s ++ [ConstraintCell a]) !! r with Some (ArrayCell items) => Some items | _ => None end
  = match s !! r with Some (ArrayCell items) => Some items | _ => None end.
Proof.
  destruct (decide (r < length s)) as [Hlt | Hge].
  - by rewrite lookup_app_l.
  - rewrite (proj2 (lookup_ge_None s r)) by lia.
    destruct (decide (r = length s)) as [-> | Hne].
    + by rewrite lookup_app_r, Nat.sub_diag.
    + rewrite (proj2 (lookup_ge_None _ r)); [done |]. rewrite length_app. simpl. lia.
Qed.

Lemma object_after_append s a r :
  match (s ++ [ConstraintCell a]) !! r with
  | Some (ObjectCell entries) => Some entries | _ => None end
  = match s !! r with Some (ObjectCell entries) => Some entries | _ => None end.
Proof.
  destruct (decide (r < length s)) as [Hlt | Hge].
  - by rewrite lookup_app_l.
  - rewrite (proj2 (lookup_ge_None s r)) by lia.
    destruct (decide (r = length s)) as [-> | Hne].
    + by rewrite lookup_app_r, Nat.sub_diag.
    + rewrite (proj2 (lookup_ge_None _ r)); [done |]. rewrite length_app. simpl. lia.
Qed.

(** C9: with a [through] table the new constraint takes over the two
    containers of the supplied [throughForeignKeyConstraintToSelf]
    (the very same objects, hence the same foreign keys by order and
    by name), whatever [throughForeignKeyConstraint] is; without
    [through] it starts with a new empty list and a new empty map. *)
Theorem Constraint_through (a : Args) (s : Store) :
  validation a = true ->
  (forall t toSelf attrs,
      through a = Some t ->
      throughForeignKeyConstraintToSelf a = Some toSelf ->
      attributesOf s toSelf = Some attrs ->
      exists this s',
        Constraint (Some a) s = Ok (this, s')
        /\ attributesOf s' this
           = Some {| args := a; foreignKeys := foreignKeys attrs;
                     foreignKeysByName := foreignKeysByName attrs |}
        /\ foreignKeysOf s' this = foreignKeysOf s toSelf
        /\ foreignKeysByNameOf s' this = foreignKeysByNameOf s toSelf
        /\ attributesOf s' toSelf = Some attrs)
  /\ (through a = None ->
      exists this s',
        Constraint (Some a) s = Ok (this, s')
        /\ foreignKeysOf s' this = Some []
        /\ foreignKeysByNameOf s' this = Some []
        /\ (forall r, r < length s -> s' !! r = s !! r)
        /\ (exists keys byName,
              attributesOf s' this
              = Some {| args := a; foreignKeys := keys; foreignKeysByName := byName |}
              /\ s !! keys = None /\ s !! byName = None)).
Proof.
  intros Hvalid. split.
  - intros t toSelf attrs Hthrough HtoSelf Hattrs.
    exists (length s). eexists. split; [| split; [| split; [| split]]].
    + unfold Constraint. rewrite Hvalid, Hthrough, HtoSelf. simpl.
      unfold internalObjectForeignKeys, internalObjectForeignKeysByName.
      rewrite Hattrs. reflexivity.
    + pose proof (attributesOf_new s [] {| args := a; foreignKeys := foreignKeys attrs;
                                           foreignKeysByName := foreignKeysByName attrs |}) as H.
      simpl in H. by rewrite Nat.add_0_r in H.
    + unfold foreignKeysOf. rewrite Hattrs.
      pose proof (attributesOf_new s [] {| args := a; foreignKeys := foreignKeys attrs;
                                           foreignKeysByName := foreignKeysByName attrs |}) as H.
      simpl in H. rewrite Nat.add_0_r in H. rewrite H. simpl. apply array_after_append.
    + unfold foreignKeysByNameOf. rewrite Hattrs.
      pose proof (attributesOf_new s [] {| args := a; foreignKeys := foreignKeys attrs;
                                           foreignKeysByName := foreignKeysByName attrs |}) as H.
      simpl in H. rewrite Nat.add_0_r in H. rewrite H. simpl. apply object_after_append.
    + by apply attributesOf_app_l.
  - intros Hthrough.
    set (new := {| args := a; foreignKeys := length s; foreignKeysByName := S (length s) |}).
    assert (attributesOf (s ++ [ArrayCell []; ObjectCell []; ConstraintCell new])
                         (S (S (length s))) = Some new) as Hnew.
    { pose proof (attributesOf_new s [ArrayCell []; ObjectCell []] new) as H.
      simpl in H. by replace (length s + 2) with (S (S (length s))) in H by lia. }
    exists (S (S (length s))), (s ++ [ArrayCell []; ObjectCell []; ConstraintCell new]).
    split; [| split; [| split; [| split]]].
    + unfold Constraint. rewrite Hvalid, Hthrough. reflexivity.
    + unfold foreignKeysOf. rewrite Hnew. simpl.
      by rewrite lookup_app_r, Nat.sub_diag.
    + unfold foreignKeysByNameOf. rewrite Hnew. simpl.
      rewrite lookup_app_r by lia. by replace (S (length s) - length s) with 1 by lia.
    + intros r Hr. by rewrite lookup_app_l.
    + exists (length s), (S (length s)). split; [exact Hnew |].
      split; apply lookup_ge_None; lia.
Qed.

End LegacyFacts.

(** ** Referential actions and match types *)

Module ActionFacts.
Import Catalog Assembler.

Definition actionTable : list (ascii * string) :=
  [ ("a"%char, "NO ACTION"); ("r"%char, "RESTRICT"); ("c"%char, "CASCADE");
    ("n"%char, "SET NULL"); ("d"%char, "SET DEFAULT") ].

Definition matchTypeTable : list (ascii * string) :=
  [ ("f"%char, "FULL"); ("p"%char, "PARTIAL"); ("s"%char, "SIMPLE") ].

Lemma actionLetterMap_table letter v :
  actionLetterMap letter = Some v <-> (letter, v) ∈ actionTable.
Proof.
  unfold actionLetterMap, actionTable. split.
  - repeat case_bool_decide; intros [= <-]; subst; repeat constructor.
  - rewrite !elem_of_cons, elem_of_nil.
    intros [[= -> ->] | [[= -> ->] | [[= -> ->] | [[= -> ->] | [[= -> ->] | []]]]]];
      reflexivity.
Qed.

Lemma matchTypeLetterMap_table letter v :
  matchTypeLetterMap letter = Some v <-> (letter, v) ∈ matchTypeTable.
Proof.
  unfold matchTypeLetterMap, matchTypeTable. split.
  - repeat case_bool_decide; intros [= <-]; subst; repeat constructor.
  - rewrite !elem_of_cons, elem_of_nil.
    intros [[= -> ->] | [[= -> ->] | [[= -> ->] | []]]]; reflexivity.
Qed.

Lemma legacy_validAction v :
  Legacy.validAction (Some v) = true <-> v ∈ Legacy.allowedActions.
Proof. unfold Legacy.validAction. apply bool_decide_eq_true. Qed.

Lemma legacy_rejects (a : Legacy.Args) (s : list Legacy.Cell) :
  Legacy.validation a = false ->
  Legacy.Constraint (Some a) s = Legacy.Throw (Legacy.InvalidArguments (Legacy.name a)).
Proof. intros H. unfold Legacy.Constraint. by rewrite H. Qed.

(** The four values that the legacy constructor lists. *)
Definition documentedAction (v : option string) : Prop :=
  v = None \/ exists x, v = Some x /\ x ∈ ["NO ACTION"; "RESTRICT"; "CASCADE"; "SET NULL"].

Lemma documentedAction_valid v : documentedAction v -> Legacy.validAction v = true.
Proof.
  intros [-> | (x & -> & Hx)]; [reflexivity |].
  apply legacy_validAction. unfold Legacy.allowedActions.
  rewrite !elem_of_cons, elem_of_nil in Hx. rewrite !elem_of_cons. tauto.
Qed.

(** What a letter map gives for [letter]: the value listed with the
    letter, or nothing for a letter that is not listed. *)
Definition fromLetter (table : list (ascii * string)) (letter : ascii)
           (value : option string) : Prop :=
  match value with
  | Some v => (letter, v) ∈ table
  | None => letter ∉ table.*1
  end.

Lemma actionLetterMap_fromLetter letter :
  fromLetter actionTable letter (actionLetterMap letter).
Proof.
  destruct (actionLetterMap letter) as [v |] eqn:E; simpl.
  - by apply actionLetterMap_table.
  - unfold actionLetterMap in E. repeat case_bool_decide; try done.
    simpl. rewrite !elem_of_cons, elem_of_nil. tauto.
Qed.

Lemma matchTypeLetterMap_fromLetter letter :
  fromLetter matchTypeTable letter (matchTypeLetterMap letter).
Proof.
  destruct (matchTypeLetterMap letter) as [v |] eqn:E; simpl.
  - by apply matchTypeLetterMap_table.
  - unfold matchTypeLetterMap in E. repeat case_bool_decide; try done.
    simpl. rewrite !elem_of_cons, elem_of_nil. tauto.
Qed.

(** *** Every foreign key of the graph carries the values of its letters *)

Definition lettered (o : Obj) : Prop :=
  match o with
  | OConstraint (ForeignKey row _ _ _ onUpdate onDelete matchType) =>
      onUpdate = actionLetterMap (k_onUpdate row)
      /\ onDelete = actionLetterMap (k_onDelete row)
      /\ matchType = matchTypeLetterMap (k_matchType row)
  | _ => True
  end.

Definition keepsLettered {A} (m : M A) : Prop :=
  forall db a db', Forall lettered (heap db) -> m db = Ok (a, db') ->
                   Forall lettered (heap db').

(** A step that leaves the objects alone. *)
Definition sameHeap {A} (m : M A) : Prop :=
  forall db a db', m db = Ok (a, db') -> heap db' = heap db.

Lemma keepsLettered_sameHeap {A} (m : M A) : sameHeap m -> keepsLettered m.
Proof. intros Hm db a db' Hl H. by rewrite (Hm _ _ _ H). Qed.

Lemma sameHeap_ret {A} (a : A) : sameHeap (ret a).
Proof. by intros db a' db' [= _ <-]. Qed.

Lemma sameHeap_read {A} (f : Db -> A) : sameHeap (read f).
Proof. by intros db a db' [= _ <-]. Qed.

Lemma sameHeap_get k collection key : sameHeap (get k collection key).
Proof.
  intros db a db' H. unfold get in H.
  destruct (getMaybe k (collection db) key db); [| done]. by injection H as _ <-.
Qed.

Lemma sameHeap_typeSchema oid : sameHeap (typeSchema oid).
Proof.
  intros db a db' H. unfold typeSchema in H.
  destruct (getMaybe KOid (systemSchemas db) oid db).
  - by injection H as _ <-.
  - by eapply sameHeap_get.
Qed.

Lemma sameHeap_referencedTable index : sameHeap (referencedTable index).
Proof.
  intros db a db' H. unfold referencedTable in H.
  destruct (indexAt db index); [| done]. by injection H as _ <-.
Qed.

Lemma sameHeap_mapM_get k collection keys : sameHeap (mapM (get k collection) keys).
Proof. intros db cols db' H. by apply SymmetryFacts.mapM_get_state in H as ->. Qed.

Lemma sameHeap_pushDbSchemas x : sameHeap (pushDbSchemas x).
Proof. by intros db [] db' [= <-]. Qed.

Lemma sameHeap_pushDbSystemSchemas x : sameHeap (pushDbSystemSchemas x).
Proof. by intros db [] db' [= <-]. Qed.

Lemma keepsLettered_throw {A} e : keepsLettered (throw e : M A).
Proof. by intros db a db' _ H. Qed.

Lemma keepsLettered_bind {A B} (m : M A) (k : A -> M B) :
  keepsLettered m -> (forall a, keepsLettered (k a)) -> keepsLettered (m ≫= k).
Proof.
  intros Hm Hk db b db' Hl H.
  apply SymmetryFacts.mbind_inv in H as (a & db1 & H1 & H2).
  eapply Hk; [| exact H2]. by eapply Hm.
Qed.

Lemma keepsLettered_forEach {A} (f : A -> M unit) rows :
  (forall row, keepsLettered (f row)) -> keepsLettered (forEach f rows).
Proof.
  intros Hf. induction rows as [| row rest IH]; simpl.
  - apply keepsLettered_sameHeap, sameHeap_ret.
  - apply (keepsLettered_bind (f row) (fun _ => forEach f rest)); [apply Hf | by intros _].
Qed.

Lemma keepsLettered_new o : lettered o -> keepsLettered (new o).
Proof.
  intros Ho db a db' Hl [= _ <-]. simpl. apply Forall_app. split; [done |].
  by apply Forall_singleton.
Qed.

(** The updates of the assembler rewrite schemas, types, entities and
    indexes, never a constraint. *)
Definition sparesConstraints (f : Obj -> option Obj) : Prop :=
  forall o o', f o = Some o' -> match o' with OConstraint _ => False | _ => True end.

Lemma keepsLettered_mutate what r f : sparesConstraints f -> keepsLettered (mutate what r f).
Proof.
  intros Hf db a db' Hl H. unfold mutate in H.
  destruct (heap db !! r ≫= f) as [o' |] eqn:E; [| done]. injection H as H. subst db'.
  destruct (heap db !! r) as [o |] eqn:Er; [| done]. simpl in E.
  unfold set_heap. cbn [heap]. apply Forall_insert; [done |].
  specialize (Hf _ _ E). by destruct o'.
Qed.

Lemma keepsLettered_pushToSchema c schema x : keepsLettered (pushToSchema c schema x).
Proof. apply keepsLettered_mutate. intros [] o' H; by simplify_eq. Qed.

Lemma keepsLettered_pushToEntity c entity x : keepsLettered (pushToEntity c entity x).
Proof.
  apply keepsLettered_mutate. intros [| | e | | | | |] o' H; try done.
  destruct (entity_owns (entity_kind e) c); by simplify_eq.
Qed.

Lemma sparesConstraints_type_push_column x : sparesConstraints (type_push_column x).
Proof.
  intros [| t | | | | | |] o' H; try done. simpl in H.
  destruct (type_kind t); by simplify_eq.
Qed.

Lemma keepsLettered_pushColumn parent x : keepsLettered (pushColumn parent x).
Proof.
  apply keepsLettered_mutate. intros o o' H.
  destruct o as [| t | e | | | | |] eqn:Eo; try done;
    [by eapply sparesConstraints_type_push_column | by simplify_eq].
Qed.

Lemma keepsLettered_pushColumnOrExpression index x :
  keepsLettered (pushColumnOrExpression index x).
Proof. apply keepsLettered_mutate. intros [] o' H; by simplify_eq. Qed.

Lemma keepsLettered_pushCheckConstraint domain x :
  keepsLettered (mutate "checkConstraints" domain (type_push_checkConstraint x)).
Proof.
  apply keepsLettered_mutate. intros [| t | | | | | |] o' H; try done. simpl in H.
  destruct (type_kind t); by simplify_eq.
Qed.

Create HintDb lettered.

#[local] Hint Resolve keepsLettered_pushToSchema keepsLettered_pushToEntity
  keepsLettered_pushColumn keepsLettered_pushColumnOrExpression
  keepsLettered_pushCheckConstraint keepsLettered_throw : lettered.
#[local] Hint Resolve sameHeap_ret sameHeap_read sameHeap_get sameHeap_typeSchema
  sameHeap_referencedTable sameHeap_mapM_get sameHeap_pushDbSchemas
  sameHeap_pushDbSystemSchemas : lettered.

(** One step of a phase body: a sequence is split, an object that is
    no foreign key is created, or a primitive is dealt with. *)
Ltac lettered_step :=
  first [ apply keepsLettered_bind; [| intros ?]
        | apply keepsLettered_new; exact I
        | apply keepsLettered_sameHeap; solve [auto with lettered]
        | solve [auto with lettered] ].

Lemma keepsLettered_addSchema row : keepsLettered (addSchema row).
Proof. unfold addSchema. repeat lettered_step. Qed.

Lemma keepsLettered_addSystemSchema row : keepsLettered (addSystemSchema row).
Proof. unfold addSystemSchema. repeat lettered_step. Qed.

Lemma keepsLettered_addType row : keepsLettered (addType row).
Proof.
  unfold addType. lettered_step; [lettered_step |].
  destruct (typeKinds (t_kind row)); repeat lettered_step.
Qed.

Lemma keepsLettered_addEntity row : keepsLettered (addEntity row).
Proof.
  unfold addEntity, newEntity. lettered_step; [lettered_step |].
  destruct (_ || _); [| repeat case_bool_decide]; repeat lettered_step.
Qed.

Lemma keepsLettered_addFunction row : keepsLettered (addFunction row).
Proof.
  unfold addFunction, newFunction. lettered_step; [lettered_step |].
  repeat case_bool_decide; repeat lettered_step.
Qed.

Lemma keepsLettered_addColumn row : keepsLettered (addColumn row).
Proof.
  unfold addColumn. lettered_step; [case_bool_decide; lettered_step |].
  repeat lettered_step.
Qed.

Lemma keepsLettered_eachPosition index parent positions :
  forall indexExpressions,
    keepsLettered (eachPosition index parent positions indexExpressions).
Proof.
  induction positions as [| p rest IH]; intros es; simpl; [lettered_step |].
  case_bool_decide; [| destruct es].
  - lettered_step; [lettered_step |]. lettered_step; [lettered_step | apply IH].
  - lettered_step; [lettered_step | apply IH].
  - lettered_step; [lettered_step | apply IH].
Qed.

Lemma keepsLettered_addIndex row : keepsLettered (addIndex row).
Proof.
  unfold addIndex. lettered_step; [lettered_step |].
  lettered_step; [lettered_step |].
  lettered_step; [apply keepsLettered_eachPosition | lettered_step].
Qed.

Lemma keepsLettered_addTrigger row : keepsLettered (addTrigger row).
Proof. unfold addTrigger. repeat lettered_step. Qed.

Lemma keepsLettered_addTableConstraint table c :
  lettered (OConstraint c) -> keepsLettered (addTableConstraint table c).
Proof.
  intros Hc. unfold addTableConstraint.
  lettered_step; [by apply keepsLettered_new | lettered_step].
Qed.

(** The one place that creates a foreign key: its three values are
    what the maps give for the letters of the row. *)
Lemma keepsLettered_addForeignKey row table index :
  keepsLettered (addForeignKey row table index).
Proof.
  unfold addForeignKey. destruct index as [index |]; [| lettered_step].
  lettered_step; [lettered_step |].
  lettered_step; [by apply keepsLettered_new |].
  repeat lettered_step.
Qed.

Lemma keepsLettered_addConstraint row : keepsLettered (addConstraint row).
Proof.
  unfold addConstraint.
  lettered_step; [lettered_step |]. lettered_step; [lettered_step |].
  lettered_step; [lettered_step |].
  match goal with |- keepsLettered (match ?t with _ => _ end) => destruct t as [table |] end.
  - repeat case_bool_decide;
      first [ by apply keepsLettered_addTableConstraint
            | apply keepsLettered_addForeignKey
            | lettered_step ].
  - match goal with |- keepsLettered (match ?t with _ => _ end) => destruct t as [domain |] end;
      [case_bool_decide |]; repeat lettered_step.
Qed.

Lemma keepsLettered_addObjects queryResults : keepsLettered (addObjects queryResults).
Proof.
  unfold addObjects.
  repeat (apply keepsLettered_bind; [| intros _]); apply keepsLettered_forEach;
    auto using keepsLettered_addSchema, keepsLettered_addSystemSchema,
      keepsLettered_addType, keepsLettered_addEntity, keepsLettered_addColumn,
      keepsLettered_addIndex, keepsLettered_addConstraint, keepsLettered_addFunction,
      keepsLettered_addTrigger.
Qed.

(** C5 (as amended): in every graph that [addObjects] assembles,
    the [onUpdate] and [onDelete] of a foreign key are what the
    letter of its row stands for, NO ACTION, RESTRICT, CASCADE,
    SET NULL or SET DEFAULT for a, r, c, n, d and undefined for
    any other letter, and its [matchType] is FULL, PARTIAL or SIMPLE
    for f, p, s and undefined for any other letter; a legacy
    constraint whose required arguments are given and whose
    [onUpdate] and [onDelete] are left out or are any of NO ACTION,
    RESTRICT, CASCADE, SET NULL passes validation and, built without
    [through], is constructed with those arguments. *)
Theorem action_values :
  (forall (queryResults : QueryResults) (i : DbInfo) (D : Db) (x : ref)
          (row : ConstraintRow) (table index : ref) (cols : list ref)
          (onUpdate onDelete matchType : option string),
      addObjects queryResults (newDb i) = Ok (tt, D) ->
      constraintAt D x
      = Some (ForeignKey row table index cols onUpdate onDelete matchType) ->
      fromLetter actionTable (k_onUpdate row) onUpdate
      /\ fromLetter actionTable (k_onDelete row) onDelete
      /\ fromLetter matchTypeTable (k_matchType row) matchType)
  /\ (forall (a : Legacy.Args) (s : list Legacy.Cell),
        Legacy.requiredString (Legacy.name a) = true ->
        Legacy.requiredObject (Legacy.referencesSchema a) = true ->
        Legacy.requiredObject (Legacy.referencesTable a) = true ->
        Legacy.requiredObject (Legacy.table a) = true ->
        documentedAction (Legacy.onUpdate a) ->
        documentedAction (Legacy.onDelete a) ->
        Legacy.validation a = true
        /\ (Legacy.through a = None ->
            exists this s',
              Legacy.Constraint (Some a) s = Legacy.Ok (this, s')
              /\ (Legacy.args <$> Legacy.attributesOf s' this) = Some a)).
Proof.
  split.
  - intros queryResults i D x row table index cols onUpdate onDelete matchType Hrun Hx.
    assert (Forall lettered (heap D)) as Hl.
    { eapply keepsLettered_addObjects; [| exact Hrun]. apply Forall_nil_2. }
    unfold constraintAt in Hx. destruct (heap D !! x) as [o |] eqn:E; [| done].
    destruct o; try done. injection Hx as ->.
    rewrite Forall_lookup in Hl. destruct (Hl _ _ E) as (-> & -> & ->).
    split; [| split]; first [apply actionLetterMap_fromLetter
                            | apply matchTypeLetterMap_fromLetter].
  - intros a s Hname Hschema Htable Hfrom Hupdate Hdelete.
    assert (Legacy.validation a = true) as Hvalid.
    { unfold Legacy.validation.
      by rewrite Hname, Hschema, Htable, Hfrom, !documentedAction_valid. }
    split; [exact Hvalid |]. intros Hthrough.
    eexists _, _. split.
    + unfold Legacy.Constraint. rewrite Hvalid, Hthrough. reflexivity.
    + pose proof (LegacyFacts.attributesOf_new
                    s [Legacy.ArrayCell []; Legacy.ObjectCell []]
                    {| Legacy.args := a; Legacy.foreignKeys := length s;
                       Legacy.foreignKeysByName := S (length s) |}) as H.
      simpl in H. replace (length s + 2) with (S (S (length s))) in H by lia.
      by rewrite H.
Qed.

(** Legacy arguments for the foreign key of [order] on [account], the
    objects being cells 0 (schema), 1 and 2 (tables). *)
Definition orderAccountArgs (onUpdate onDelete : option string) : Legacy.Args :=
  {| Legacy.name := Some "order_account_fk";
     Legacy.referencesSchema := Some 0; Legacy.referencesTable := Some 1;
     Legacy.onUpdate := onUpdate; Legacy.onDelete := onDelete;
     Legacy.table := Some 2; Legacy.through := None;
     Legacy.throughForeignKeyConstraint := None;
     Legacy.throughForeignKeyConstraintToSelf := None |}.

Definition threeObjects : list Legacy.Cell :=
  [Legacy.OtherCell; Legacy.OtherCell; Legacy.OtherCell].

(** The small catalog assembled: object 12 is the foreign key of
    [order] on [account]. *)
Definition sampleGraph : Db :=
  Eval vm_compute in
    Scenario.after (addObjects Scenario.sampleResults) (newDb Scenario.sampleInfo).

Lemma sampleGraph_run :
  addObjects Scenario.sampleResults (newDb Scenario.sampleInfo) = Ok (tt, sampleGraph).
Proof. vm_compute. reflexivity. Qed.

Lemma action_values_witness :
  (constraintAt sampleGraph 12
   = Some (ForeignKey Scenario.orderAccountFk 5 9 [8]
                      (Some "NO ACTION") (Some "CASCADE") (Some "SIMPLE"))
   /\ fromLetter actionTable "a" (Some "NO ACTION")
   /\ fromLetter actionTable "c" (Some "CASCADE")
   /\ fromLetter matchTypeTable "s" (Some "SIMPLE"))
  /\ documentedAction (Some "NO ACTION")
  /\ documentedAction (Some "CASCADE")
  /\ exists this s',
      Legacy.Constraint (Some (orderAccountArgs (Some "NO ACTION") (Some "CASCADE")))
                        threeObjects
      = Legacy.Ok (this, s').
Proof.
  assert (documentedAction (Some "NO ACTION")) as Hupdate
      by (right; exists "NO ACTION"; split; [reflexivity | repeat constructor]).
  assert (documentedAction (Some "CASCADE")) as Hdelete
      by (right; exists "CASCADE"; split; [reflexivity | repeat constructor]).
  split.
  - split; [reflexivity |].
    exact (proj1 action_values Scenario.sampleResults Scenario.sampleInfo sampleGraph 12
                 Scenario.orderAccountFk 5 9 [8]
                 (Some "NO ACTION") (Some "CASCADE") (Some "SIMPLE")
                 sampleGraph_run eq_refl).
  - split; [exact Hupdate |]. split; [exact Hdelete |].
    destruct (proj2 (proj2 action_values
                       (orderAccountArgs (Some "NO ACTION") (Some "CASCADE")) threeObjects
                       eq_refl eq_refl eq_refl eq_refl Hupdate Hdelete) eq_refl)
      as (this & s' & Hrun & _).
    by exists this, s'.
Defined.

(** A foreign-key row of [order] on [account] whose three letters
    are in neither map. *)
Definition orderOddFk : ConstraintRow :=
  Scenario.constraintRow 200 101 0 "f" "order_account_fk" [2%Z] "z" "q" "x".

(** C5 (as stated) fails twice.  A foreign key that [addConstraints]
    builds from a row with other letters has no [onUpdate],
    [onDelete] or [matchType] at all.  And the value that the
    catalog letter [d] maps to is not accepted by the legacy
    constructor, which accepts the same arguments with CASCADE in its
    place. *)
Lemma action_values_as_stated_fail :
  (exists db',
      addConstraint orderOddFk Scenario.withIndexes = Ok (tt, db')
      /\ constraintAt db' 11 = Some (ForeignKey orderOddFk 5 9 [8] None None None))
  /\ actionLetterMap "d" = Some "SET DEFAULT"
  /\ Legacy.Constraint (Some (orderAccountArgs (actionLetterMap "a") (actionLetterMap "d")))
                       threeObjects
     = Legacy.Throw (Legacy.InvalidArguments (Some "order_account_fk"))
  /\ exists result,
      Legacy.Constraint (Some (orderAccountArgs (actionLetterMap "a") (actionLetterMap "c")))
                        threeObjects
      = Legacy.Ok result.
Proof.
  split; [eexists; split; vm_compute; reflexivity |].
  split; [reflexivity |]. split; [reflexivity |]. eexists. reflexivity.
Qed.

End ActionFacts.

(** ** A legacy store: cart, product and their join table *)

Module LegacyScenario.
Import Legacy LegacyFacts.

Definition fkArgs (n : string) (references from : ref) : Args :=
  {| name := Some n; referencesSchema := Some 0; referencesTable := Some references;
     onUpdate := Some "CASCADE"; onDelete := Some "RESTRICT"; table := Some from;
     through := None; throughForeignKeyConstraint := None;
     throughForeignKeyConstraintToSelf := None |}.

(** Cells: 0 the schema, 1 [cart], 2 [product], 3 [cart_product],
    4 and 5 its columns [cart_id] and [product_id], 6 to 8 the foreign
    key to [cart], 9 to 11 the foreign key to [product]. *)
Definition cartStore : list Cell :=
  [ OtherCell; OtherCell; OtherCell; OtherCell; OtherCell; OtherCell;
    ArrayCell [4]; ObjectCell [("cart_id", 4)];
    ConstraintCell {| args := fkArgs "cart_product_cart_fk" 1 3;
                      foreignKeys := 6; foreignKeysByName := 7 |};
    ArrayCell [5]; ObjectCell [("product_id", 5)];
    ConstraintCell {| args := fkArgs "cart_product_product_fk" 2 3;
                      foreignKeys := 9; foreignKeysByName := 10 |} ].

(** [cart] has many [product] through [cart_product]. *)
Definition cartHasProducts : Args :=
  {| name := Some "cart_has_products"; referencesSchema := Some 0;
     referencesTable := Some 2; onUpdate := None; onDelete := None; table := Some 1;
     through := Some 3; throughForeignKeyConstraint := Some 11;
     throughForeignKeyConstraintToSelf := Some 8 |}.

Lemma Constraint_through_witness :
  (exists this s',
      Constraint (Some cartHasProducts) cartStore = Ok (this, s')
      /\ foreignKeysOf s' this = Some [4]
      /\ foreignKeysByNameOf s' this = Some [("cart_id", 4)]
      /\ foreignKeysOf s' 11 = Some [5])
  /\ (exists this s',
         Constraint (Some (fkArgs "cart_product_cart_fk" 1 3)) cartStore = Ok (this, s')
         /\ foreignKeysOf s' this = Some []
         /\ foreignKeysByNameOf s' this = Some []).
Proof.
  split.
  - destruct (proj1 (Constraint_through cartHasProducts cartStore eq_refl)
                    3 8 _ eq_refl eq_refl eq_refl)
      as (this & s' & Hrun & Hattrs & Hkeys & HbyName & _).
    exists this, s'. split; [exact Hrun |]. split; [exact Hkeys |].
    split; [exact HbyName |].
    injection Hrun as _ <-. reflexivity.
  - destruct (proj2 (Constraint_through (fkArgs "cart_product_cart_fk" 1 3) cartStore eq_refl)
                    eq_refl)
      as (this & s' & Hrun & Hkeys & HbyName & _).
    by exists this, s'.
Defined.

End LegacyScenario.

(** ** A unique constraint over the expression index of [order] *)

Module UniqueScenario.
Import Catalog Assembler AssemblerFacts Scenario UniqueConstraintClass UniqueConstraintFacts.
Local Open Scope Z_scope.

Definition orderNoteKey : ConstraintRow :=
  constraintRow 200 201 0 "u" "order_note_key" [2; 1] " " " " " ".

Definition withUnique : Db :=
  Eval vm_compute in after (addConstraint orderNoteKey) withIndexes.

(** The same graph after the index gained one more column slot. *)
Definition withWiderIndex : Db :=
  Eval vm_compute in after (pushColumnOrExpression 10%nat (IsColumn 6%nat)) withUnique.

Example unique_fullName : fullName 11%nat withUnique = Ok "public.order.order_note_key".
Proof. reflexivity. Qed.

Lemma unique_columns_delegates_witness :
  constraintAt withUnique 11%nat = Some (UniqueConstraint orderNoteKey (Some 10%nat) 5%nat)
  /\ columns 11%nat withUnique = Ok [8%nat; 7%nat]
  /\ constraintAt withWiderIndex 11%nat = constraintAt withUnique 11%nat
  /\ columns 11%nat withWiderIndex = Ok [8%nat; 7%nat; 6%nat].
Proof.
  split; [reflexivity |].
  destruct (unique_columns_delegates withUnique 11%nat 10%nat 5%nat orderNoteKey _
                                     eq_refl eq_refl) as [Hnow Hlater].
  split; [exact Hnow |]. split; [reflexivity |].
  exact (Hlater withWiderIndex _ eq_refl eq_refl).
Defined.

End UniqueScenario.

(** ** Properties of [pgStructure]: who closes the connection *)

Module ConnectionFacts.
Import Catalog Assembler Entry.

(** An asynchronous step that never ends the client. *)
Definition quiet {A} (m : Async A) : Prop :=
  forall t, End_ ∉ t -> End_ ∉ (m t).2.

Lemma quiet_resolve {A} (a : A) : quiet (resolve a).
Proof. by intros t Ht. Qed.

Lemma quiet_mret {A} (a : A) : quiet (mret a : Async A).
Proof. by intros t Ht. Qed.

Lemma quiet_settle {A} (r : Result A) : quiet (settle r).
Proof. by intros t Ht. Qed.

Lemma quiet_emit e : e <> End_ -> quiet (emit e).
Proof.
  intros He t Ht. simpl. rewrite elem_of_app, list_elem_of_singleton.
  intros [H | H]; [by apply Ht | by apply He].
Qed.

Lemma quiet_await {A B} (m : Async A) (k : A -> Async B) :
  quiet m -> (forall a, quiet (k a)) -> quiet (m ≫= k).
Proof.
  intros Hm Hk t Ht. unfold mbind, Async_bind, await.
  specialize (Hm t Ht). destruct (m t) as [[a | e] t']; simpl in *; [| done].
  by apply Hk.
Qed.

Create HintDb quiet.
#[local] Hint Resolve quiet_resolve quiet_mret quiet_settle : quiet.
#[local] Hint Extern 1 (quiet (emit _)) => (apply quiet_emit; discriminate) : quiet.
#[local] Hint Extern 2 (quiet (_ ≫= _)) => (apply quiet_await; [| intros]) : quiet.

Lemma quiet_executeSqlFile {A} file (answer : list Z -> Result A) oids :
  quiet (executeSqlFile file answer oids).
Proof. unfold executeSqlFile. auto with quiet. Qed.

#[local] Hint Resolve quiet_executeSqlFile : quiet.

Lemma quiet_getQueryResultsFromDb w v i x s : quiet (getQueryResultsFromDb w v i x s).
Proof. unfold getQueryResultsFromDb, getSchemas, getSystemSchemas. auto 40 with quiet. Qed.

Lemma quiet_getConnectedPgClient w c : quiet (getConnectedPgClient w c).
Proof. unfold getConnectedPgClient. destruct c; auto 10 with quiet. Qed.

Lemma quiet_run m db : quiet (run m db).
Proof. unfold run. auto with quiet. Qed.

(** How an [await] came to its outcome. *)
Lemma await_inv {A B} (m : Async A) (k : A -> Async B) t r t2 :
  (m ≫= k) t = (r, t2) ->
  (exists e, m t = (Throw e, t2) /\ r = Throw e)
  \/ (exists a t1, m t = (Ok a, t1) /\ k a t1 = (r, t2)).
Proof.
  unfold mbind, Async_bind, await. destruct (m t) as [[a | e] t1]; intros H.
  - right. by exists a, t1.
  - left. exists e. by injection H as <- <-.
Qed.

(** One [await] of a quiet step: either it rejected, and the goal
    follows from its own trace, or the run goes on. *)
Ltac quiet_step H Hq :=
  let e := fresh "e" in let a := fresh "a" in let t1 := fresh "t" in
  let Hm := fresh "Hm" in let Hnew := fresh "Hq" in
  apply await_inv in H as [(e & Hm & _) | (a & t1 & Hm & H)];
  [ match type of Hm with
    | ?m ?t = _ =>
        assert (quiet m) as Hnew by auto 10 using quiet_getQueryResultsFromDb,
          quiet_getConnectedPgClient, quiet_run with quiet;
        specialize (Hnew t Hq); by rewrite Hm in Hnew
    end
  | match type of Hm with
    | ?m ?t = _ =>
        assert (quiet m) as Hnew by auto 10 using quiet_getQueryResultsFromDb,
          quiet_getConnectedPgClient, quiet_run with quiet;
        specialize (Hnew t Hq); rewrite Hm in Hnew; simpl in Hnew; clear Hm
    end ].

(** C7, the failure paths: whenever [pgStructure] rejects, be it on
    the environment, the connection, a query or the assembly, the
    client has not been ended, whoever created it and whatever
    [keepConnection] says. *)
Theorem pgStructure_rejection_leaves_open (w : World) (first : FirstArgument)
        (options : Options) (e : Error) (t : list Event) :
  pgStructure w first options [] = (Throw e, t) -> End_ ∉ t.
Proof.
  intros H. unfold pgStructure in H.
  assert (End_ ∉ ([] : list Event)) as Hq0 by apply not_elem_of_nil.
  destruct (match first with
            | OptionsBag o =>
                if isOptions first then (None, o)
                else (Some (ConnectionConfig None), options)
            | Given c => (Some c, options)
            | Absent => (None, options)
            end) as [maybe opts].
  destruct maybe as [c |]; quiet_step H Hq0;
  quiet_step H Hq; quiet_step H Hq1; quiet_step H Hq2; quiet_step H Hq3;
  quiet_step H Hq4;
  (apply await_inv in H as [(e' & Hm & _) | (a' & t' & Hm & H)];
   [ destruct (negb (default false (keepConnection opts)) && a0); discriminate Hm
   | discriminate H ]).
Qed.

(** A client that the caller supplied is never ended, on any path. *)
Lemma pgStructure_supplied_client_stays_open (w : World) (options : Options)
      (r : Result Db) (t : list Event) :
  pgStructure w (Given ConnectedClient) options [] = (r, t) -> End_ ∉ t.
Proof.
  intros H. unfold pgStructure in H.
  assert (End_ ∉ ([] : list Event)) as Hq0 by apply not_elem_of_nil.
  change (((emit (Query "SHOW server_version" []));;
           serverVersion ← settle (showServerVersion w);
           queryResults ← getQueryResultsFromDb w serverVersion
                            (arrify (includeSchemas options))
                            (arrify (excludeSchemas options))
                            (includeSystemSchemas options);
           db ← run (addObjects queryResults)
                    (newDb (initialInfo w options ConnectedClient serverVersion
                                        queryResults));
           (if negb (default false (keepConnection options)) && false
            then emit End_ else resolve tt);;
           resolve db) [] = (r, t)) in H.
  rewrite andb_false_r in H.
  quiet_step H Hq0; quiet_step H Hq; quiet_step H Hq1; quiet_step H Hq2.
  by injection H as _ <-.
Qed.

Lemma await_Ok_inv {A B} (m : Async A) (k : A -> Async B) t b t2 :
  (m ≫= k) t = (Ok b, t2) ->
  exists a t1, m t = (Ok a, t1) /\ k a t1 = (Ok b, t2).
Proof.
  intros H. apply await_inv in H as [(e & _ & [=]) | H]; exact H.
Qed.

(** On the success path a client that the core created from a
    connection string or object is ended last, unless
    [keepConnection] is set. *)
Lemma pgStructure_success_closes (w : World) (c : ClientOrConfig) (options : Options)
      (db : Db) (t : list Event) :
  c <> ConnectedClient ->
  default false (keepConnection options) = false ->
  pgStructure w (Given c) options [] = (Ok db, t) ->
  last t = Some End_.
Proof.
  intros Hc Hkeep H. unfold pgStructure in H.
  apply await_Ok_inv in H as (c' & t0 & Hm & H). injection Hm as <- <-.
  apply await_Ok_inv in H as (close & t1 & Hm & H).
  assert (close = true) as ->.
  { unfold getConnectedPgClient in Hm. destruct c; [done | |];
      apply await_Ok_inv in Hm as (? & ? & _ & Hm);
      apply await_Ok_inv in Hm as (? & ? & _ & Hm); by injection Hm as <- _. }
  clear Hm.
  do 4 (apply await_Ok_inv in H as (? & ? & _ & H)).
  rewrite Hkeep in H. simpl in H. injection H as _ <-.
  unfold emit. simpl. by rewrite last_snoc.
Qed.

End ConnectionFacts.

(** ** Properties of [deserialize]: replaying a snapshot *)

Module SerializationFacts.
Import Catalog Assembler Entry ConnectionFacts.

(** A step of the assembler that leaves what the [Db] constructor
    stored (name, server version, config, query results, naming
    functions) as it is. *)
Definition keepsInfo {A} (m : M A) : Prop :=
  forall db a db', m db = Ok (a, db') -> info db' = info db.

Lemma keepsInfo_ret {A} (a : A) : keepsInfo (ret a).
Proof. by intros db a' db' [= _ <-]. Qed.

Lemma keepsInfo_mret {A} (a : A) : keepsInfo (mret a : M A).
Proof. apply keepsInfo_ret. Qed.

Lemma keepsInfo_throw {A} e : keepsInfo (throw e : M A).
Proof. by intros db a db' H. Qed.

Lemma keepsInfo_read {A} (f : Db -> A) : keepsInfo (read f).
Proof. by intros db a db' [= _ <-]. Qed.

Lemma keepsInfo_bind {A B} (m : M A) (k : A -> M B) :
  keepsInfo m -> (forall a, keepsInfo (k a)) -> keepsInfo (bind m k).
Proof.
  intros Hm Hk db b db' H. unfold bind in H.
  destruct (m db) as [[a db1] | e] eqn:E; [| done].
  rewrite (Hk a db1 b db' H). by eapply Hm.
Qed.

Lemma keepsInfo_mbind {A B} (m : M A) (k : A -> M B) :
  keepsInfo m -> (forall a, keepsInfo (k a)) -> keepsInfo (m ≫= k).
Proof. apply keepsInfo_bind. Qed.

Lemma keepsInfo_new o : keepsInfo (new o).
Proof. by intros db a db' [= _ <-]. Qed.

Lemma keepsInfo_mutate what r f : keepsInfo (mutate what r f).
Proof.
  intros db a db' H. unfold mutate in H.
  destruct (heap db !! r ≫= f); [| done]. by simplify_eq.
Qed.

Lemma keepsInfo_get k collection key : keepsInfo (get k collection key).
Proof.
  intros db a db' H. unfold get in H.
  destruct (getMaybe k (collection db) key db); [| done]. by injection H as _ <-.
Qed.

Lemma keepsInfo_forEach {A} (f : A -> M unit) rows :
  (forall row, keepsInfo (f row)) -> keepsInfo (forEach f rows).
Proof.
  intros Hf. induction rows as [| row rest IH]; simpl.
  - apply keepsInfo_ret.
  - apply keepsInfo_bind; [apply Hf | by intros _].
Qed.

Lemma keepsInfo_mapM {A B} (f : A -> M B) l :
  (forall x, keepsInfo (f x)) -> keepsInfo (mapM f l).
Proof.
  intros Hf. induction l as [| x rest IH]; simpl.
  - apply keepsInfo_ret.
  - apply keepsInfo_bind; [apply Hf | intros y].
    apply keepsInfo_bind; [apply IH | intros ys; apply keepsInfo_ret].
Qed.

Lemma keepsInfo_pushDbSchemas x : keepsInfo (pushDbSchemas x).
Proof. by intros db a db' [= _ <-]. Qed.

Lemma keepsInfo_pushDbSystemSchemas x : keepsInfo (pushDbSystemSchemas x).
Proof. by intros db a db' [= _ <-]. Qed.

Lemma keepsInfo_typeSchema oid : keepsInfo (typeSchema oid).
Proof.
  intros db a db' H. unfold typeSchema in H.
  destruct (getMaybe KOid (systemSchemas db) oid db).
  - by injection H as _ <-.
  - by eapply keepsInfo_get.
Qed.

Lemma keepsInfo_referencedTable index : keepsInfo (referencedTable index).
Proof.
  intros db a db' H. unfold referencedTable in H.
  destruct (indexAt db index); [| done]. by injection H as _ <-.
Qed.

Create HintDb info.
#[local] Hint Resolve keepsInfo_ret keepsInfo_mret keepsInfo_throw keepsInfo_read
  keepsInfo_new keepsInfo_mutate keepsInfo_get keepsInfo_pushDbSchemas
  keepsInfo_pushDbSystemSchemas keepsInfo_typeSchema keepsInfo_referencedTable : info.

(** Walks a function body: binds, conditionals and the primitives. *)
Ltac keeps :=
  repeat first
    [ progress intros
    | apply keepsInfo_mbind
    | apply keepsInfo_bind
    | apply keepsInfo_forEach
    | apply keepsInfo_mapM
    | solve [auto with info]
    | case_bool_decide
    | match goal with
      | |- keepsInfo (match ?x with _ => _ end) => destruct x
      | |- keepsInfo (if ?b then _ else _) => destruct b
      end ].

Lemma keepsInfo_eachPosition index parent positions :
  forall indexExpressions, keepsInfo (eachPosition index parent positions indexExpressions).
Proof.
  induction positions as [| p rest IH]; intros es; simpl.
  - apply keepsInfo_ret.
  - unfold pushColumnOrExpression. case_bool_decide; [| destruct es]; keeps; apply IH.
Qed.

Lemma keepsInfo_addObjects queryResults : keepsInfo (addObjects queryResults).
Proof.
  unfold addObjects, addSchemas, addSystemSchemas, addTypes, addEntities, addColumns,
    addIndexes, addConstraints, addFunctions, addTriggers.
  repeat (apply keepsInfo_mbind; [| intros _]); apply keepsInfo_forEach; intros row.
  - unfold addSchema. keeps.
  - unfold addSystemSchema. keeps.
  - unfold addType, pushToSchema. keeps.
  - unfold addEntity, newEntity, pushToSchema. keeps.
  - unfold addColumn, pushColumn. keeps.
  - unfold addIndex, pushToEntity. keeps. apply keepsInfo_eachPosition.
  - unfold addConstraint, addTableConstraint, addForeignKey, pushToEntity. keeps.
  - unfold addFunction, newFunction, pushToSchema. keeps.
  - unfold addTrigger, pushToEntity. keeps.
Qed.

(** A [Db] is the assembly of the rows it stores, over a new [Db]
    that stores the same things. *)
Definition replayable (D : Db) : Prop :=
  addObjects (queryResults (info D)) (newDb (info D)) = Ok (tt, D)
  /\ namingFunctions (info D)
     = getRelationNameFunctions (relationNameFunctions (config (info D))).

Lemma assembled_replayable i D :
  namingFunctions i = getRelationNameFunctions (relationNameFunctions (config i)) ->
  addObjects (queryResults i) (newDb i) = Ok (tt, D) ->
  replayable D.
Proof.
  intros Hnaming Hrun.
  assert (info D = i) as Hinfo by exact (keepsInfo_addObjects _ _ _ _ Hrun).
  unfold replayable. by rewrite Hinfo.
Qed.

(** Every [Db] that [pgStructure] returns is replayable. *)
Lemma pgStructure_replayable w first options D t :
  pgStructure w first options [] = (Ok D, t) -> replayable D.
Proof.
  intros H. unfold pgStructure in H.
  destruct (match first with
            | OptionsBag o =>
                if isOptions first then (None, o)
                else (Some (ConnectionConfig None), options)
            | Given c => (Some c, options)
            | Absent => (None, options)
            end) as [maybe opts].
  apply await_Ok_inv in H as (c & ? & _ & H).
  apply await_Ok_inv in H as (close & ? & _ & H).
  apply await_Ok_inv in H as (? & ? & _ & H).
  apply await_Ok_inv in H as (version & ? & _ & H).
  apply await_Ok_inv in H as (rows & ? & _ & H).
  apply await_Ok_inv in H as (db & ? & Hrun & H).
  apply await_Ok_inv in H as (? & ? & _ & H). injection H as <- _.
  unfold run, settle in Hrun.
  destruct (addObjects rows (newDb (initialInfo w opts c version rows)))
    as [[[] db'] | e] eqn:E; [| done].
  injection Hrun as <- _.
  by apply (assembled_replayable (initialInfo w opts c version rows)).
Qed.

Section Json.
Variable JSON_stringify : Snapshot -> string.
Variable JSON_parse : string -> Result Snapshot.

(** What [deserialize] does with a text that parses. *)
Lemma deserialize_parsed text data :
  JSON_parse text = Ok data ->
  deserialize JSON_parse text
  = match addObjects (snap_queryResults data)
            (newDb {| name := snap_name data;
                      serverVersion := snap_serverVersion data;
                      config := snap_config data;
                      queryResults := snap_queryResults data;
                      namingFunctions :=
                        getRelationNameFunctions
                          (relationNameFunctions (snap_config data)) |}) with
    | Ok (_, db) => Ok db
    | Throw e => Throw e
    end.
Proof. intros H. unfold deserialize. by rewrite H. Qed.

(** C2: let [D] be a [Db] that [pgStructure] returned, with a
    naming strategy given by name, and let the host's JSON functions
    round-trip the snapshot of such a [Db].  Then deserializing the
    serialization of [D] succeeds and returns a [Db] equal to [D]:
    same name, server version, config, query results and naming
    functions, same schemas and the same object graph.  Whatever
    text parses, [deserialize] stores the parsed name, server
    version, config and query results, binds the naming functions
    that the config names, and its result is the assembly of the
    parsed rows in the nine phases of [addObjects]. *)
Theorem deserialize_serialize (w : World) (first : FirstArgument) (options : Options)
        (D : Db) (t : list Event) :
  pgStructure w first options [] = (Ok D, t) ->
  (exists module, relationNameFunctions (config (info D)) = ByName module) ->
  ((exists module, relationNameFunctions (snap_config (snapshotOf D)) = ByName module) ->
   JSON_parse (JSON_stringify (snapshotOf D)) = Ok (snapshotOf D)) ->
  deserialize JSON_parse (serialize JSON_stringify D) = Ok D
  /\ (forall text data D',
        JSON_parse text = Ok data ->
        deserialize JSON_parse text = Ok D' ->
        info D' = {| name := snap_name data;
                     serverVersion := snap_serverVersion data;
                     config := snap_config data;
                     queryResults := snap_queryResults data;
                     namingFunctions :=
                       getRelationNameFunctions
                         (relationNameFunctions (snap_config data)) |}
        /\ addObjects (snap_queryResults data) (newDb (info D')) = Ok (tt, D')).
Proof.
  intros Hbuilt Hnamed Hjson. split.
  - destruct (pgStructure_replayable _ _ _ _ _ Hbuilt) as [Hrun Hnaming].
    unfold serialize. rewrite (deserialize_parsed _ _ (Hjson Hnamed)).
    simpl. rewrite <- Hnaming.
    replace {| name := name (info D); serverVersion := serverVersion (info D);
               config := config (info D); queryResults := queryResults (info D);
               namingFunctions := namingFunctions (info D) |}
      with (info D) by (by destruct (info D)).
    by rewrite Hrun.
  - intros text data D' Hparse Hde.
    rewrite (deserialize_parsed _ _ Hparse) in Hde.
    match type of Hde with
    | match addObjects ?q (newDb ?i) with _ => _ end = _ =>
        destruct (addObjects q (newDb i)) as [[[] db] | e] eqn:E; [| done];
        injection Hde as ->;
        pose proof (keepsInfo_addObjects _ _ _ _ E) as Hinfo; simpl in Hinfo
    end.
    split; [exact Hinfo |]. by rewrite Hinfo.
Qed.

End Json.

End SerializationFacts.

(** ** A database that answers with the small catalog *)

Module EntryScenario.
Import Catalog Assembler Entry ConnectionFacts SerializationFacts Scenario.

Definition shop : World :=
  {| getEnvValues := fun _ => Ok (ConnectionConfig (Some "shop"));
     parseDatabase := fun _ => Some "shop";
     connect := fun _ => Ok tt;
     showServerVersion := Ok "14.2";
     schemasAnswer := fun _ _ => Ok (schemaRows sampleResults);
     systemSchemasAnswer := Ok (systemSchemaRows sampleResults);
     getQueryVersionFor := fun _ => Ok "13";
     typeAnswer := fun _ => Ok (typeRows sampleResults);
     entityAnswer := fun _ => Ok (entityRows sampleResults);
     columnAnswer := fun _ => Ok (columnRows sampleResults);
     indexAnswer := fun _ => Ok (indexRows sampleResults);
     constraintAnswer := fun _ => Ok (constraintRows sampleResults);
     functionAnswer := fun _ => Ok (functionRows sampleResults);
     triggerAnswer := fun _ => Ok (triggerRows sampleResults) |}.

(** The server goes away after the connection is made. *)
Definition shopGoesAway : World :=
  {| getEnvValues := getEnvValues shop; parseDatabase := parseDatabase shop;
     connect := connect shop;
     showServerVersion := Throw (DriverError "Connection terminated unexpectedly");
     schemasAnswer := schemasAnswer shop; systemSchemasAnswer := systemSchemasAnswer shop;
     getQueryVersionFor := getQueryVersionFor shop; typeAnswer := typeAnswer shop;
     entityAnswer := entityAnswer shop; columnAnswer := columnAnswer shop;
     indexAnswer := indexAnswer shop; constraintAnswer := constraintAnswer shop;
     functionAnswer := functionAnswer shop; triggerAnswer := triggerAnswer shop |}.

(** The catalog holds a type of a schema that is not loaded. *)
Definition shopWithOrphan : World :=
  {| getEnvValues := getEnvValues shop; parseDatabase := parseDatabase shop;
     connect := connect shop; showServerVersion := showServerVersion shop;
     schemasAnswer := schemasAnswer shop; systemSchemasAnswer := systemSchemasAnswer shop;
     getQueryVersionFor := getQueryVersionFor shop;
     typeAnswer := fun _ => Ok [int4Row; orphanRow];
     entityAnswer := entityAnswer shop; columnAnswer := columnAnswer shop;
     indexAnswer := indexAnswer shop; constraintAnswer := constraintAnswer shop;
     functionAnswer := functionAnswer shop; triggerAnswer := triggerAnswer shop |}.

Definition shopConfig : FirstArgument := Given (ConnectionConfig (Some "shop")).

Definition discoveryQuery : Event :=
  Query (Discovery.sql {| Discovery.include := []; Discovery.exclude := [];
                          Discovery.system := false |})
        ["information\_schema"; "pg\_%"].

Definition catalogQueries : list Event :=
  [ discoveryQuery; Query systemSchemasSql [];
    ExecuteSqlFile "type" [2200; 11]%Z; ExecuteSqlFile "entity" [2200]%Z;
    ExecuteSqlFile "column" [2200]%Z; ExecuteSqlFile "index" [2200]%Z;
    ExecuteSqlFile "constraint" [2200]%Z; ExecuteSqlFile "function" [2200]%Z;
    ExecuteSqlFile "trigger" [2200]%Z ].

(** The [Db] of the small catalog. *)
Definition shopDb : Db :=
  Eval vm_compute in after (addObjects sampleResults) (newDb sampleInfo).

(** Success: the client that the core created is ended last. *)
Example pgStructure_shop :
  pgStructure shop shopConfig noOptions []
  = (Ok shopDb, [Connect; Query "SHOW server_version" []] ++ catalogQueries ++ [End_]).
Proof. vm_compute. reflexivity. Qed.

(** With [keepConnection] it stays open. *)
Example pgStructure_shop_keep :
  pgStructure shop shopConfig
              {| envPrefix := None; opt_name := None; opt_commentDataToken := None;
                 includeSchemas := None; excludeSchemas := None;
                 includeSystemSchemas := None; opt_foreignKeyAliasSeparator := None;
                 opt_foreignKeyAliasTargetFirst := None; opt_relationNameFunctions := None;
                 keepConnection := Some true |} []
  = (Ok shopDb, [Connect; Query "SHOW server_version" []] ++ catalogQueries).
Proof. vm_compute. reflexivity. Qed.

(** A client of the caller is left alone. *)
Example pgStructure_shop_client :
  (pgStructure shop (Given ConnectedClient) noOptions []).2
  = [Query "SHOW server_version" []] ++ catalogQueries.
Proof. vm_compute. reflexivity. Qed.

(** Assembly error: every query was answered, the type of the
    unknown schema is fatal, and the owned client is left open. *)
Example pgStructure_assembly_error :
  pgStructure shopWithOrphan shopConfig noOptions []
  = (Throw (NotFound 4242), [Connect; Query "SHOW server_version" []] ++ catalogQueries).
Proof. vm_compute. reflexivity. Qed.

Lemma pgStructure_rejection_leaves_open_witness :
  pgStructure shopGoesAway shopConfig noOptions []
  = (Throw (DriverError "Connection terminated unexpectedly"),
     [Connect; Query "SHOW server_version" []])
  /\ End_ ∉ [Connect; Query "SHOW server_version" []].
Proof.
  assert (pgStructure shopGoesAway shopConfig noOptions []
          = (Throw (DriverError "Connection terminated unexpectedly"),
             [Connect; Query "SHOW server_version" []])) as H by reflexivity.
  split; [exact H |].
  exact (pgStructure_rejection_leaves_open shopGoesAway shopConfig noOptions _ _ H).
Defined.

End EntryScenario.

Module SerializationScenario.
Import Catalog Assembler Entry SerializationFacts Scenario EntryScenario.

(** Injected naming functions do not survive the text form. *)
Example custom_functions_are_lost :
  SnapshotText.parse
    (SnapshotText.stringify
       {| snap_name := "shop"; snap_serverVersion := "14.2";
          snap_config :=
            {| commentDataToken := "pg-structure";
               relationNameFunctions := Custom (fun x => x) (fun x => x) (fun x => x);
               foreignKeyAliasSeparator := ","; foreignKeyAliasTargetFirst := false |};
          snap_queryResults := sampleResults |})
  = Throw (SyntaxError "Unexpected token").
Proof. vm_compute. reflexivity. Qed.

Lemma deserialize_serialize_witness :
  pgStructure shop shopConfig noOptions []
  = (Ok shopDb, [Connect; Query "SHOW server_version" []] ++ catalogQueries ++ [End_])
  /\ relationNameFunctions (config (info shopDb)) = ByName "short"
  /\ SnapshotText.parse (SnapshotText.stringify (snapshotOf shopDb)) = Ok (snapshotOf shopDb)
  /\ deserialize SnapshotText.parse (serialize SnapshotText.stringify shopDb) = Ok shopDb.
Proof.
  assert (SnapshotText.parse (SnapshotText.stringify (snapshotOf shopDb))
          = Ok (snapshotOf shopDb)) as Hjson by (vm_compute; reflexivity).
  split; [exact pgStructure_shop |]. split; [reflexivity |]. split; [exact Hjson |].
  exact (proj1 (deserialize_serialize SnapshotText.stringify SnapshotText.parse
                  shop shopConfig noOptions shopDb _ pgStructure_shop
                  (ex_intro _ "short" eq_refl) (fun _ => Hjson))).
Defined.

End SerializationScenario.

(** ** The discovery query of the shop *)

Module DiscoveryScenario.
Import Discovery DiscoveryFacts Entry EntryScenario.

Lemma getSchemas_query_spec_witness :
  exists likes notLikes : list string,
    (getSchemas shop {| include := ["pub%"]; exclude := ["pub_test"]; system := false |} []).2
    = [Query (filtered (["NOT pg_is_other_temp_schema(oid)"; "nspname <> 'pg_toast'"]
                          ++ anyOf likes ++ notLikes))
             ["pub%"; "pub_test"; "information\_schema"; "pg\_%"]]
    /\ Forall2 (fun clause pattern =>
                  binds "LIKE" clause
                        ["pub%"; "pub_test"; "information\_schema"; "pg\_%"] pattern)
               likes ["pub%"]
    /\ Forall2 (fun clause pattern =>
                  binds "NOT LIKE" clause
                        ["pub%"; "pub_test"; "information\_schema"; "pg\_%"] pattern)
               notLikes ["pub_test"; "information\_schema"; "pg\_%"].
Proof.
  destruct (getSchemas_query_spec
              shop {| include := ["pub%"]; exclude := ["pub_test"]; system := false |} [])
    as (likes & notLikes & Htrace & Hlikes & _ & HnotLikes).
  exists likes, notLikes. split; [exact Htrace |]. split; [exact Hlikes |].
  exact (HnotLikes (or_introl eq_refl)).
Defined.

(** C3 (as stated) fails: with system schemas requested and no
    include pattern, the query that is sent has no [LIKE] predicate
    and no parameter at all, so the system patterns did not join the
    included patterns. *)
Lemma discovery_as_specified_fails :
  (getSchemas shop {| include := []; exclude := []; system := true |} []).2
  = [Query "SELECT oid, nspname AS name, obj_description(oid, 'pg_namespace') AS comment FROM pg_namespace WHERE NOT pg_is_other_temp_schema(oid) AND nspname <> 'pg_toast' ORDER BY nspname" []]
  /\ ~ query_as_specified shop {| include := []; exclude := []; system := true |} [].
Proof.
  split; [reflexivity |].
  intros (likes & notLikes & params & Htrace & Hlikes & _).
  simpl in Htrace. injection Htrace as _ <-.
  simpl in Hlikes. inversion Hlikes as [| clause pattern ? ? (k & _ & Hk) _]; subst.
  by destruct k.
Qed.

End DiscoveryScenario.

(** ** Placeholders of the discovery query *)

Module PlaceholderFacts.
Import Discovery.

(** The placeholder a clause of one of the two loops names. *)
Definition names (op : string) (k : nat) (clause : string) : Prop :=
  clause = "nspname " +:+ op +:+ " $" +:+ pretty (S k).

Lemma whereInclude_lookup f i :
  whereInclude f !! i
  = (fun _ => "nspname LIKE $" +:+ pretty (i + 1)) <$> includedPatterns f !! i.
Proof. unfold whereInclude. by rewrite list_lookup_imap. Qed.

Lemma whereExclude_lookup f j :
  whereExclude f !! j
  = (fun _ => "nspname NOT LIKE $" +:+ pretty (j + length (include f) + 1))
      <$> excludedPatterns f !! j.
Proof. unfold whereExclude. by rewrite list_lookup_imap. Qed.

Lemma include_le_included f : length (include f) <= length (includedPatterns f).
Proof. unfold includedPatterns. rewrite length_app. lia. Qed.

(** [getSchemas] sends one parameter per [LIKE] and [NOT LIKE]
    predicate of its query, and every predicate names a placeholder
    between [$1] and the number of parameters: the query never refers
    to a parameter that is not sent with it. *)
Theorem placeholders_in_range (w : Entry.World) (f : SchemaFilter) (t : list Entry.Event) :
  exists likes notLikes params : list string,
    (Entry.getSchemas w f t).2
    = t ++ [Entry.Query
              (filtered (["NOT pg_is_other_temp_schema(oid)"; "nspname <> 'pg_toast'"]
                           ++ anyOf likes ++ notLikes))
              params]
    /\ length params = length likes + length notLikes
    /\ Forall (fun clause => exists k, names "LIKE" k clause /\ k < length params) likes
    /\ Forall (fun clause => exists k, names "NOT LIKE" k clause /\ k < length params)
              notLikes.
Proof.
  exists (whereInclude f), (whereExclude f), (includedPatterns f ++ excludedPatterns f).
  split; [apply DiscoveryFacts.getSchemas_trace |].
  rewrite length_app. split; [| split].
  - unfold whereInclude, whereExclude. by rewrite !length_imap.
  - apply Forall_lookup. intros i clause H. rewrite whereInclude_lookup in H.
    destruct (includedPatterns f !! i) as [p |] eqn:E; [| done]. injection H as <-.
    apply lookup_lt_Some in E. exists i. split; [| lia].
    unfold names. by replace (i + 1) with (S i) by lia.
  - apply Forall_lookup. intros j clause H. rewrite whereExclude_lookup in H.
    destruct (excludedPatterns f !! j) as [p |] eqn:E; [| done]. injection H as <-.
    apply lookup_lt_Some in E. pose proof (include_le_included f).
    exists (j + length (include f)). split; [| lia].
    unfold names. by replace (j + length (include f) + 1) with (S (j + length (include f))) by lia.
Qed.

(** With system schemas requested and at least one include pattern,
    the [NOT LIKE] predicates of the query that [getSchemas] sends
    are numbered two places too low: the predicate of the [j]-th
    exclusion pattern names the parameter that holds the [j]-th
    element of the system patterns followed by the exclusion
    patterns.  So the first exclusion predicate tests
    [information\_schema], which the inclusion list asks for, and the
    last exclusion pattern is sent but named by no [NOT LIKE]
    predicate. *)
Theorem exclusion_numbering_with_system (w : Entry.World) (f : SchemaFilter)
        (t : list Entry.Event) :
  system f = true -> include f <> [] ->
  exists likes notLikes params : list string,
    (Entry.getSchemas w f t).2
    = t ++ [Entry.Query
              (filtered (["NOT pg_is_other_temp_schema(oid)"; "nspname <> 'pg_toast'"]
                           ++ anyOf likes ++ notLikes))
              params]
    /\ params = include f ++ systemPatterns ++ exclude f
    /\ length notLikes = length (exclude f)
    /\ (forall j pattern, exclude f !! j = Some pattern ->
          exists shifted,
            (systemPatterns ++ exclude f) !! j = Some shifted
            /\ notLikes !! j
               = Some ("nspname NOT LIKE $" +:+ pretty (S (j + length (include f))))
            /\ params !! (j + length (include f)) = Some shifted)
    /\ Forall (fun clause => exists k, names "NOT LIKE" k clause /\ S (S k) < length params)
              notLikes
    /\ (forall pattern, last (exclude f) = Some pattern -> last params = Some pattern).
Proof.
  intros Hsys Hinc.
  assert (includedPatterns f = include f ++ systemPatterns) as Hin.
  { unfold includedPatterns. rewrite Hsys. simpl.
    rewrite bool_decide_eq_true_2; [done |]. destruct (include f); [done | simpl; lia]. }
  assert (excludedPatterns f = exclude f) as Hex
      by (unfold excludedPatterns; rewrite Hsys; apply app_nil_r).
  exists (whereInclude f), (whereExclude f), (includedPatterns f ++ excludedPatterns f).
  split; [apply DiscoveryFacts.getSchemas_trace |].
  split; [by rewrite Hin, Hex, <- app_assoc |].
  split; [unfold whereExclude; by rewrite length_imap, Hex |].
  split; [| split].
  - intros j pattern Hj. pose proof (lookup_lt_Some _ _ _ Hj) as Hlt.
    destruct ((systemPatterns ++ exclude f) !! j) as [shifted |] eqn:E.
    2:{ apply lookup_ge_None in E. rewrite length_app in E. lia. }
    exists shifted. split; [done |]. split.
    + rewrite whereExclude_lookup, Hex, Hj. simpl.
      by replace (j + length (include f) + 1) with (S (j + length (include f))) by lia.
    + rewrite Hin, Hex, <- app_assoc.
      rewrite lookup_app_r by lia.
      by replace (j + length (include f) - length (include f)) with j by lia.
  - apply Forall_lookup. intros j clause H. rewrite whereExclude_lookup, Hex in H.
    destruct (exclude f !! j) as [p |] eqn:E; [| done]. injection H as <-.
    apply lookup_lt_Some in E. exists (j + length (include f)). split.
    + unfold names.
      by replace (j + length (include f) + 1) with (S (j + length (include f))) by lia.
    + rewrite Hin, Hex, !length_app. simpl. lia.
  - intros pattern Hlast. rewrite Hex.
    destruct (exclude f) as [| p l] eqn:E using rev_ind; [done |].
    rewrite last_snoc in Hlast. injection Hlast as ->.
    by rewrite app_assoc, last_snoc.
Qed.

End PlaceholderFacts.

Module PlaceholderScenario.
Import Discovery Entry EntryScenario PlaceholderFacts.

Lemma placeholders_in_range_witness :
  exists likes notLikes params : list string,
    (getSchemas shop {| include := ["pub%"]; exclude := ["pub_test"]; system := true |} []).2
    = [Query (filtered (["NOT pg_is_other_temp_schema(oid)"; "nspname <> 'pg_toast'"]
                          ++ anyOf likes ++ notLikes))
             params]
    /\ length params = length likes + length notLikes
    /\ Forall (fun clause => exists k, names "LIKE" k clause /\ k < length params) likes
    /\ Forall (fun clause => exists k, names "NOT LIKE" k clause /\ k < length params)
              notLikes.
Proof.
  exact (placeholders_in_range
           shop {| include := ["pub%"]; exclude := ["pub_test"]; system := true |} []).
Defined.

Lemma exclusion_numbering_with_system_witness :
  exists likes notLikes : list string,
    (getSchemas shop {| include := ["pub%"]; exclude := ["pub_test"]; system := true |} []).2
    = [Query (filtered (["NOT pg_is_other_temp_schema(oid)"; "nspname <> 'pg_toast'"]
                          ++ anyOf likes ++ notLikes))
             ["pub%"; "information\_schema"; "pg\_%"; "pub_test"]]
    /\ notLikes !! 0 = Some "nspname NOT LIKE $2"
    /\ length notLikes = 1.
Proof.
  destruct (exclusion_numbering_with_system
              shop {| include := ["pub%"]; exclude := ["pub_test"]; system := true |} []
              eq_refl ltac:(discriminate))
    as (likes & notLikes & params & Htrace & -> & Hlen & Hshift & _).
  destruct (Hshift 0 "pub_test" eq_refl) as (shifted & _ & Hclause & _).
  exists likes, notLikes. split; [exact Htrace |]. split; [exact Hclause | exact Hlen].
Defined.

End PlaceholderScenario.

(** ** The phases one row at a time *)

Module PhaseFacts.
Import Catalog Assembler AssemblerFacts.

(** *** Phases 1 and 2 *)

(** The [Db] after one schema per row was created and pushed onto
    [db.schemas]. *)
Definition schemasAdded (rows : list SchemaRow) (db : Db) : Db :=
  {| info := info db;
     schemas := schemas db ++ seq (length (heap db)) (length rows);
     systemSchemas := systemSchemas db;
     heap := heap db ++ (OSchema ∘ emptySchema <$> rows) |}.

Definition systemSchemasAdded (rows : list SchemaRow) (db : Db) : Db :=
  {| info := info db;
     schemas := schemas db;
     systemSchemas := systemSchemas db ++ seq (length (heap db)) (length rows);
     heap := heap db ++ (OSchema ∘ emptySchema <$> rows) |}.

Lemma addSchemas_eq rows : forall db, addSchemas rows db = Ok (tt, schemasAdded rows db).
Proof.
  unfold addSchemas, schemasAdded.
  induction rows as [| row rest IH]; intros db; simpl.
  - rewrite !app_nil_r. by destruct db.
  - unfold bind, addSchema at 1. simpl. rewrite IH. simpl.
    rewrite length_app, <- !app_assoc. simpl.
    by replace (length (heap db) + 1) with (S (length (heap db))) by lia.
Qed.

Lemma addSystemSchemas_eq rows :
  forall db, addSystemSchemas rows db = Ok (tt, systemSchemasAdded rows db).
Proof.
  unfold addSystemSchemas, systemSchemasAdded.
  induction rows as [| row rest IH]; intros db; simpl.
  - rewrite !app_nil_r. by destruct db.
  - unfold bind, addSystemSchema at 1. simpl. rewrite IH. simpl.
    rewrite length_app, <- !app_assoc. simpl.
    by replace (length (heap db) + 1) with (S (length (heap db))) by lia.
Qed.

(** The two schema phases never throw.  Each creates one schema per
    row, in row order, with empty collections, gives it the next free
    reference and appends it to its own root collection; the other
    root collection, the stored info and every older object stay as
    they were. *)
Theorem addSchemas_effect (rows : list SchemaRow) (db : Db) :
  addSchemas rows db = Ok (tt, schemasAdded rows db)
  /\ addSystemSchemas rows db = Ok (tt, systemSchemasAdded rows db).
Proof. split; [apply addSchemas_eq | apply addSystemSchemas_eq]. Qed.

(** The first element of a list of new objects that satisfies [P] is
    what a search over their references finds. *)
Lemma find_new_first (P : Obj -> bool) (objs : list Obj) :
  forall (old : list Obj) k o,
    objs !! k = Some o -> P o = true ->
    (forall j o', j < k -> objs !! j = Some o' -> P o' = false) ->
    find (fun r => match (old ++ objs) !! r with Some o => P o | None => false end)
         (seq (length old) (length objs))
    = Some (length old + k).
Proof.
  induction objs as [| y rest IH]; intros old k o Hk HP Hfirst; [done |].
  simpl. rewrite lookup_app_r, Nat.sub_diag by done. simpl.
  destruct k as [| k]; simpl in Hk.
  - injection Hk as ->. rewrite HP. f_equal. lia.
  - rewrite (Hfirst 0 y) by (done || lia).
    specialize (IH (old ++ [y]) k o Hk HP).
    rewrite length_app, <- app_assoc in IH. simpl in IH.
    replace (length old + 1) with (S (length old)) in IH by lia.
    rewrite IH; [f_equal; lia |].
    intros j o' Hj Ho'. apply (Hfirst (S j)); [lia | done].
Qed.

Lemma find_new_none (P : Obj -> bool) (objs : list Obj) :
  forall (old : list Obj),
    (forall o, o ∈ objs -> P o = false) ->
    find (fun r => match (old ++ objs) !! r with Some o => P o | None => false end)
         (seq (length old) (length objs))
    = None.
Proof.
  induction objs as [| y rest IH]; intros old Hnone; [done |].
  simpl. rewrite lookup_app_r, Nat.sub_diag by done. simpl.
  rewrite (Hnone y) by apply list_elem_of_here.
  specialize (IH (old ++ [y])).
  rewrite length_app, <- app_assoc in IH. simpl in IH.
  replace (length old + 1) with (S (length old)) in IH by lia.
  apply IH. intros o Ho. apply Hnone. by apply list_elem_of_further.
Qed.

Lemma getMaybe_find k collection key db :
  getMaybe k collection key db
  = find (fun r => match heap db !! r with
                   | Some o => bool_decide (attribute k o = Some key)
                   | None => false
                   end) collection.
Proof.
  unfold getMaybe. apply find_ext. intros r.
  destruct (heap db !! r); [done |]. by case_bool_decide.
Qed.

(** Insert and look up: after the user schemas of a new [Db] were
    added, an OID resolves to the schema built from the first row that
    carries it, and an OID that no row carries is NotFound. *)
Theorem addSchemas_lookup (rows : list SchemaRow) (i : DbInfo) (k : nat) (row : SchemaRow) :
  rows !! k = Some row ->
  (forall j row', j < k -> rows !! j = Some row' -> s_oid row' <> s_oid row) ->
  let db := schemasAdded rows (newDb i) in
  get KOid schemas (s_oid row) db = Ok (k, db)
  /\ schemaAt db k = Some (emptySchema row)
  /\ (forall oid, oid ∉ s_oid <$> rows -> get KOid schemas oid db = Throw (NotFound oid)).
Proof.
  intros Hk Hfirst db. split; [| split].
  - pose proof (find_new_first (fun o => bool_decide (attribute KOid o = Some (s_oid row)))
                                (OSchema ∘ emptySchema <$> rows) [] k
                                (OSchema (emptySchema row))) as Hfind.
    simpl in Hfind. rewrite length_fmap in Hfind.
    unfold get. rewrite getMaybe_find. subst db. simpl. rewrite Hfind; [done | | |].
    + by rewrite list_lookup_fmap, Hk.
    + simpl. by rewrite bool_decide_eq_true_2.
    + intros j o' Hj Ho'. rewrite list_lookup_fmap in Ho'.
      destruct (rows !! j) as [row' |] eqn:E; [| done]. injection Ho' as <-.
      simpl. apply bool_decide_eq_false_2. intros [= H]. by eapply Hfirst.
  - unfold schemaAt. subst db. simpl. by rewrite list_lookup_fmap, Hk.
  - intros oid Hoid.
    pose proof (find_new_none (fun o => bool_decide (attribute KOid o = Some oid))
                              (OSchema ∘ emptySchema <$> rows) []) as Hfind.
    simpl in Hfind. rewrite length_fmap in Hfind.
    unfold get. rewrite getMaybe_find. subst db. simpl. rewrite Hfind; [done |].
    intros o Ho. apply list_elem_of_fmap in Ho as (row' & -> & Hrow').
    simpl. apply bool_decide_eq_false_2. intros [= H]. apply Hoid.
    apply list_elem_of_fmap. by exists row'.
Qed.

(** *** Phase 3: types *)

Lemma assoc_Some_elem {V} key (table : list (string * V)) v :
  assoc key table = Some v -> (key, v) ∈ table.
Proof.
  unfold assoc. destruct (find _ table) as [[k v'] |] eqn:E; [| done].
  intros [= <-]. apply find_some in E as [Hin Hk].
  apply bool_decide_eq_true in Hk. simpl in Hk. subst k. by apply list_elem_of_In.
Qed.

Lemma assoc_None_keys {V} key (table : list (string * V)) :
  assoc key table = None <-> key ∉ fst <$> table.
Proof.
  unfold assoc. induction table as [| [k v] table IH]; simpl.
  - split; [intros _; apply not_elem_of_nil | done].
  - rewrite not_elem_of_cons. case_bool_decide as Hk; simpl in Hk.
    + split; [done | intros [Hne _]; congruence].
    + rewrite IH. split; [by intros ?; split | by intros [_ ?]].
Qed.

(** The alias data of a type row.  [internalName] is set exactly for
    the names of the alias table and for the property names that the
    table inherits as an object; when set it is the row's own name,
    except for [numeric], whose table entry overrides it with
    [decimal].  A name outside the table gets no alias name, no short
    name and no length, precision or scale flag. *)
Theorem builtinTypeData_internalName (row : TypeRow) :
  (a_internalName (builtinTypeData row) = None
   <-> t_name row ∉ (fst <$> builtinTypeAliases) ++ inheritedProperties)
  /\ (forall n, a_internalName (builtinTypeData row) = Some n ->
        n = t_name row \/ (t_name row = "numeric" /\ n = "decimal"))
  /\ (t_name row ∉ fst <$> builtinTypeAliases ->
        builtinTypeData row
        = alias None None (a_internalName (builtinTypeData row)) None None None).
Proof.
  unfold builtinTypeData.
  destruct (assoc (t_name row) builtinTypeAliases) as [a |] eqn:E.
  - pose proof (assoc_Some_elem _ _ _ E) as Hin.
    assert (t_name row ∈ fst <$> builtinTypeAliases) as Hkey
        by (apply list_elem_of_fmap; by exists (t_name row, a)).
    split; [| split].
    + assert (t_name row ∈ (fst <$> builtinTypeAliases) ++ inheritedProperties) as Hmem
          by (apply elem_of_app; by left).
      split; [done |]. intros Hout. by destruct (Hout Hmem).
    + intros n [= <-]. unfold builtinTypeAliases in Hin.
      rewrite !elem_of_cons, elem_of_nil in Hin.
      repeat (destruct Hin as [[= -> ->] | Hin]; [simpl; auto |]). done.
    + intros Hout. by destruct Hout.
  - apply assoc_None_keys in E. split; [| split].
    + case_bool_decide as Hin; unfold alias, noAlias; cbn [a_internalName].
      * assert (t_name row ∈ (fst <$> builtinTypeAliases) ++ inheritedProperties) as Hmem
            by (apply elem_of_app; by right).
        split; [done |]. intros Hout. by destruct (Hout Hmem).
      * split; [| done]. intros _ Hout. apply elem_of_app in Hout as [? | ?]; done.
    + intros n. case_bool_decide; simpl; [| done]. intros [= <-]. by left.
    + intros _. by case_bool_decide.
Qed.

(** A type row whose kind letter is none of [d], [e], [b], [c], [r],
    [p], [m] is fatal: after its schema resolved there is no class to
    construct (a TypeError); when the schema does not resolve either,
    NotFound comes first.  Entity, function and constraint rows of an
    unknown kind are ignored instead. *)
Theorem addType_unknown_kind (row : TypeRow) (db : Db) :
  t_kind row ∉ ["d"%char; "e"%char; "b"%char; "c"%char; "r"%char; "p"%char; "m"%char] ->
  (getMaybe KOid (systemSchemas db) (t_schemaOid row) db = None ->
   getMaybe KOid (schemas db) (t_schemaOid row) db = None ->
   addType row db = Throw (NotFound (t_schemaOid row)))
  /\ (forall schema,
        getMaybe KOid (systemSchemas db) (t_schemaOid row) db = Some schema
        \/ (getMaybe KOid (systemSchemas db) (t_schemaOid row) db = None
            /\ getMaybe KOid (schemas db) (t_schemaOid row) db = Some schema) ->
        exists what, addType row db = Throw (TypeError what)).
Proof.
  intros Hkind. rewrite !not_elem_of_cons in Hkind.
  destruct Hkind as (? & ? & ? & ? & ? & ? & ? & _).
  assert (typeKinds (t_kind row) = None) as Hnone
      by (unfold typeKinds; by rewrite !bool_decide_eq_false_2).
  split.
  - intros Hsys Husr. unfold addType. apply bind_Throw.
    unfold typeSchema, get. by rewrite Hsys, Husr.
  - intros schema Hschema. eexists. unfold addType.
    erewrite bind_Ok.
    2:{ unfold typeSchema, get. destruct Hschema as [-> | [-> ->]]; reflexivity. }
    rewrite Hnone. reflexivity.
Qed.

(** *** Phase 4: entities *)

(** The kind letters [addEntities] knows, with the class it
    constructs and the schema collection it pushes onto. *)
Definition entityTable : list (ascii * (EntityKind * SchemaCollection)) :=
  [ ("r"%char, (Table, Tables)); ("p"%char, (Table, Tables)); ("v"%char, (View, Views));
    ("m"%char, (MaterializedView, MaterializedViews)); ("S"%char, (Sequence, Sequences)) ].

(** The [Db] after a new object was allocated and pushed onto a
    collection of the schema [s] behind [schema]. *)
Definition addedToSchema (o : Obj) (c : SchemaCollection) (schema : ref) (s : Schema)
           (db : Db) : Db :=
  set_heap db (<[schema := OSchema (schema_push c (length (heap db)) s)]> (heap db ++ [o])).

Lemma addedToSchema_run o c schema s db :
  schemaAt db schema = Some s ->
  (x ← new o; pushToSchema c schema x) db = Ok (tt, addedToSchema o c schema s db).
Proof.
  intros Hs. erewrite bind_Ok by apply new_eq.
  erewrite pushToSchema_Ok; [reflexivity |].
  simpl. rewrite lookup_app_l by eauto using schemaAt_lt. by apply schemaAt_heap.
Qed.

Lemma get_Ok k collection key db r :
  getMaybe k (collection db) key db = Some r -> get k collection key db = Ok (r, db).
Proof. unfold get. by intros ->. Qed.

Lemma get_Throw k collection key db :
  getMaybe k (collection db) key db = None -> get k collection key db = Throw (NotFound key).
Proof. unfold get. by intros ->. Qed.

(** An entity row whose schema is not among the user schemas is fatal
    (NotFound), whatever its kind and even when the schema is a system
    schema.  Otherwise the kind letter decides: [r] and [p] build a
    table, [v] a view, [m] a materialized view, [S] a sequence, each
    with empty collections, pointing at the schema and appended to the
    matching collection of that schema alone; any other letter builds
    nothing and changes nothing. *)
Theorem addEntity_dispatch (row : EntityRow) (db : Db) :
  (getMaybe KOid (schemas db) (e_schemaOid row) db = None ->
     addEntity row db = Throw (NotFound (e_schemaOid row)))
  /\ (forall schema s,
        getMaybe KOid (schemas db) (e_schemaOid row) db = Some schema ->
        schemaAt db schema = Some s ->
        (forall kind c, (e_kind row, (kind, c)) ∈ entityTable ->
           addEntity row db
           = Ok (tt, addedToSchema
                       (OEntity {| entity_kind := kind; entity_row := row;
                                   entity_schema := schema; columns := []; indexes := [];
                                   constraints := []; foreignKeysToThis := [];
                                   triggers := [] |})
                       c schema s db))
        /\ (e_kind row ∉ fst <$> entityTable -> addEntity row db = Ok (tt, db))).
Proof.
  split.
  - intros Hnone. unfold addEntity. apply bind_Throw. by apply get_Throw.
  - intros schema s Hschema Hs. unfold addEntity.
    erewrite bind_Ok by (by apply get_Ok). split.
    + intros kind c Hin. unfold entityTable in Hin.
      rewrite !elem_of_cons, elem_of_nil in Hin.
      destruct Hin as [[= -> <- <-] | [[= -> <- <-] | [[= -> <- <-] | [[= -> <- <-] |
                       [[= -> <- <-] | []]]]]]; simpl;
        unfold newEntity; by apply addedToSchema_run.
    + intros Hout. unfold entityTable in Hout. simpl in Hout.
      rewrite !not_elem_of_cons in Hout. destruct Hout as (? & ? & ? & ? & ? & _).
      by rewrite !bool_decide_eq_false_2.
Qed.

(** *** Phase 8: functions *)

Definition functionTable : list (ascii * (FunctionKind * SchemaCollection)) :=
  [ ("f"%char, (NormalFunction, NormalFunctions)); ("p"%char, (Procedure, Procedures));
    ("a"%char, (AggregateFunction, AggregateFunctions));
    ("w"%char, (WindowFunction, WindowFunctions)) ].

(** A function row is handled like an entity row: an unknown user
    schema is fatal; [f], [p], [a] and [w] build a normal function, a
    procedure, an aggregate and a window function, appended to the
    matching collection of the schema; any other letter is ignored. *)
Theorem addFunction_dispatch (row : FunctionRow) (db : Db) :
  (getMaybe KOid (schemas db) (f_schemaOid row) db = None ->
     addFunction row db = Throw (NotFound (f_schemaOid row)))
  /\ (forall schema s,
        getMaybe KOid (schemas db) (f_schemaOid row) db = Some schema ->
        schemaAt db schema = Some s ->
        (forall kind c, (f_kind row, (kind, c)) ∈ functionTable ->
           addFunction row db
           = Ok (tt, addedToSchema
                       (OFunction {| function_kind := kind; function_row := row;
                                     function_schema := schema |})
                       c schema s db))
        /\ (f_kind row ∉ fst <$> functionTable -> addFunction row db = Ok (tt, db))).
Proof.
  split.
  - intros Hnone. unfold addFunction. apply bind_Throw. by apply get_Throw.
  - intros schema s Hschema Hs. unfold addFunction.
    erewrite bind_Ok by (by apply get_Ok). split.
    + intros kind c Hin. unfold functionTable in Hin.
      rewrite !elem_of_cons, elem_of_nil in Hin.
      destruct Hin as [[= -> <- <-] | [[= -> <- <-] | [[= -> <- <-] | [[= -> <- <-] | []]]]];
        simpl; unfold newFunction; by apply addedToSchema_run.
    + intros Hout. unfold functionTable in Hout. simpl in Hout.
      rewrite !not_elem_of_cons in Hout. destruct Hout as (? & ? & ? & ? & _).
      by rewrite !bool_decide_eq_false_2.
Qed.

(** *** Phase 5: columns *)

(** The [Db] after a column of [row] was allocated and its parent
    replaced by [parent'], the parent with the column pushed. *)
Definition columnAdded (row : ColumnRow) (parent : ref) (parent' : Obj) (db : Db) : Db :=
  set_heap db
    (<[parent := parent']>
       (heap db ++ [OColumn {| column_parent := parent; column_row := row |}])).

Lemma addColumn_run row parent o o' db :
  (if bool_decide (c_parentKind row = "c"%char)
   then get KClassOid db_typesIncludingEntities (c_parentOid row)
   else get KOid db_entities (c_parentOid row)) db = Ok (parent, db) ->
  heap db !! parent = Some o ->
  match o with
  | OEntity e => Some (OEntity (entity_push Columns (length (heap db)) e))
  | _ => type_push_column (length (heap db)) o
  end = Some o' ->
  addColumn row db = Ok (tt, columnAdded row parent o' db).
Proof.
  intros Hparent Ho Hpush. unfold addColumn.
  erewrite bind_Ok by exact Hparent. erewrite bind_Ok by apply new_eq.
  unfold pushColumn. erewrite mutate_Ok; [reflexivity | | exact Hpush].
  simpl. rewrite lookup_app_l by (by eapply lookup_lt_Some). exact Ho.
Qed.

(** A column row names its parent by [parentKind]: with [c] the parent
    is the type with that [classOid], otherwise the entity with that
    OID; a parent that is not found is fatal (NotFound).  The column
    is the one new object, it points at its parent and is appended to
    the parent's [columns]; nothing else changes. *)
Theorem addColumn_effect (row : ColumnRow) (db : Db) :
  (c_parentKind row <> "c"%char ->
     (getMaybe KOid (db_entities db) (c_parentOid row) db = None ->
        addColumn row db = Throw (NotFound (c_parentOid row)))
     /\ (forall parent e,
           getMaybe KOid (db_entities db) (c_parentOid row) db = Some parent ->
           entityAt db parent = Some e ->
           addColumn row db
           = Ok (tt, columnAdded row parent
                       (OEntity (entity_push Columns (length (heap db)) e)) db)))
  /\ (c_parentKind row = "c"%char ->
        (getMaybe KClassOid (db_typesIncludingEntities db) (c_parentOid row) db = None ->
           addColumn row db = Throw (NotFound (c_parentOid row)))
        /\ (forall parent t,
              getMaybe KClassOid (db_typesIncludingEntities db) (c_parentOid row) db
              = Some parent ->
              typeAt db parent = Some t ->
              type_kind t = CompositeType ->
              addColumn row db
              = Ok (tt, columnAdded row parent
                          (OType {| type_kind := type_kind t; type_row := type_row t;
                                    type_builtin := type_builtin t;
                                    type_schema := type_schema t;
                                    type_columns := type_columns t ++ [length (heap db)];
                                    checkConstraints := checkConstraints t |}) db))).
Proof.
  split; intros Hkind.
  - split.
    + intros Hnone. unfold addColumn. apply bind_Throw.
      rewrite bool_decide_eq_false_2 by done. by apply get_Throw.
    + intros parent e Hparent He. eapply addColumn_run.
      * rewrite bool_decide_eq_false_2 by done. by apply get_Ok.
      * by apply entityAt_heap.
      * reflexivity.
  - split.
    + intros Hnone. unfold addColumn. apply bind_Throw.
      rewrite bool_decide_eq_true_2 by done. by apply get_Throw.
    + intros parent t Hparent Ht Hcomposite. eapply addColumn_run.
      * rewrite bool_decide_eq_true_2 by done. by apply get_Ok.
      * by apply typeAt_heap.
      * simpl. by rewrite Hcomposite.
Qed.

Lemma find_snoc {A} (P : A -> bool) (l : list A) (x : A) :
  find P (l ++ [x]) = match find P l with
                      | Some y => Some y
                      | None => if P x then Some x else None
                      end.
Proof. induction l as [| y l IH]; simpl; [done |]. by destruct (P y). Qed.

Lemma find_agree {A} (P Q : A -> bool) (l : list A) :
  Forall (fun x => P x = Q x) l -> find P l = find Q l.
Proof.
  induction 1 as [| x l Hx _ IH]; simpl; [done |]. by rewrite Hx, IH.
Qed.

(** Insert and look up: after a column was added to an entity, a
    search by attribute number answers as before wherever it found a
    column (the first match wins, also over the new column), and
    finds the new column under its own number otherwise. *)
Theorem addColumn_findColumn (row : ColumnRow) (db : Db) (parent : ref) (e : Entity) :
  entityAt db parent = Some e ->
  Forall (fun c => c < length (heap db)) (columns e) ->
  let column := length (heap db) in
  let db' := columnAdded row parent (OEntity (entity_push Columns column e)) db in
  forall position,
    findColumn db' parent position
    = match findColumn db parent position with
      | Some c => Some c
      | None => if bool_decide (c_attributeNumber row = position) then Some column else None
      end.
Proof.
  intros He Hold column db' position.
  pose proof (entityAt_lt _ _ _ He) as Hlt.
  pose proof (entityAt_heap _ _ _ He) as Hheap.
  unfold findColumn, columnsOf. rewrite He.
  assert (entityAt db' parent = Some (entity_push Columns column e)) as ->.
  { unfold entityAt, db', columnAdded. simpl.
    by rewrite list_lookup_insert_eq by (rewrite length_app; lia). }
  simpl. rewrite find_snoc.
  rewrite (find_agree _ (fun c => bool_decide (heap db !! c ≫= attribute KAttributeNumber
                                                = Some position))).
  2:{ eapply Forall_impl; [exact Hold |]. intros c Hc. simpl.
      destruct (decide (c = parent)) as [-> | Hne].
      - rewrite list_lookup_insert_eq by (rewrite length_app; lia). by rewrite Hheap.
      - rewrite list_lookup_insert_ne by done. by rewrite lookup_app_l. }
  destruct (find _ (columns e)); [done |].
  rewrite list_lookup_insert_ne by (subst column; lia).
  rewrite lookup_app_r, Nat.sub_diag by done. simpl.
  repeat case_bool_decide; simplify_eq; done.
Qed.

(** *** Phase 9: triggers *)

(** A trigger row resolves its entity first and its function second,
    and either one missing is fatal (NotFound with the OID that was
    asked for).  With both resolved the trigger is the one new
    object, it points at both and is appended to the entity's
    [triggers]. *)
Theorem addTrigger_effect (row : TriggerRow) (db : Db) :
  (getMaybe KOid (db_entities db) (g_entityOid row) db = None ->
     addTrigger row db = Throw (NotFound (g_entityOid row)))
  /\ (forall entity,
        getMaybe KOid (db_entities db) (g_entityOid row) db = Some entity ->
        (getMaybe KOid (db_functions db) (g_functionOid row) db = None ->
           addTrigger row db = Throw (NotFound (g_functionOid row)))
        /\ (forall func e,
              getMaybe KOid (db_functions db) (g_functionOid row) db = Some func ->
              entityAt db entity = Some e ->
              entity_owns (entity_kind e) Triggers = true ->
              addTrigger row db
              = Ok (tt, set_heap db
                          (<[entity := OEntity (entity_push Triggers (length (heap db)) e)]>
                             (heap db ++ [OTrigger {| trigger_row := row;
                                                      trigger_function := func;
                                                      trigger_parent := entity |}]))))).
Proof.
  split.
  - intros Hnone. unfold addTrigger. apply bind_Throw. by apply get_Throw.
  - intros entity Hentity. unfold addTrigger.
    erewrite bind_Ok by (by apply get_Ok). split.
    + intros Hnone. apply bind_Throw. by apply get_Throw.
    + intros func e Hfunc He Howns.
      erewrite bind_Ok by (by apply get_Ok). erewrite bind_Ok by apply new_eq.
      erewrite pushToEntity_Ok; [reflexivity | | exact Howns].
      simpl. rewrite lookup_app_l by eauto using entityAt_lt. by apply entityAt_heap.
Qed.

(** *** Phase 7: constraints of a table *)

(** The kinds of table constraints that need no further lookup, with
    the object [addConstraints] builds from the row, the index as it
    resolved and the table. *)
Definition constraintTable
  : list (ascii * (ConstraintRow -> option ref -> ref -> Constraint)) :=
  [ ("p"%char, PrimaryKey); ("u"%char, UniqueConstraint); ("x"%char, ExclusionConstraint);
    ("c"%char, fun row _ table =>
                 CheckConstraint row (OfTable table) (k_checkConstraintExpression row)) ].

(** The [Db] after the constraint [c] was allocated and pushed onto
    the [constraints] of the table [t] behind [table]. *)
Definition constraintAdded (c : Constraint) (table : ref) (t : Entity) (db : Db) : Db :=
  set_heap db
    (<[table := OEntity (entity_push Constraints (length (heap db)) t)]>
       (heap db ++ [OConstraint c])).

Lemma addTableConstraint_run c table t db :
  entityAt db table = Some t ->
  entity_owns (entity_kind t) Constraints = true ->
  addTableConstraint table c db = Ok (tt, constraintAdded c table t db).
Proof.
  intros Ht Howns. unfold addTableConstraint.
  erewrite bind_Ok by apply new_eq.
  erewrite pushToEntity_Ok; [reflexivity | | exact Howns].
  simpl. rewrite lookup_app_l by eauto using entityAt_lt. by apply entityAt_heap.
Qed.

(** A constraint row whose table resolves is a constraint of that
    table, whatever its [typeOid] resolves to.  For the kinds [p],
    [u], [x] and [c] one object is built (with the index as it
    resolved, possibly undefined) and appended to the table's
    [constraints], and nothing else changes, no domain either; a kind
    letter outside [p], [u], [x], [c], [f] builds nothing. *)
Theorem addConstraint_on_table (row : ConstraintRow) (db : Db) (table : ref) (t : Entity) :
  resolveTable row db = Some table ->
  entityAt db table = Some t ->
  entity_owns (entity_kind t) Constraints = true ->
  (forall build, (k_kind row, build) ∈ constraintTable ->
     addConstraint row db
     = Ok (tt, constraintAdded (build row (resolveIndex row db) table) table t db))
  /\ (k_kind row ∉ ["p"%char; "u"%char; "x"%char; "c"%char; "f"%char] ->
      addConstraint row db = Ok (tt, db)).
Proof.
  intros Htable Ht Howns. rewrite addConstraint_unfold, Htable. split.
  - intros build Hin. unfold constraintTable in Hin.
    rewrite !elem_of_cons, elem_of_nil in Hin.
    destruct Hin as [[= -> ->] | [[= -> ->] | [[= -> ->] | [[= -> ->] | []]]]]; simpl;
      by apply addTableConstraint_run.
  - intros Hout. rewrite !not_elem_of_cons in Hout.
    destruct Hout as (? & ? & ? & ? & ? & _). by rewrite !bool_decide_eq_false_2.
Qed.

Lemma mapM_get_Throw k collection keys : forall db key,
  key ∈ keys -> getMaybe k (collection db) key db = None ->
  exists missing,
    missing ∈ keys /\ getMaybe k (collection db) missing db = None
    /\ mapM (get k collection) keys db = Throw (NotFound missing).
Proof.
  induction keys as [| key' keys IH]; intros db key Hin Hnone.
  - by apply elem_of_nil in Hin.
  - simpl. unfold bind, get at 1.
    destruct (getMaybe k (collection db) key' db) as [c |] eqn:E.
    + apply elem_of_cons in Hin as [-> | Hin]; [congruence |].
      destruct (IH db key Hin Hnone) as (missing & Hm & Hmn & ->).
      exists missing. split; [by apply list_elem_of_further | done].
    + exists key'. split; [apply list_elem_of_here | done].
Qed.

(** A foreign-key row whose table and index resolve but one of whose
    constrained column positions is no attribute number of a column
    of the table is fatal: NotFound names a position that does not
    resolve, and no foreign key is built.  (An index with such a position gets an
    undefined slot instead.) *)
Theorem addConstraint_foreignKey_missing_column (row : ConstraintRow) (db : Db)
        (table index : ref) (position : Z) :
  k_kind row = "f"%char ->
  resolveTable row db = Some table ->
  resolveIndex row db = Some index ->
  position ∈ k_constrainedColumnPositions row ->
  getMaybe KAttributeNumber (columnsOf db table) position db = None ->
  exists missing,
    missing ∈ k_constrainedColumnPositions row
    /\ getMaybe KAttributeNumber (columnsOf db table) missing db = None
    /\ addConstraint row db = Throw (NotFound missing).
Proof.
  intros Hkind Htable Hindex Hin Hnone.
  destruct (mapM_get_Throw KAttributeNumber (fun db => columnsOf db table)
                           _ db position Hin Hnone) as (missing & Hm & Hmn & Hrun).
  exists missing. split; [done |]. split; [done |].
  rewrite addConstraint_unfold, Htable, Hkind, Hindex. simpl.
  unfold addForeignKey. by apply bind_Throw.
Qed.

(** A unique constraint as [addConstraints] builds it: [schema] is the
    schema of its table and [fullName] is schema, table and constraint
    name joined by dots, whether or not the index resolved; [columns]
    answers the columns of the index when it resolved and throws a
    TypeError when it did not, the constraint having been built with
    an undefined index. *)
Theorem unique_constraint_assembled (row : ConstraintRow) (db : Db) (table : ref)
        (t : Entity) (s : Schema) :
  k_kind row = "u"%char ->
  resolveTable row db = Some table ->
  entityAt db table = Some t ->
  entity_owns (entity_kind t) Constraints = true ->
  schemaAt db (entity_schema t) = Some s ->
  let this := length (heap db) in
  exists db',
    addConstraint row db = Ok (tt, db')
    /\ constraintAt db' this = Some (UniqueConstraint row (resolveIndex row db) table)
    /\ UniqueConstraintClass.schema this db' = Ok (entity_schema t)
    /\ UniqueConstraintClass.fullName this db'
       = Ok (s_name (schema_row s) +:+ "." +:+ e_name (entity_row t) +:+ "." +:+ k_name row)
    /\ (resolveIndex row db = None ->
          exists what, UniqueConstraintClass.columns this db' = Throw (TypeError what))
    /\ (forall index ix,
          resolveIndex row db = Some index -> indexAt db index = Some ix ->
          UniqueConstraintClass.columns this db'
          = Ok (UniqueConstraintClass.Index_columns ix)).
Proof.
  intros Hkind Htable Ht Howns Hs this.
  pose proof (entityAt_lt _ _ _ Ht) as Hlt.
  pose proof (entityAt_heap _ _ _ Ht) as Hheap.
  pose proof (schemaAt_heap _ _ _ Hs) as Hsheap.
  pose proof (schemaAt_lt _ _ _ Hs) as Hslt.
  assert (entity_schema t <> table) as Hne by congruence.
  set (c := UniqueConstraint row (resolveIndex row db) table).
  exists (constraintAdded c table t db).
  assert (constraintAt (constraintAdded c table t db) this = Some c) as Hthis.
  { unfold constraintAt, constraintAdded. simpl.
    rewrite list_lookup_insert_ne by (subst this; lia).
    by rewrite lookup_app_r, Nat.sub_diag. }
  assert (entityAt (constraintAdded c table t db) table
          = Some (entity_push Constraints this t)) as Htable'.
  { unfold entityAt, constraintAdded. simpl.
    by rewrite list_lookup_insert_eq by (rewrite length_app; lia). }
  assert (schemaAt (constraintAdded c table t db) (entity_schema t) = Some s) as Hs'.
  { unfold schemaAt, constraintAdded. simpl.
    rewrite list_lookup_insert_ne by done. by rewrite lookup_app_l, Hsheap. }
  split; [| split; [exact Hthis | split; [| split; [| split]]]].
  - rewrite addConstraint_unfold, Htable, Hkind. simpl.
    by apply addTableConstraint_run.
  - unfold UniqueConstraintClass.schema. rewrite Hthis. simpl. by rewrite Htable'.
  - unfold UniqueConstraintClass.fullName, UniqueConstraintClass.schema.
    rewrite Hthis. simpl. rewrite Htable'. simpl. by rewrite Hs'.
  - intros Hnone. unfold UniqueConstraintClass.columns. rewrite Hthis. subst c.
    rewrite Hnone. simpl. by eexists.
  - intros index ix Hindex Hix. unfold UniqueConstraintClass.columns.
    rewrite Hthis. subst c. rewrite Hindex. simpl.
    assert (indexAt (constraintAdded (UniqueConstraint row (Some index) table) table t db)
                    index = Some ix) as ->; [| done].
    pose proof (indexAt_heap _ _ _ Hix) as Hixheap.
    unfold indexAt, constraintAdded. simpl.
    rewrite list_lookup_insert_ne by congruence.
    rewrite lookup_app_l by (by eapply lookup_lt_Some). by rewrite Hixheap.
Qed.

End PhaseFacts.

(** ** The graph as a whole: what assembly keeps *)

Module GraphFacts.
Import Catalog Assembler AssemblerFacts PhaseFacts.

(** *** Assembly only adds *)

Definition schema_get (c : SchemaCollection) (s : Schema) : list ref :=
  match c with
  | TypesIncludingEntities => typesIncludingEntities s
  | Tables => tables s
  | Views => views s
  | MaterializedViews => materializedViews s
  | Sequences => sequences s
  | NormalFunctions => normalFunctions s
  | Procedures => procedures s
  | AggregateFunctions => aggregateFunctions s
  | WindowFunctions => windowFunctions s
  end.

Definition entity_get (c : EntityCollection) (e : Entity) : list ref :=
  match c with
  | Columns => columns e
  | Indexes => indexes e
  | Constraints => constraints e
  | ForeignKeysToThis => foreignKeysToThis e
  | Triggers => triggers e
  end.

(** An object and a later state of it: the same class, the same
    row, kind and owner, and collections that kept what they held,
    in order, with new elements at the end only.  Columns,
    constraints, functions and triggers do not change at all. *)
Definition grown (o o' : Obj) : Prop :=
  match o, o' with
  | OSchema s, OSchema s' =>
      schema_row s' = schema_row s
      /\ forall c, schema_get c s `prefix_of` schema_get c s'
  | OType t, OType t' =>
      type_kind t' = type_kind t /\ type_row t' = type_row t
      /\ type_builtin t' = type_builtin t /\ type_schema t' = type_schema t
      /\ type_columns t `prefix_of` type_columns t'
      /\ checkConstraints t `prefix_of` checkConstraints t'
  | OEntity e, OEntity e' =>
      entity_kind e' = entity_kind e /\ entity_row e' = entity_row e
      /\ entity_schema e' = entity_schema e
      /\ forall c, entity_get c e `prefix_of` entity_get c e'
  | OIndex i, OIndex i' =>
      index_row i' = index_row i /\ index_parent i' = index_parent i
      /\ columnsAndExpressions i `prefix_of` columnsAndExpressions i'
  | OColumn c, OColumn c' => c' = c
  | OConstraint c, OConstraint c' => c' = c
  | OFunction f, OFunction f' => f' = f
  | OTrigger t, OTrigger t' => t' = t
  | _, _ => False
  end.

(** A [Db] and a later state of it. *)
Record extends (db db' : Db) : Prop := {
  ext_info : info db' = info db;
  ext_schemas : schemas db `prefix_of` schemas db';
  ext_systemSchemas : systemSchemas db `prefix_of` systemSchemas db';
  ext_objects : forall r o,
    heap db !! r = Some o -> exists o', heap db' !! r = Some o' /\ grown o o';
}.

Lemma grown_refl o : grown o o.
Proof. destruct o; simpl; repeat split; done. Qed.

Lemma grown_trans o1 o2 o3 : grown o1 o2 -> grown o2 o3 -> grown o1 o3.
Proof.
  destruct o1, o2; simpl; try done; destruct o3; simpl; try done.
  - intros [H1 H2] [H3 H4]. split; [congruence |]. intros c.
    etrans; [apply H2 | apply H4].
  - intros (? & ? & ? & ? & ? & ?) (? & ? & ? & ? & ? & ?).
    repeat split; try congruence; by etrans.
  - intros (? & ? & ? & Ha) (? & ? & ? & Hb).
    repeat split; try congruence. intros c. etrans; [apply Ha | apply Hb].
  - congruence.
  - intros (? & ? & ?) (? & ? & ?). repeat split; try congruence; by etrans.
  - congruence.
  - congruence.
  - congruence.
Qed.

Lemma extends_refl db : extends db db.
Proof. split; try done. intros r o Ho. exists o. split; [done | apply grown_refl]. Qed.

Lemma extends_trans db1 db2 db3 : extends db1 db2 -> extends db2 db3 -> extends db1 db3.
Proof.
  intros [Hi1 Hs1 Hy1 Ho1] [Hi2 Hs2 Hy2 Ho2]. split.
  - congruence.
  - by etrans.
  - by etrans.
  - intros r o Ho. destruct (Ho1 r o Ho) as (o2 & Ho2' & Hg1).
    destruct (Ho2 r o2 Ho2') as (o3 & Ho3 & Hg2).
    exists o3. split; [done |]. by eapply grown_trans.
Qed.

Lemma extends_length db db' : extends db db' -> length (heap db) <= length (heap db').
Proof.
  intros [_ _ _ Ho]. destruct (decide (length (heap db) <= length (heap db'))); [done |].
  destruct (heap db !! length (heap db')) as [o |] eqn:E.
  - destruct (Ho _ _ E) as (o' & Ho' & _). apply lookup_lt_Some in Ho'. lia.
  - apply lookup_ge_None in E. lia.
Qed.

(** Allocation and in-place growth. *)
Lemma extends_alloc db o : extends db (set_heap db (heap db ++ [o])).
Proof.
  split; try done. intros r o' Ho'. exists o'. split; [| apply grown_refl].
  simpl. by apply lookup_app_l_Some.
Qed.

Lemma extends_update db r o o' :
  heap db !! r = Some o -> grown o o' -> extends db (set_heap db (<[r := o']> (heap db))).
Proof.
  intros Ho Hg. split; try done. intros x ox Hx. simpl.
  destruct (decide (x = r)) as [-> | Hne].
  - exists o'. split; [| congruence].
    apply list_lookup_insert_eq. by eapply lookup_lt_Some.
  - exists ox. split; [by rewrite list_lookup_insert_ne | apply grown_refl].
Qed.

#[local] Instance SchemaCollection_eq_dec : EqDecision SchemaCollection.
Proof. solve_decision. Defined.

#[local] Instance EntityCollection_eq_dec : EqDecision EntityCollection.
Proof. solve_decision. Defined.

Lemma schema_get_push c c' x s :
  schema_get c' (schema_push c x s)
  = schema_get c' s ++ (if bool_decide (c = c') then [x] else []).
Proof. destruct c, c'; simpl; try case_bool_decide; try done; by rewrite ?app_nil_r. Qed.

Lemma entity_get_push c c' x e :
  entity_get c' (entity_push c x e)
  = entity_get c' e ++ (if bool_decide (c = c') then [x] else []).
Proof. destruct c, c'; simpl; try case_bool_decide; try done; by rewrite ?app_nil_r. Qed.

Lemma grown_schema_push c x s : grown (OSchema s) (OSchema (schema_push c x s)).
Proof. split; [done |]. intros c'. rewrite schema_get_push. by eexists. Qed.

Lemma grown_entity_push c x e : grown (OEntity e) (OEntity (entity_push c x e)).
Proof. repeat split. intros c'. rewrite entity_get_push. by eexists. Qed.

(** Every in-place update the assembler makes is a growth. *)
Definition growing (f : Obj -> option Obj) : Prop :=
  forall o o', f o = Some o' -> grown o o'.

Lemma growing_pushToSchema c x :
  growing (fun o => match o with
                    | OSchema s => Some (OSchema (schema_push c x s))
                    | _ => None
                    end).
Proof. intros [] o' H; simplify_eq. apply grown_schema_push. Qed.

Lemma growing_pushToEntity c x :
  growing (fun o => match o with
                    | OEntity e => if entity_owns (entity_kind e) c
                                   then Some (OEntity (entity_push c x e)) else None
                    | _ => None
                    end).
Proof.
  intros [] o' H; try done. destruct (entity_owns _ _); [| done].
  injection H as <-. apply grown_entity_push.
Qed.

Lemma growing_type_push_column x : growing (type_push_column x).
Proof.
  intros [] o' H; try done. simpl in H. destruct (type_kind t) eqn:E; try done.
  injection H as <-. simpl. repeat split; first [done | reflexivity | by eexists].
Qed.

Lemma growing_type_push_checkConstraint x : growing (type_push_checkConstraint x).
Proof.
  intros [] o' H; try done. simpl in H. destruct (type_kind t) eqn:E; try done.
  injection H as <-. simpl. repeat split; first [done | reflexivity | by eexists].
Qed.

Lemma growing_pushColumn x :
  growing (fun o => match o with
                    | OEntity e => Some (OEntity (entity_push Columns x e))
                    | _ => type_push_column x o
                    end).
Proof.
  intros o o' H. destruct o; try done.
  - by apply growing_type_push_column in H.
  - injection H as <-. apply grown_entity_push.
Qed.

Lemma growing_pushColumnOrExpression x :
  growing (fun o => match o with
                    | OIndex i =>
                        Some (OIndex {| index_row := index_row i;
                                        index_parent := index_parent i;
                                        columnsAndExpressions :=
                                          columnsAndExpressions i ++ [x] |})
                    | _ => None
                    end).
Proof. intros [] o' H; simplify_eq. simpl. repeat split. by eexists. Qed.

(** A step of the assembler after which the [Db] is a later state of
    the [Db] before, with the same root collections. *)
Definition grows {A} (m : M A) : Prop :=
  forall db a db', m db = Ok (a, db') ->
    extends db db' /\ schemas db' = schemas db /\ systemSchemas db' = systemSchemas db.

Lemma grows_ret {A} (a : A) : grows (ret a).
Proof. intros db a' db' [= _ <-]. split; [apply extends_refl | done]. Qed.

Lemma grows_mret {A} (a : A) : grows (mret a : M A).
Proof. apply grows_ret. Qed.

Lemma grows_throw {A} e : grows (throw e : M A).
Proof. by intros db a db' H. Qed.

Lemma grows_read {A} (f : Db -> A) : grows (read f).
Proof. intros db a db' [= _ <-]. split; [apply extends_refl | done]. Qed.

Lemma grows_get k collection key : grows (get k collection key).
Proof.
  intros db a db' H. unfold get in H.
  destruct (getMaybe k (collection db) key db); [| done].
  injection H as _ <-. split; [apply extends_refl | done].
Qed.

Lemma grows_typeSchema oid : grows (typeSchema oid).
Proof.
  intros db a db' H. unfold typeSchema in H.
  destruct (getMaybe KOid (systemSchemas db) oid db).
  - injection H as _ <-. split; [apply extends_refl | done].
  - by eapply grows_get.
Qed.

Lemma grows_referencedTable index : grows (referencedTable index).
Proof.
  intros db a db' H. unfold referencedTable in H.
  destruct (indexAt db index); [| done].
  injection H as _ <-. split; [apply extends_refl | done].
Qed.

Lemma grows_bind {A B} (m : M A) (k : A -> M B) :
  grows m -> (forall a, grows (k a)) -> grows (bind m k).
Proof.
  intros Hm Hk db b db' H. unfold bind in H.
  destruct (m db) as [[a db1] | e] eqn:E; [| done].
  destruct (Hm _ _ _ E) as (H1 & H2 & H3). destruct (Hk _ _ _ _ H) as (H4 & H5 & H6).
  split; [by eapply extends_trans | split; congruence].
Qed.

Lemma grows_mbind {A B} (m : M A) (k : A -> M B) :
  grows m -> (forall a, grows (k a)) -> grows (m ≫= k).
Proof. apply grows_bind. Qed.

Lemma grows_forEach {A} (f : A -> M unit) rows :
  (forall row, grows (f row)) -> grows (forEach f rows).
Proof.
  intros Hf. induction rows as [| row rest IH]; simpl.
  - apply grows_ret.
  - apply grows_bind; [apply Hf | by intros _].
Qed.

Lemma grows_mapM {A B} (f : A -> M B) l : (forall x, grows (f x)) -> grows (mapM f l).
Proof.
  intros Hf. induction l as [| x rest IH]; simpl.
  - apply grows_ret.
  - apply grows_bind; [apply Hf | intros y].
    apply grows_bind; [apply IH | intros ys; apply grows_ret].
Qed.

Lemma grows_new o : grows (new o).
Proof. intros db a db' [= _ <-]. split; [apply extends_alloc | done]. Qed.

Lemma grows_mutate what r f : growing f -> grows (mutate what r f).
Proof.
  intros Hf db a db' H. unfold mutate in H.
  destruct (heap db !! r) as [o |] eqn:E; [| done]. simpl in H.
  destruct (f o) as [o' |] eqn:Ef; [| done]. injection H as _ <-.
  split; [| done]. eapply extends_update; [exact E | by apply Hf].
Qed.

Create HintDb grows.
#[local] Hint Resolve grows_ret grows_mret grows_throw grows_read grows_get
  grows_typeSchema grows_referencedTable grows_new : grows.
#[local] Hint Extern 1 (grows (mutate _ _ _)) =>
  (apply grows_mutate;
   first [ apply growing_pushToSchema | apply growing_pushToEntity
         | apply growing_pushColumn | apply growing_pushColumnOrExpression
         | apply growing_type_push_checkConstraint ]) : grows.

(** Walks a function body: binds, conditionals, loops and primitives. *)
Ltac grows_steps :=
  repeat first
    [ progress intros
    | apply grows_mbind
    | apply grows_bind
    | apply grows_forEach
    | apply grows_mapM
    | solve [auto with grows]
    | case_bool_decide
    | match goal with
      | |- grows (match ?x with _ => _ end) => destruct x
      | |- grows (if ?b then _ else _) => destruct b
      end ].

Lemma grows_eachPosition index parent positions :
  forall indexExpressions, grows (eachPosition index parent positions indexExpressions).
Proof.
  induction positions as [| p rest IH]; intros es; simpl.
  - apply grows_ret.
  - unfold pushColumnOrExpression. case_bool_decide; [| destruct es]; grows_steps; apply IH.
Qed.

Lemma grows_addTypes rows : grows (addTypes rows).
Proof. unfold addTypes, addType, pushToSchema. grows_steps. Qed.

Lemma grows_addEntities rows : grows (addEntities rows).
Proof. unfold addEntities, addEntity, newEntity, pushToSchema. grows_steps. Qed.

Lemma grows_addColumns rows : grows (addColumns rows).
Proof. unfold addColumns, addColumn, pushColumn. grows_steps. Qed.

Lemma grows_addIndexes rows : grows (addIndexes rows).
Proof.
  unfold addIndexes, addIndex, pushToEntity. grows_steps. apply grows_eachPosition.
Qed.

Lemma grows_addConstraints rows : grows (addConstraints rows).
Proof.
  unfold addConstraints, addConstraint, addTableConstraint, addForeignKey, pushToEntity.
  grows_steps.
Qed.

Lemma grows_addFunctions rows : grows (addFunctions rows).
Proof. unfold addFunctions, addFunction, newFunction, pushToSchema. grows_steps. Qed.

Lemma grows_addTriggers rows : grows (addTriggers rows).
Proof. unfold addTriggers, addTrigger, pushToEntity. grows_steps. Qed.

(** The seven phases after the schemas. *)
Definition addContents (queryResults : QueryResults) : M unit :=
  addTypes (typeRows queryResults);;
  addEntities (entityRows queryResults);;
  addColumns (columnRows queryResults);;
  addIndexes (indexRows queryResults);;
  addConstraints (constraintRows queryResults);;
  addFunctions (functionRows queryResults);;
  addTriggers (triggerRows queryResults).

Lemma grows_addContents queryResults : grows (addContents queryResults).
Proof.
  unfold addContents.
  repeat (apply grows_mbind; [| intros _]);
    auto using grows_addTypes, grows_addEntities, grows_addColumns, grows_addIndexes,
      grows_addConstraints, grows_addFunctions, grows_addTriggers.
Qed.

Lemma addObjects_phases queryResults db :
  addObjects queryResults db
  = addContents queryResults
      (systemSchemasAdded (systemSchemaRows queryResults)
         (schemasAdded (schemaRows queryResults) db)).
Proof.
  unfold addObjects, addContents.
  erewrite bind_Ok by apply addSchemas_eq.
  erewrite bind_Ok by apply addSystemSchemas_eq. reflexivity.
Qed.

Lemma extends_schemasAdded rows db : extends db (schemasAdded rows db).
Proof.
  split; simpl; try done.
  - by eexists.
  - intros r o Ho. exists o. split; [by apply lookup_app_l_Some | apply grown_refl].
Qed.

Lemma extends_systemSchemasAdded rows db : extends db (systemSchemasAdded rows db).
Proof.
  split; simpl; try done.
  - by eexists.
  - intros r o Ho. exists o. split; [by apply lookup_app_l_Some | apply grown_refl].
Qed.

(** Whatever [Db] the nine phases start from, they only add to it:
    the stored info is untouched, the root collections keep their
    elements in order, every object that existed is still there under
    its reference, of the same class, with the same row, kind and
    owner, and each of its collections has kept its elements in
    order, new ones coming last. *)
Theorem addObjects_only_adds (queryResults : QueryResults) (db db' : Db) :
  addObjects queryResults db = Ok (tt, db') -> extends db db'.
Proof.
  rewrite addObjects_phases. intros H.
  apply grows_addContents in H as [H _].
  eapply extends_trans; [apply extends_schemasAdded |].
  eapply extends_trans; [apply extends_systemSchemasAdded | exact H].
Qed.

End GraphFacts.

(** ** Reference closure of the graph *)

Module ClosureFacts.
Import Catalog Assembler AssemblerFacts PhaseFacts GraphFacts.

(** *** References and what they point at *)

(** What a reference is expected to lead to. *)
Inductive Expect :=
| ASchema
| AType
| ADomain
| ATypeIn (schema : ref)
| AParent
| AnEntity
| ATable
| AnEntityIn (kind : EntityKind) (schema : ref)
| AColumnOf (parent : ref)
| AnIndex
| AnIndexOf (parent : ref)
| AConstraintOf (table : ref)
| ACheckOf (domain : ref)
| AForeignKeyTo (table : ref)
| AFunction
| AFunctionIn (kind : FunctionKind) (schema : ref)
| ATriggerOf (parent : ref).

(** The table a constraint was built for. *)
Definition tableOf (c : Constraint) : option ref :=
  match c with
  | PrimaryKey _ _ table | UniqueConstraint _ _ table | ExclusionConstraint _ _ table
  | CheckConstraint _ (OfTable table) _ | ForeignKey _ table _ _ _ _ _ => Some table
  | CheckConstraint _ (OfDomain _) _ => None
  end.

(** The object [o] is what [x] expects, in the state [db]. *)
Definition meets (db : Db) (x : Expect) (o : Obj) : Prop :=
  match x, o with
  | ASchema, OSchema _ => True
  | AType, OType _ => True
  | ADomain, OType t => type_kind t = Domain
  | ATypeIn schema, OType t => type_schema t = schema
  | AParent, (OEntity _ | OType _) => True
  | AnEntity, OEntity _ => True
  | ATable, OEntity e => entity_kind e = Table
  | AnEntityIn kind schema, OEntity e => entity_kind e = kind /\ entity_schema e = schema
  | AColumnOf parent, OColumn c => column_parent c = parent
  | AnIndex, OIndex _ => True
  | AnIndexOf parent, OIndex i => index_parent i = parent
  | AConstraintOf table, OConstraint c => tableOf c = Some table
  | ACheckOf domain, OConstraint (CheckConstraint _ parent _) => parent = OfDomain domain
  | AForeignKeyTo table, OConstraint (ForeignKey _ _ index _ _ _ _) =>
      (index_parent <$> indexAt db index) = Some table
  | AFunction, OFunction _ => True
  | AFunctionIn kind schema, OFunction f => function_kind f = kind /\ function_schema f = schema
  | ATriggerOf parent, OTrigger t => trigger_parent t = parent
  | _, _ => False
  end.

(** What the elements of a collection are expected to be: objects of
    the class of the collection that name the owner as their schema,
    parent or table. *)
Definition schemaExpect (c : SchemaCollection) (schema : ref) : Expect :=
  match c with
  | TypesIncludingEntities => ATypeIn schema
  | Tables => AnEntityIn Table schema
  | Views => AnEntityIn View schema
  | MaterializedViews => AnEntityIn MaterializedView schema
  | Sequences => AnEntityIn Sequence schema
  | NormalFunctions => AFunctionIn NormalFunction schema
  | Procedures => AFunctionIn Procedure schema
  | AggregateFunctions => AFunctionIn AggregateFunction schema
  | WindowFunctions => AFunctionIn WindowFunction schema
  end.

Definition entityExpect (c : EntityCollection) (entity : ref) : Expect :=
  match c with
  | Columns => AColumnOf entity
  | Indexes => AnIndexOf entity
  | Constraints => AConstraintOf entity
  | ForeignKeysToThis => AForeignKeyTo entity
  | Triggers => ATriggerOf entity
  end.

Definition schemaCollections : list SchemaCollection :=
  [ TypesIncludingEntities; Tables; Views; MaterializedViews; Sequences;
    NormalFunctions; Procedures; AggregateFunctions; WindowFunctions ].

Definition entityCollections : list EntityCollection :=
  [ Columns; Indexes; Constraints; ForeignKeysToThis; Triggers ].

Definition expecting (x : Expect) (l : list ref) : list (ref * Expect) :=
  (fun r => (r, x)) <$> l.

(** Every reference that the object [o], stored under [r], holds,
    with what it is expected to lead to. *)
Definition references (r : ref) (o : Obj) : list (ref * Expect) :=
  match o with
  | OSchema s =>
      c ← schemaCollections; expecting (schemaExpect c r) (schema_get c s)
  | OType t =>
      (type_schema t, ASchema)
        :: expecting (AColumnOf r) (type_columns t)
        ++ expecting (ACheckOf r) (checkConstraints t)
  | OEntity e =>
      (entity_schema e, ASchema)
        :: (c ← entityCollections; expecting (entityExpect c r) (entity_get c e))
  | OColumn c => [(column_parent c, AParent)]
  | OIndex i =>
      (index_parent i, AnEntity)
        :: expecting (AColumnOf (index_parent i)) (UniqueConstraintClass.Index_columns i)
  | OConstraint (PrimaryKey _ index table)
  | OConstraint (UniqueConstraint _ index table)
  | OConstraint (ExclusionConstraint _ index table) =>
      (table, ATable) :: expecting AnIndex (option_list index)
  | OConstraint (CheckConstraint _ (OfTable table) _) => [(table, ATable)]
  | OConstraint (CheckConstraint _ (OfDomain domain) _) => [(domain, ADomain)]
  | OConstraint (ForeignKey _ table index cols _ _ _) =>
      (table, ATable) :: (index, AnIndex) :: expecting (AColumnOf table) cols
  | OFunction f => [(function_schema f, ASchema)]
  | OTrigger t => [(trigger_function t, AFunction); (trigger_parent t, AnEntity)]
  end.

Definition pointsTo (db : Db) (x : ref * Expect) : Prop :=
  exists o, heap db !! x.1 = Some o /\ meets db x.2 o.

(** A well-formed graph: every reference of the root collections and
    of every object leads to an object of the graph, of the class and
    with the owner that the place of the reference asks for. *)
Record wellFormed (db : Db) : Prop := {
  wf_roots : Forall (fun r => pointsTo db (r, ASchema)) (schemas db ++ systemSchemas db);
  wf_objects : forall r o, heap db !! r = Some o -> Forall (pointsTo db) (references r o);
}.

(** *** Later states meet the same expectations *)

Lemma meets_extends db db' x o o' :
  extends db db' -> grown o o' -> meets db x o -> meets db' x o'.
Proof.
  intros Hext Hg Hm.
  destruct x, o; simpl in Hm; try done; destruct o'; simpl in Hg; try done; simpl;
    try (destruct Hg as (? & ? & ? & ? & ? & ?); congruence);
    try (destruct Hg as (? & ? & ? & ?); destruct_and?; split; congruence);
    try (destruct Hg as (? & ? & ?); congruence);
    try (subst; done).
  subst c0. destruct c; try done.
  unfold indexAt in *. destruct (heap db !! index) as [[] |] eqn:E; try done.
  destruct (ext_objects _ _ Hext _ _ E) as (o' & -> & Hgi).
  destruct o'; try done. simpl in *. destruct Hgi as (_ & -> & _). done.
Qed.

Lemma pointsTo_extends db db' x : extends db db' -> pointsTo db x -> pointsTo db' x.
Proof.
  intros Hext (o & Ho & Hm). destruct (ext_objects _ _ Hext _ _ Ho) as (o' & Ho' & Hg).
  exists o'. split; [done |]. by eapply meets_extends.
Qed.

Lemma pointsTo_weaken db r x y :
  (forall o, meets db x o -> meets db y o) -> pointsTo db (r, x) -> pointsTo db (r, y).
Proof. intros H (o & Ho & Hm). exists o. split; [done |]. by apply H. Qed.

(** *** Allocation and growth keep a graph well formed *)

Lemma wellFormed_alloc db o :
  wellFormed db ->
  Forall (pointsTo db) (references (length (heap db)) o) ->
  wellFormed (set_heap db (heap db ++ [o])).
Proof.
  intros [Hroots Hobjects] Ho.
  pose proof (extends_alloc db o) as Hext. split.
  - simpl. eapply Forall_impl; [exact Hroots |]. intros r. by apply pointsTo_extends.
  - intros r o' Ho'. simpl in Ho'.
    destruct (decide (r < length (heap db))) as [Hlt | Hge].
    + rewrite lookup_app_l in Ho' by done.
      eapply Forall_impl; [by eapply Hobjects |]. intros x. by apply pointsTo_extends.
    + assert (r = length (heap db)) as ->.
      { apply lookup_lt_Some in Ho'. rewrite length_app in Ho'. simpl in Ho'. lia. }
      rewrite lookup_app_r, Nat.sub_diag in Ho' by done. injection Ho' as <-.
      eapply Forall_impl; [exact Ho |]. intros x. by apply pointsTo_extends.
Qed.

Lemma wellFormed_update db r o o' :
  wellFormed db ->
  heap db !! r = Some o ->
  grown o o' ->
  (forall y, y ∈ references r o' -> y ∈ references r o \/ pointsTo db y) ->
  wellFormed (set_heap db (<[r := o']> (heap db))).
Proof.
  intros [Hroots Hobjects] Ho Hg Hnew.
  pose proof (extends_update db r o o' Ho Hg) as Hext. split.
  - simpl. eapply Forall_impl; [exact Hroots |]. intros x. by apply pointsTo_extends.
  - intros x ox Hx. simpl in Hx. destruct (decide (x = r)) as [-> | Hne].
    + rewrite list_lookup_insert_eq in Hx by (by eapply lookup_lt_Some).
      injection Hx as <-. apply Forall_forall. intros y Hy.
      apply (pointsTo_extends db); [done |].
      destruct (Hnew y Hy) as [Hold | Hpoints]; [| done].
      pose proof (Hobjects r o Ho) as Hall. rewrite Forall_forall in Hall. by apply Hall.
    + rewrite list_lookup_insert_ne in Hx by done.
      eapply Forall_impl; [by eapply Hobjects |]. intros y. by apply pointsTo_extends.
Qed.

(** A new object pushed onto one collection of an owner. *)
Lemma wellFormed_alloc_push db owner o o' new :
  wellFormed db ->
  heap db !! owner = Some o ->
  grown o o' ->
  Forall (pointsTo db) (references (length (heap db)) new) ->
  (forall y, y ∈ references owner o' ->
     y ∈ references owner o \/ exists x, y = (length (heap db), x) /\ meets db x new) ->
  wellFormed (set_heap db (<[owner := o']> (heap db ++ [new]))).
Proof.
  intros Hwf Ho Hg Hnew Hpush.
  pose proof (wellFormed_alloc db new Hwf Hnew) as Hwf1.
  pose proof (extends_alloc db new) as Hext.
  apply (wellFormed_update (set_heap db (heap db ++ [new])) owner o o' Hwf1).
  - simpl. by apply lookup_app_l_Some.
  - done.
  - intros y Hy. destruct (Hpush y Hy) as [Hold | (x & -> & Hm)]; [by left | right].
    exists new. split.
    + simpl. by rewrite lookup_app_r, Nat.sub_diag.
    + simpl. eapply meets_extends; [exact Hext | apply grown_refl | exact Hm].
Qed.

(** *** What the collections hold *)

Lemma references_schema db r s c x :
  wellFormed db -> heap db !! r = Some (OSchema s) -> x ∈ schema_get c s ->
  pointsTo db (x, schemaExpect c r).
Proof.
  intros Hwf Hs Hx. pose proof (wf_objects _ Hwf _ _ Hs) as Hall.
  rewrite Forall_forall in Hall. apply Hall. unfold references.
  apply list_elem_of_bind. exists c. split.
  - unfold expecting. apply list_elem_of_fmap. by exists x.
  - unfold schemaCollections. destruct c; repeat constructor.
Qed.

Lemma references_entity db r e c x :
  wellFormed db -> heap db !! r = Some (OEntity e) -> x ∈ entity_get c e ->
  pointsTo db (x, entityExpect c r).
Proof.
  intros Hwf He Hx. pose proof (wf_objects _ Hwf _ _ He) as Hall.
  rewrite Forall_forall in Hall. apply Hall. unfold references.
  apply elem_of_cons. right.
  apply list_elem_of_bind. exists c. split.
  - unfold expecting. apply list_elem_of_fmap. by exists x.
  - unfold entityCollections. destruct c; repeat constructor.
Qed.

Lemma overSchemas_elem db f x :
  x ∈ overSchemas db f ->
  exists r s, r ∈ schemas db /\ heap db !! r = Some (OSchema s) /\ x ∈ f s.
Proof.
  unfold overSchemas. intros H. apply list_elem_of_In, in_concat in H as (l & Hl & Hx).
  apply list_elem_of_In, list_elem_of_omap in Hl as (r & Hr & Hf).
  destruct (schemaAt db r) as [s |] eqn:E; [| done]. injection Hf as <-.
  exists r, s. split; [done |]. split; [by apply schemaAt_heap | by apply list_elem_of_In].
Qed.

Lemma getMaybe_elem k collection key db r :
  getMaybe k collection key db = Some r -> r ∈ collection.
Proof. unfold getMaybe. intros H. apply find_some in H as [H _]. by apply list_elem_of_In. Qed.

Lemma entities_pointsTo db x :
  wellFormed db -> x ∈ db_entities db -> pointsTo db (x, AnEntity).
Proof.
  intros Hwf Hx. apply overSchemas_elem in Hx as (r & s & _ & Hs & Hx).
  rewrite !elem_of_app in Hx.
  destruct Hx as [Hx | [Hx | [Hx | Hx]]];
    [ apply (references_schema db r s Tables) in Hx
    | apply (references_schema db r s Views) in Hx
    | apply (references_schema db r s MaterializedViews) in Hx
    | apply (references_schema db r s Sequences) in Hx ]; try done;
    (eapply pointsTo_weaken; [| exact Hx]); by intros [].
Qed.

Lemma tables_pointsTo db x :
  wellFormed db -> x ∈ db_tables db -> pointsTo db (x, ATable).
Proof.
  intros Hwf Hx. apply overSchemas_elem in Hx as (r & s & _ & Hs & Hx).
  apply (references_schema db r s Tables) in Hx; [| done | done].
  eapply pointsTo_weaken; [| exact Hx]. intros []; simpl; try done. by intros [? _].
Qed.

Lemma types_pointsTo db x :
  wellFormed db -> x ∈ db_typesIncludingEntities db -> pointsTo db (x, AType).
Proof.
  intros Hwf Hx. apply overSchemas_elem in Hx as (r & s & _ & Hs & Hx).
  apply (references_schema db r s TypesIncludingEntities) in Hx; [| done | done].
  eapply pointsTo_weaken; [| exact Hx]. by intros [].
Qed.

Lemma functions_pointsTo db x :
  wellFormed db -> x ∈ db_functions db -> pointsTo db (x, AFunction).
Proof.
  intros Hwf Hx. apply overSchemas_elem in Hx as (r & s & _ & Hs & Hx).
  rewrite !elem_of_app in Hx.
  destruct Hx as [Hx | [Hx | [Hx | Hx]]];
    [ apply (references_schema db r s NormalFunctions) in Hx
    | apply (references_schema db r s Procedures) in Hx
    | apply (references_schema db r s AggregateFunctions) in Hx
    | apply (references_schema db r s WindowFunctions) in Hx ]; try done;
    (eapply pointsTo_weaken; [| exact Hx]); by intros [].
Qed.

Lemma indexes_pointsTo db x :
  wellFormed db -> x ∈ db_indexes db -> pointsTo db (x, AnIndex).
Proof.
  intros Hwf Hx. unfold db_indexes in Hx.
  apply list_elem_of_In, in_concat in Hx as (l & Hl & Hx).
  apply list_elem_of_In, list_elem_of_omap in Hl as (r & Hr & Hf).
  destruct (entityAt db r) as [e |] eqn:E; [| done]. injection Hf as <-.
  apply list_elem_of_In in Hx.
  apply (references_entity db r e Indexes) in Hx; [| done | by apply entityAt_heap].
  eapply pointsTo_weaken; [| exact Hx]. by intros [].
Qed.

Lemma columns_pointsTo db parent x :
  wellFormed db -> x ∈ columnsOf db parent -> pointsTo db (x, AColumnOf parent).
Proof.
  intros Hwf Hx. unfold columnsOf in Hx.
  destruct (entityAt db parent) as [e |] eqn:E; [| by apply elem_of_nil in Hx].
  by apply (references_entity db parent e Columns); [| apply entityAt_heap |].
Qed.

(** *** What a push adds to the references of the owner *)

Lemma references_schema_push r c x s y :
  y ∈ references r (OSchema (schema_push c x s)) ->
  y ∈ references r (OSchema s) \/ y = (x, schemaExpect c r).
Proof.
  unfold references. rewrite !list_elem_of_bind. intros (c' & Hy & Hc').
  rewrite schema_get_push in Hy. unfold expecting in Hy.
  rewrite fmap_app, elem_of_app in Hy. destruct Hy as [Hy | Hy].
  - left. by exists c'.
  - right. case_bool_decide; [| by apply elem_of_nil in Hy].
    subst c'. by apply list_elem_of_singleton in Hy.
Qed.

Lemma references_entity_push r c x e y :
  y ∈ references r (OEntity (entity_push c x e)) ->
  y ∈ references r (OEntity e) \/ y = (x, entityExpect c r).
Proof.
  unfold references. rewrite !elem_of_cons, !list_elem_of_bind.
  intros [Hy | (c' & Hy & Hc')].
  - left. left. by destruct c.
  - rewrite entity_get_push in Hy. unfold expecting in Hy.
    rewrite fmap_app, elem_of_app in Hy. destruct Hy as [Hy | Hy].
    + left. right. by exists c'.
    + right. case_bool_decide; [| by apply elem_of_nil in Hy].
      subst c'. by apply list_elem_of_singleton in Hy.
Qed.

Lemma references_type_push_column r x o o' y :
  type_push_column x o = Some o' ->
  y ∈ references r o' -> y ∈ references r o \/ y = (x, AColumnOf r).
Proof.
  destruct o as [| t | | | | | |]; try done. simpl.
  destruct (type_kind t); try done. intros [= <-]. simpl.
  unfold expecting. rewrite fmap_app, !elem_of_cons, !elem_of_app. simpl.
  rewrite list_elem_of_singleton. tauto.
Qed.

Lemma references_type_push_checkConstraint r x o o' y :
  type_push_checkConstraint x o = Some o' ->
  y ∈ references r o' -> y ∈ references r o \/ y = (x, ACheckOf r).
Proof.
  destruct o as [| t | | | | | |]; try done. simpl.
  destruct (type_kind t); try done. intros [= <-]. simpl.
  unfold expecting. rewrite fmap_app, !elem_of_cons, !elem_of_app. simpl.
  rewrite list_elem_of_singleton. tauto.
Qed.

Lemma references_index_push r i slot y :
  y ∈ references r (OIndex {| index_row := index_row i; index_parent := index_parent i;
                              columnsAndExpressions := columnsAndExpressions i ++ [slot] |}) ->
  y ∈ references r (OIndex i)
  \/ exists c, slot = IsColumn c /\ y = (c, AColumnOf (index_parent i)).
Proof.
  simpl. unfold UniqueConstraintClass.Index_columns, expecting. simpl.
  rewrite omap_app, fmap_app, !elem_of_cons, elem_of_app.
  intros [Hy | [Hy | Hy]]; [by left; left | by left; right |].
  right. destruct slot as [c | |]; simpl in Hy; try by apply elem_of_nil in Hy.
  apply list_elem_of_singleton in Hy. by exists c.
Qed.

(** *** The phases keep a graph well formed *)

Definition keepsWellFormed {A} (m : M A) : Prop :=
  forall db a db', wellFormed db -> m db = Ok (a, db') -> wellFormed db'.

Lemma keepsWellFormed_bind {A B} (m : M A) (k : A -> M B) :
  keepsWellFormed m -> (forall a, keepsWellFormed (k a)) -> keepsWellFormed (m ≫= k).
Proof.
  intros Hm Hk db b db' Hwf H. unfold mbind, M_bind, bind in H.
  destruct (m db) as [[a db1] | e] eqn:E; [| done].
  eapply Hk; [| exact H]. by eapply Hm.
Qed.

Lemma keepsWellFormed_forEach {A} (f : A -> M unit) rows :
  (forall row, keepsWellFormed (f row)) -> keepsWellFormed (forEach f rows).
Proof.
  intros Hf. induction rows as [| row rest IH]; simpl.
  - by intros db a db' Hwf [= _ <-].
  - apply (keepsWellFormed_bind (f row) (fun _ => forEach f rest)); [apply Hf | by intros _].
Qed.

Lemma bind_inv {A B} (m : M A) (k : A -> M B) db b db' :
  (m ≫= k) db = Ok (b, db') ->
  exists a db1, m db = Ok (a, db1) /\ k a db1 = Ok (b, db').
Proof.
  unfold mbind, M_bind, bind. destruct (m db) as [[a db1] | e]; [| done].
  intros H. by exists a, db1.
Qed.

Lemma get_inv k collection key db r db' :
  get k collection key db = Ok (r, db') -> db' = db /\ r ∈ collection db.
Proof.
  unfold get. destruct (getMaybe k (collection db) key db) as [x |] eqn:E; [| done].
  intros [= <- <-]. split; [done |]. by eapply getMaybe_elem.
Qed.

Lemma mutate_inv what r f db db' :
  mutate what r f db = Ok (tt, db') ->
  exists o o', heap db !! r = Some o /\ f o = Some o'
               /\ db' = set_heap db (<[r := o']> (heap db)).
Proof.
  unfold mutate. destruct (heap db !! r) as [o |]; [| done]. simpl.
  destruct (f o) as [o' |] eqn:E; [| done]. intros [= <-]. by exists o, o'.
Qed.

Lemma meets_heap db db' x o : heap db' = heap db -> meets db x o -> meets db' x o.
Proof.
  intros Hh. destruct x, o; simpl; try done. destruct c; try done.
  unfold indexAt. by rewrite Hh.
Qed.

Lemma pointsTo_heap db db' x : heap db' = heap db -> pointsTo db x -> pointsTo db' x.
Proof.
  intros Hh (o & Ho & Hm). exists o. rewrite Hh. split; [done |]. by eapply meets_heap.
Qed.

Lemma wellFormed_heap db db' :
  heap db' = heap db ->
  Forall (fun r => pointsTo db (r, ASchema)) (schemas db' ++ systemSchemas db') ->
  wellFormed db -> wellFormed db'.
Proof.
  intros Hh Hroots [_ Hobjects]. split.
  - eapply Forall_impl; [exact Hroots |]. intros r. by apply pointsTo_heap.
  - intros r o Ho. rewrite Hh in Ho.
    eapply Forall_impl; [by eapply Hobjects |]. intros x. by apply pointsTo_heap.
Qed.

Lemma wellFormed_newSchema db row :
  wellFormed db -> wellFormed (set_heap db (heap db ++ [OSchema (emptySchema row)])).
Proof. intros Hwf. apply wellFormed_alloc; [done |]. apply Forall_nil_2. Qed.

Lemma keepsWellFormed_addSchema row : keepsWellFormed (addSchema row).
Proof.
  intros db [] db' Hwf H. unfold addSchema in H.
  apply bind_inv in H as (x & db1 & [= <- <-] & [= <-]).
  pose proof (wellFormed_newSchema db row Hwf) as Hwf1.
  pose proof (wf_roots _ Hwf1) as Hr. simpl in Hr. apply Forall_app in Hr as [Hr1 Hr2].
  eapply wellFormed_heap; [| | exact Hwf1]; [done |]. simpl.
  rewrite !Forall_app. repeat split; [done | | done].
  apply Forall_singleton. eexists. split; [simpl; by rewrite lookup_app_r, Nat.sub_diag |].
  done.
Qed.

Lemma keepsWellFormed_addSystemSchema row : keepsWellFormed (addSystemSchema row).
Proof.
  intros db [] db' Hwf H. unfold addSystemSchema in H.
  apply bind_inv in H as (x & db1 & [= <- <-] & [= <-]).
  pose proof (wellFormed_newSchema db row Hwf) as Hwf1.
  pose proof (wf_roots _ Hwf1) as Hr. simpl in Hr. apply Forall_app in Hr as [Hr1 Hr2].
  eapply wellFormed_heap; [| | exact Hwf1]; [done |]. simpl.
  rewrite !Forall_app. repeat split; [done | done |].
  apply Forall_singleton. eexists. split; [simpl; by rewrite lookup_app_r, Nat.sub_diag |].
  done.
Qed.

(** A new object pushed, by an in-place update, onto its owner. *)
Lemma wellFormed_new_mutate what new owner (f : ref -> Obj -> option Obj) db db' :
  wellFormed db ->
  (x ← Assembler.new new; mutate what owner (f x)) db = Ok (tt, db') ->
  f (length (heap db)) new = None ->
  growing (f (length (heap db))) ->
  Forall (pointsTo db) (references (length (heap db)) new) ->
  (forall o o' y,
     heap db !! owner = Some o -> f (length (heap db)) o = Some o' ->
     y ∈ references owner o' ->
     y ∈ references owner o \/ exists x, y = (length (heap db), x) /\ meets db x new) ->
  wellFormed db'.
Proof.
  intros Hwf H Hself Hgrow Hnew Hpush.
  apply bind_inv in H as (x & db1 & [= <- <-] & H).
  apply mutate_inv in H as (o & o' & Ho & Hf & ->). simpl in Ho.
  assert (heap db !! owner = Some o) as Hold.
  { destruct (decide (owner < length (heap db))) as [Hlt | Hge].
    - by rewrite lookup_app_l in Ho.
    - assert (owner = length (heap db)) as ->.
      { apply lookup_lt_Some in Ho. rewrite length_app in Ho. simpl in Ho. lia. }
      rewrite lookup_app_r, Nat.sub_diag in Ho by done. injection Ho as <-. congruence. }
  simpl. apply (wellFormed_alloc_push db owner o o' new); try done.
  - by apply Hgrow.
  - intros y Hy. by eapply Hpush.
Qed.

Definition isSchema (o : Obj) : bool := match o with OSchema _ => true | _ => false end.
Definition isEntity (o : Obj) : bool := match o with OEntity _ => true | _ => false end.

Lemma wellFormed_addToSchema c new schema db db' :
  wellFormed db ->
  (x ← Assembler.new new; pushToSchema c schema x) db = Ok (tt, db') ->
  isSchema new = false ->
  Forall (pointsTo db) (references (length (heap db)) new) ->
  meets db (schemaExpect c schema) new ->
  wellFormed db'.
Proof.
  intros Hwf H Hclass Hnew Hmeets. unfold pushToSchema in H.
  eapply (wellFormed_new_mutate
            _ _ schema
            (fun x o => match o with
                        | OSchema s => Some (OSchema (schema_push c x s))
                        | _ => None
                        end)); [exact Hwf | exact H | | | exact Hnew |].
  - by destruct new.
  - apply growing_pushToSchema.
  - intros o o' y Ho Hf Hy. destruct o; try done. injection Hf as <-.
    apply references_schema_push in Hy as [Hy | ->]; [by left | right]. by eexists.
Qed.

Lemma wellFormed_addToEntity c new entity db db' :
  wellFormed db ->
  (x ← Assembler.new new; pushToEntity c entity x) db = Ok (tt, db') ->
  isEntity new = false ->
  Forall (pointsTo db) (references (length (heap db)) new) ->
  meets db (entityExpect c entity) new ->
  wellFormed db'.
Proof.
  intros Hwf H Hclass Hnew Hmeets. unfold pushToEntity in H.
  eapply (wellFormed_new_mutate
            _ _ entity
            (fun x o => match o with
                        | OEntity e => if entity_owns (entity_kind e) c
                                       then Some (OEntity (entity_push c x e)) else None
                        | _ => None
                        end)); [exact Hwf | exact H | | | exact Hnew |].
  - by destruct new.
  - apply growing_pushToEntity.
  - intros o o' y Ho Hf Hy. destruct o; try done.
    destruct (entity_owns _ _); [| done]. injection Hf as <-.
    apply references_entity_push in Hy as [Hy | ->]; [by left | right]. by eexists.
Qed.

Lemma roots_pointsTo db r :
  wellFormed db -> r ∈ schemas db ++ systemSchemas db -> pointsTo db (r, ASchema).
Proof. intros Hwf Hr. pose proof (wf_roots _ Hwf) as H. rewrite Forall_forall in H. auto. Qed.

Lemma typeSchema_inv oid db r db' :
  typeSchema oid db = Ok (r, db') -> db' = db /\ r ∈ schemas db ++ systemSchemas db.
Proof.
  unfold typeSchema. destruct (getMaybe KOid (systemSchemas db) oid db) as [x |] eqn:E.
  - intros [= <- <-]. split; [done |]. apply elem_of_app. right. by eapply getMaybe_elem.
  - intros [-> H]%get_inv. split; [done |]. apply elem_of_app. by left.
Qed.

Lemma keepsWellFormed_addType row : keepsWellFormed (addType row).
Proof.
  intros db [] db' Hwf H. unfold addType in H.
  apply bind_inv in H as (schema & db1 & [-> Hschema]%typeSchema_inv & H).
  destruct (typeKinds (t_kind row)) as [kind |]; [| done].
  eapply wellFormed_addToSchema; [exact Hwf | exact H | done | | done].
  apply Forall_singleton. by apply roots_pointsTo.
Qed.

Lemma keepsWellFormed_addEntity row : keepsWellFormed (addEntity row).
Proof.
  intros db [] db' Hwf H. unfold addEntity in H.
  apply bind_inv in H as (schema & db1 & [-> Hschema]%get_inv & H).
  assert (pointsTo db (schema, ASchema)) as Hs
      by (apply roots_pointsTo; [done | apply elem_of_app; by left]).
  unfold newEntity in H.
  destruct (_ || _);
    [| case_bool_decide; [| case_bool_decide; [| case_bool_decide;
                                                  [| by injection H as <-]]]];
    (eapply wellFormed_addToSchema; [exact Hwf | exact H | done | | done]);
    by apply Forall_singleton.
Qed.

Lemma keepsWellFormed_addFunction row : keepsWellFormed (addFunction row).
Proof.
  intros db [] db' Hwf H. unfold addFunction in H.
  apply bind_inv in H as (schema & db1 & [-> Hschema]%get_inv & H).
  assert (pointsTo db (schema, ASchema)) as Hs
      by (apply roots_pointsTo; [done | apply elem_of_app; by left]).
  unfold newFunction in H.
  case_bool_decide; [| case_bool_decide; [| case_bool_decide; [| case_bool_decide;
                                                                 [| by injection H as <-]]]];
    (eapply wellFormed_addToSchema; [exact Hwf | exact H | done | | done]);
    by apply Forall_singleton.
Qed.

Lemma keepsWellFormed_addTrigger row : keepsWellFormed (addTrigger row).
Proof.
  intros db [] db' Hwf H. unfold addTrigger in H.
  apply bind_inv in H as (entity & db1 & [-> Hentity]%get_inv & H).
  apply bind_inv in H as (func & db1 & [-> Hfunc]%get_inv & H).
  eapply wellFormed_addToEntity; [exact Hwf | exact H | done | | done].
  simpl. repeat apply Forall_cons_2; [| | apply Forall_nil_2].
  - by apply functions_pointsTo.
  - by apply entities_pointsTo.
Qed.

Lemma keepsWellFormed_addColumn row : keepsWellFormed (addColumn row).
Proof.
  intros db [] db' Hwf H. unfold addColumn in H.
  apply bind_inv in H as (parent & db1 & Hparent & H).
  assert (db1 = db /\ pointsTo db (parent, AParent)) as [-> Hp].
  { case_bool_decide; apply get_inv in Hparent as [-> Hparent]; (split; [done |]).
    - apply types_pointsTo in Hparent; [| done].
      eapply pointsTo_weaken; [| exact Hparent]. by intros [].
    - apply entities_pointsTo in Hparent; [| done].
      eapply pointsTo_weaken; [| exact Hparent]. by intros []. }
  unfold pushColumn in H.
  eapply (wellFormed_new_mutate
            _ _ parent
            (fun x o => match o with
                        | OEntity e => Some (OEntity (entity_push Columns x e))
                        | _ => type_push_column x o
                        end)); [exact Hwf | exact H | done | | |].
  - apply growing_pushColumn.
  - by apply Forall_singleton.
  - intros o o' y Ho Hf Hy.
    assert (y ∈ references parent o \/ y = (length (heap db), AColumnOf parent)) as [? | ->].
    { destruct o; try done.
      - by eapply references_type_push_column.
      - injection Hf as <-. by apply references_entity_push in Hy. }
    + by left.
    + right. by eexists.
Qed.

(** The loop over the positions of an index. *)
Lemma keepsWellFormed_eachPosition index parent positions :
  forall indexExpressions db db',
    wellFormed db ->
    (index_parent <$> indexAt db index) = Some parent ->
    eachPosition index parent positions indexExpressions db = Ok (tt, db') ->
    wellFormed db'.
Proof.
  assert (forall slot db db',
            wellFormed db ->
            (index_parent <$> indexAt db index) = Some parent ->
            (forall c, slot = IsColumn c -> c ∈ columnsOf db parent) ->
            pushColumnOrExpression index slot db = Ok (tt, db') ->
            wellFormed db' /\ (index_parent <$> indexAt db' index) = Some parent) as Hpush.
  { intros slot db db' Hwf Hix Hslot H. unfold pushColumnOrExpression in H.
    apply mutate_inv in H as (o & o' & Ho & Hf & ->).
    destruct o as [| | | | i | | |]; try done. injection Hf as <-.
    unfold indexAt in Hix. rewrite Ho in Hix. injection Hix as Hparent. split.
    - eapply wellFormed_update; [exact Hwf | exact Ho | by eapply growing_pushColumnOrExpression |].
      intros y Hy. apply references_index_push in Hy as [Hy | (c & -> & ->)]; [by left |].
      right. rewrite Hparent. apply columns_pointsTo; [done |]. by apply Hslot.
    - unfold indexAt. simpl.
      rewrite list_lookup_insert_eq by (by eapply lookup_lt_Some). simpl. by rewrite Hparent. }
  induction positions as [| p rest IH]; intros es db db' Hwf Hix H; simpl in H.
  - by injection H as <-.
  - case_bool_decide.
    + apply bind_inv in H as (c & db1 & [= <- <-] & H).
      apply bind_inv in H as ([] & db2 & H2 & H).
      apply Hpush in H2 as [Hwf2 Hix2]; try done.
      * by eapply IH.
      * intros c' Hc'. destruct (findColumn db parent p) as [c |] eqn:E; [| done].
        injection Hc' as <-. by apply findColumn_Some in E as [? _].
    + destruct es as [| e es];
        apply bind_inv in H as ([] & db2 & H2 & H);
        (apply Hpush in H2 as [Hwf2 Hix2]; try done); by eapply IH.
Qed.

Lemma keepsWellFormed_addIndex row : keepsWellFormed (addIndex row).
Proof.
  intros db [] db' Hwf H. unfold addIndex in H.
  apply bind_inv in H as (parent & db0 & [-> Hparent]%get_inv & H).
  apply entities_pointsTo in Hparent; [| done].
  apply bind_inv in H as (index & db1 & [= <- <-] & H).
  apply bind_inv in H as ([] & db2 & Hloop & H).
  set (ix := {| index_row := row; index_parent := parent; columnsAndExpressions := [] |}) in *.
  assert (wellFormed (set_heap db (heap db ++ [OIndex ix]))) as Hwf1
      by (apply wellFormed_alloc; [done | by apply Forall_singleton]).
  assert ((index_parent <$> indexAt (set_heap db (heap db ++ [OIndex ix])) (length (heap db)))
          = Some parent) as Hix
      by (unfold indexAt; simpl; by rewrite lookup_app_r, Nat.sub_diag).
  pose proof (keepsWellFormed_eachPosition _ _ _ _ _ _ Hwf1 Hix Hloop) as Hwf2.
  apply grows_eachPosition in Hloop as [Hext _].
  apply SymmetryFacts.pushToEntity_inv in H as (e & He & ->).
  eapply wellFormed_update; [exact Hwf2 | exact He | apply grown_entity_push |].
  intros y Hy. apply references_entity_push in Hy as [Hy | ->]; [by left | right].
  apply (pointsTo_extends _ _ _ Hext). eexists. split.
  - simpl. by rewrite lookup_app_r, Nat.sub_diag.
  - done.
Qed.

Lemma mapM_get_elems k collection keys : forall cols db db',
  mapM (get k collection) keys db = Ok (cols, db') ->
  db' = db /\ Forall (fun c => c ∈ collection db) cols.
Proof.
  induction keys as [| key keys IH]; intros cols db db' H; simpl in H.
  - injection H as <- <-. by split.
  - apply (bind_inv (get k collection key)) in H as (c & db1 & [-> Hc]%get_inv & H).
    apply (bind_inv (mapM (get k collection) keys)) in H as (cs & db2 & H2 & [= <- <-]).
    apply IH in H2 as [-> Hcs]. split; [done |]. by apply Forall_cons_2.
Qed.

Lemma option_pointsTo db index :
  wellFormed db ->
  (forall i, index = Some i -> i ∈ db_indexes db) ->
  Forall (pointsTo db) (expecting AnIndex (option_list index)).
Proof.
  intros Hwf Hi. destruct index as [i |]; simpl; [| apply Forall_nil_2].
  apply Forall_singleton. apply indexes_pointsTo; [done | by apply Hi].
Qed.

Lemma keepsWellFormed_addTableConstraint table c db db' :
  wellFormed db ->
  Forall (pointsTo db) (references (length (heap db)) (OConstraint c)) ->
  tableOf c = Some table ->
  addTableConstraint table c db = Ok (tt, db') -> wellFormed db'.
Proof.
  intros Hwf Hrefs Htable H. unfold addTableConstraint in H.
  eapply wellFormed_addToEntity; [exact Hwf | exact H | done | exact Hrefs | done].
Qed.

Lemma meets_foreignKeyTo db row table index cols u d m ix :
  indexAt db index = Some ix ->
  meets db (AForeignKeyTo (index_parent ix))
        (OConstraint (ForeignKey row table index cols u d m)).
Proof. intros H. simpl. by rewrite H. Qed.

Lemma keepsWellFormed_addForeignKey row table index :
  forall db db',
    wellFormed db -> pointsTo db (table, ATable) ->
    (forall i, index = Some i -> i ∈ db_indexes db) ->
    addForeignKey row table index db = Ok (tt, db') -> wellFormed db'.
Proof.
  intros db db' Hwf Ht Hi H. destruct index as [index |]; [| by injection H as <-].
  unfold addForeignKey in H.
  apply bind_inv in H as (cols & db0 & [-> Hcols]%mapM_get_elems & H).
  apply bind_inv in H as (fk & db1 & [= <- <-] & H).
  apply bind_inv in H as ([] & db2 & Hpush & H).
  apply bind_inv in H as (R & db3 & HR & H).
  set (c := ForeignKey row table index cols (actionLetterMap (k_onUpdate row))
                       (actionLetterMap (k_onDelete row))
                       (matchTypeLetterMap (k_matchType row))) in *.
  assert (wellFormed (set_heap db (heap db ++ [OConstraint c]))) as Hwf1.
  { apply wellFormed_alloc; [done |]. simpl.
    repeat apply Forall_cons_2; [done | apply indexes_pointsTo; auto |].
    unfold expecting. apply Forall_fmap. eapply Forall_impl; [exact Hcols |].
    intros x Hx. by apply columns_pointsTo. }
  apply SymmetryFacts.pushToEntity_inv in Hpush as (t & Ht1 & ->).
  assert (table <> length (heap db)) as Hne.
  { intros ->. simpl in Ht1. by rewrite lookup_app_r, Nat.sub_diag in Ht1. }
  assert (wellFormed
            (set_heap (set_heap db (heap db ++ [OConstraint c]))
                      (<[table := OEntity (entity_push Constraints (length (heap db)) t)]>
                         (heap (set_heap db (heap db ++ [OConstraint c])))))) as Hwf2.
  { eapply wellFormed_update; [exact Hwf1 | exact Ht1 | apply grown_entity_push |].
    intros y Hy. apply references_entity_push in Hy as [Hy | ->]; [by left | right].
    eexists. split; [simpl; by rewrite lookup_app_r, Nat.sub_diag | done]. }
  unfold referencedTable in HR.
  match type of HR with
  | match indexAt ?d index with _ => _ end = _ =>
      destruct (indexAt d index) as [ix |] eqn:Eix; [| done]
  end.
  injection HR as <- <-.
  apply SymmetryFacts.pushToEntity_inv in H as (r & Hr & ->).
  eapply wellFormed_update; [exact Hwf2 | exact Hr | apply grown_entity_push |].
  intros y Hy. apply references_entity_push in Hy as [Hy | ->]; [by left | right].
  eexists. split.
  - simpl. rewrite list_lookup_insert_ne by done. by rewrite lookup_app_r, Nat.sub_diag.
  - by apply meets_foreignKeyTo.
Qed.

Lemma keepsWellFormed_addConstraint row : keepsWellFormed (addConstraint row).
Proof.
  intros db [] db' Hwf H. rewrite addConstraint_unfold in H.
  assert (forall i, resolveIndex row db = Some i -> i ∈ db_indexes db) as Hindex
      by (intros i Hi; by eapply getMaybe_elem).
  destruct (resolveTable row db) as [table |] eqn:Etable.
  - assert (pointsTo db (table, ATable)) as Ht
        by (apply tables_pointsTo; [done | by eapply getMaybe_elem]).
    do 3 (case_bool_decide;
          [eapply keepsWellFormed_addTableConstraint; [exact Hwf | | | exact H];
           [| done]; simpl; (apply Forall_cons_2; [done |]); by apply option_pointsTo |]).
    case_bool_decide;
      [eapply keepsWellFormed_addTableConstraint; [exact Hwf | | | exact H];
       [| done]; by apply Forall_singleton |].
    case_bool_decide; [by eapply keepsWellFormed_addForeignKey | by injection H as <-].
  - destruct (resolveDomain row db) as [domain |] eqn:Edomain; [| by injection H as <-].
    case_bool_decide; [| by injection H as <-].
    assert (exists t, heap db !! domain = Some (OType t) /\ type_kind t = Domain)
      as (t & Hdomain & Hkind).
    { apply bind_inv in H as (x & db1 & [= <- <-] & H).
      apply mutate_inv in H as (o & o' & Ho & Hf & _). simpl in Ho.
      destruct o as [| t | | | | | |]; try done. simpl in Hf.
      destruct (type_kind t) eqn:Ek; try done. exists t. split; [| done].
      destruct (decide (domain < length (heap db))) as [Hlt | Hge].
      - by rewrite lookup_app_l in Ho.
      - assert (domain = length (heap db)) as ->.
        { apply lookup_lt_Some in Ho. rewrite length_app in Ho. simpl in Ho. lia. }
        by rewrite lookup_app_r, Nat.sub_diag in Ho. }
    eapply (wellFormed_new_mutate _ _ domain type_push_checkConstraint);
      [exact Hwf | exact H | done | apply growing_type_push_checkConstraint | |].
    + apply Forall_singleton. by exists (OType t).
    + intros o o' y Ho Hf Hy.
      eapply references_type_push_checkConstraint in Hy as [Hy | ->]; [by left | | exact Hf].
      right. by eexists.
Qed.

Lemma wellFormed_newDb i : wellFormed (newDb i).
Proof. split; [apply Forall_nil_2 | done]. Qed.

Lemma keepsWellFormed_addObjects queryResults : keepsWellFormed (addObjects queryResults).
Proof.
  unfold addObjects.
  repeat (apply keepsWellFormed_bind; [| intros _]); apply keepsWellFormed_forEach;
    auto using keepsWellFormed_addSchema, keepsWellFormed_addSystemSchema,
      keepsWellFormed_addType, keepsWellFormed_addEntity, keepsWellFormed_addColumn,
      keepsWellFormed_addIndex, keepsWellFormed_addConstraint, keepsWellFormed_addFunction,
      keepsWellFormed_addTrigger.
Qed.

(** Reference closure and agreement of owners.  The nine phases keep
    a graph well formed, and so every [Db] that [pgStructure] or
    [deserialize] returns is well formed: each reference leads to an
    object of the graph of the expected class; what a schema, an
    entity or a type lists in a collection names that schema, entity
    or type as its own schema, parent or table; the columns of an
    index are columns of the table of the index; the columns of a
    foreign key are columns of its own table; and every foreign key
    listed in [foreignKeysToThis] of a table references an index of
    that table. *)
Theorem assembled_wellFormed :
  (forall queryResults db db',
      wellFormed db -> addObjects queryResults db = Ok (tt, db') -> wellFormed db')
  /\ (forall w first options D t,
        Entry.pgStructure w first options [] = (Ok D, t) -> wellFormed D)
  /\ (forall JSON_parse text D, Entry.deserialize JSON_parse text = Ok D -> wellFormed D).
Proof.
  split; [| split].
  - intros queryResults db db'. apply (keepsWellFormed_addObjects queryResults db tt db').
  - intros w first options D t H.
    apply SerializationFacts.pgStructure_replayable in H as [H _].
    eapply keepsWellFormed_addObjects; [apply wellFormed_newDb | exact H].
  - intros JSON_parse text D H. unfold Entry.deserialize in H.
    destruct (JSON_parse text) as [data | e]; [| done].
    match type of H with
    | match addObjects ?q (newDb ?i) with _ => _ end = _ =>
        destruct (addObjects q (newDb i)) as [[[] db] | e] eqn:E; [| done]
    end.
    injection H as <-.
    eapply keepsWellFormed_addObjects; [apply wellFormed_newDb | exact E].
Qed.

End ClosureFacts.

(** ** Foreign-key rows during constraint assembly *)

Module ForeignKeyFacts.
Import Catalog Assembler AssemblerFacts PhaseFacts GraphFacts ClosureFacts.

(** The graph is well formed when the constraint phase reaches a row. *)
Lemma constraint_phase_wellFormed queryResults i processed db :
  (addSchemas (schemaRows queryResults);;
   addSystemSchemas (systemSchemaRows queryResults);;
   addTypes (typeRows queryResults);;
   addEntities (entityRows queryResults);;
   addColumns (columnRows queryResults);;
   addIndexes (indexRows queryResults);;
   addConstraints processed) (newDb i) = Ok (tt, db) ->
  wellFormed db.
Proof.
  intros Hrun.
  assert (keepsWellFormed
            (addSchemas (schemaRows queryResults);;
             addSystemSchemas (systemSchemaRows queryResults);;
             addTypes (typeRows queryResults);;
             addEntities (entityRows queryResults);;
             addColumns (columnRows queryResults);;
             addIndexes (indexRows queryResults);;
             addConstraints processed)) as Hkeeps.
  { repeat (apply keepsWellFormed_bind; [| intros _]); apply keepsWellFormed_forEach;
      auto using keepsWellFormed_addSchema, keepsWellFormed_addSystemSchema,
        keepsWellFormed_addType, keepsWellFormed_addEntity, keepsWellFormed_addColumn,
        keepsWellFormed_addIndex, keepsWellFormed_addConstraint. }
  exact (Hkeeps _ _ _ (wellFormed_newDb i) Hrun).
Qed.

Lemma resolveTable_table db row table :
  wellFormed db -> resolveTable row db = Some table ->
  exists t, entityAt db table = Some t /\ entity_kind t = Table.
Proof.
  intros Hwf H. apply getMaybe_elem, (tables_pointsTo db table Hwf) in H as (o & Ho & Hm).
  simpl in Ho. destruct o as [| | t | | | | |]; try done. simpl in Hm.
  exists t. split; [| done]. unfold entityAt. by rewrite Ho.
Qed.

Lemma resolveIndex_index db row index :
  wellFormed db -> resolveIndex row db = Some index ->
  exists ix, indexAt db index = Some ix.
Proof.
  intros Hwf H. apply getMaybe_elem, (indexes_pointsTo db index Hwf) in H as (o & Ho & Hm).
  simpl in Ho. destruct o as [| | | | ix | | |]; try done.
  exists ix. unfold indexAt. by rewrite Ho.
Qed.

Lemma foreignKeysToThis_allocated db r e :
  wellFormed db -> entityAt db r = Some e ->
  Forall (fun x => x < length (heap db)) (foreignKeysToThis e).
Proof.
  intros Hwf He. apply Forall_forall. intros x Hx.
  destruct (references_entity db r e ForeignKeysToThis x Hwf (entityAt_heap _ _ _ He) Hx)
    as (o & Ho & _).
  by eapply lookup_lt_Some.
Qed.

(** C1 (as amended): during constraint assembly, that is in the
    graph that the six earlier phases and any number of constraint
    rows have built, take a foreign-key row.  If its referenced index
    does not resolve, no object is created, the graph is untouched
    and the loop goes on with the next row.  If the index resolves,
    and the owning table of the row and each of its constrained
    column positions resolve, and the entity that owns the index (the
    [referencedTable] of the foreign key) is a table, then exactly
    one object is created, the foreign key built from the row; it is
    appended to the [constraints] of the owning table and to the
    [foreignKeysToThis] of the referenced table, where it occurs
    exactly once. *)
Theorem addConstraints_foreignKey (queryResults : QueryResults) (i : DbInfo)
        (processed : list ConstraintRow) (db : Db) (row : ConstraintRow) :
  (addSchemas (schemaRows queryResults);;
   addSystemSchemas (systemSchemaRows queryResults);;
   addTypes (typeRows queryResults);;
   addEntities (entityRows queryResults);;
   addColumns (columnRows queryResults);;
   addIndexes (indexRows queryResults);;
   addConstraints processed) (newDb i) = Ok (tt, db) ->
  k_kind row = "f"%char ->
  (resolveIndex row db = None ->
     addConstraint row db = Ok (tt, db)
     /\ forall rest, addConstraints (row :: rest) db = addConstraints rest db)
  /\ (forall (table index referenced : ref) (cols : list ref),
        resolveIndex row db = Some index ->
        resolveTable row db = Some table ->
        Forall2 (fun position c =>
                   getMaybe KAttributeNumber (columnsOf db table) position db = Some c)
                (k_constrainedColumnPositions row) cols ->
        referencedTable index db = Ok (referenced, db) ->
        (entity_kind <$> entityAt db referenced) = Some Table ->
        let foreignKey := length (heap db) in
        exists db' t r,
          entityAt db table = Some t
          /\ entityAt db referenced = Some r
          /\ addConstraint row db = Ok (tt, db')
          /\ length (heap db') = S (length (heap db))
          /\ constraintAt db' foreignKey
             = Some (ForeignKey row table index cols
                                (actionLetterMap (k_onUpdate row))
                                (actionLetterMap (k_onDelete row))
                                (matchTypeLetterMap (k_matchType row)))
          /\ (forall x, x < length (heap db) -> constraintAt db' x = constraintAt db x)
          /\ (constraints <$> entityAt db' table) = Some (constraints t ++ [foreignKey])
          /\ (foreignKeysToThis <$> entityAt db' referenced)
             = Some (foreignKeysToThis r ++ [foreignKey])
          /\ count_occ Nat.eq_dec (foreignKeysToThis r ++ [foreignKey]) foreignKey = 1).
Proof.
  intros Hrun Hkind.
  pose proof (constraint_phase_wellFormed _ _ _ _ Hrun) as Hwf.
  split; [exact (proj1 (addConstraint_foreignKey_step row db Hkind)) |].
  intros table index referenced cols Hindex Htable Hcols Hreferenced Hkind' foreignKey.
  destruct (resolveTable_table _ _ _ Hwf Htable) as (t & Ht & Htk).
  destruct (resolveIndex_index _ _ _ Hwf Hindex) as (ix & Hix).
  unfold referencedTable in Hreferenced. rewrite Hix in Hreferenced.
  injection Hreferenced as Hparent.
  destruct (entityAt db referenced) as [r |] eqn:Hr; [| done].
  injection Hkind' as Hrk.
  assert (entity_owns (entity_kind t) Constraints = true) as Howns by (by rewrite Htk).
  pose proof (foreignKeysToThis_allocated _ _ _ Hwf Hr) as Hfresh.
  rewrite <- Hparent in Hr.
  destruct (proj2 (addConstraint_foreignKey_step row db Hkind)
                  table index t cols ix r Htable Hindex Ht Howns Hcols Hix Hr Hrk Hfresh)
    as (db' & H).
  rewrite Hparent in H, Hr. by exists db', t, r.
Qed.

End ForeignKeyFacts.

(** ** The small catalog during constraint assembly *)

Module ForeignKeyScenario.
Import Catalog Assembler AssemblerFacts Scenario ForeignKeyFacts.
Local Open Scope Z_scope.

(** The graph once the primary key of [account] is in: objects 0
    to 10 as after the index phase, 11 the primary key. *)
Definition withPrimaryKey : Db :=
  Eval vm_compute in after (addConstraints [accountPkey]) withIndexes.

(** The same graph after the row of the hidden foreign key, which
    added nothing. *)
Definition withHiddenFk : Db :=
  Eval vm_compute in after (addConstraints [orderHiddenFk]) withPrimaryKey.

Lemma addConstraints_foreignKey_witness :
  (resolveIndex orderHiddenFk withPrimaryKey = None
   /\ addConstraint orderHiddenFk withPrimaryKey = Ok (tt, withPrimaryKey)
   /\ addConstraints [orderHiddenFk; orderAccountFk] withPrimaryKey
      = addConstraints [orderAccountFk] withPrimaryKey)
  /\ (resolveIndex orderAccountFk withHiddenFk = Some 9%nat
      /\ resolveTable orderAccountFk withHiddenFk = Some 5%nat
      /\ exists db',
          addConstraint orderAccountFk withHiddenFk = Ok (tt, db')
          /\ length (heap db') = 13%nat
          /\ constraintAt db' 12%nat
             = Some (ForeignKey orderAccountFk 5%nat 9%nat [8%nat]
                                (Some "NO ACTION") (Some "CASCADE") (Some "SIMPLE"))
          /\ (constraints <$> entityAt db' 5%nat) = Some [12%nat]
          /\ (foreignKeysToThis <$> entityAt db' 4%nat) = Some [12%nat]).
Proof.
  split.
  - split; [reflexivity |].
    assert ((addSchemas (schemaRows sampleResults);;
             addSystemSchemas (systemSchemaRows sampleResults);;
             addTypes (typeRows sampleResults);;
             addEntities (entityRows sampleResults);;
             addColumns (columnRows sampleResults);;
             addIndexes (indexRows sampleResults);;
             addConstraints [accountPkey]) (newDb sampleInfo) = Ok (tt, withPrimaryKey))
      as Hrun by (vm_compute; reflexivity).
    destruct (proj1 (addConstraints_foreignKey sampleResults sampleInfo [accountPkey]
                                               withPrimaryKey orderHiddenFk Hrun eq_refl)
                    eq_refl) as [Hskip Hnext].
    split; [exact Hskip | exact (Hnext [orderAccountFk])].
  - split; [reflexivity |]. split; [reflexivity |].
    assert ((addSchemas (schemaRows sampleResults);;
             addSystemSchemas (systemSchemaRows sampleResults);;
             addTypes (typeRows sampleResults);;
             addEntities (entityRows sampleResults);;
             addColumns (columnRows sampleResults);;
             addIndexes (indexRows sampleResults);;
             addConstraints [accountPkey; orderHiddenFk]) (newDb sampleInfo)
            = Ok (tt, withHiddenFk)) as Hrun by (vm_compute; reflexivity).
    assert (Forall2 (fun position c =>
                       getMaybe KAttributeNumber (columnsOf withHiddenFk 5%nat) position
                                withHiddenFk = Some c)
                    (k_constrainedColumnPositions orderAccountFk) [8%nat]) as Hcols
        by (repeat constructor).
    destruct (proj2 (addConstraints_foreignKey sampleResults sampleInfo
                                               [accountPkey; orderHiddenFk]
                                               withHiddenFk orderAccountFk Hrun eq_refl)
                    5%nat 9%nat 4%nat [8%nat] eq_refl eq_refl Hcols eq_refl eq_refl)
      as (db' & t & r & Ht & Hr & Hadd & Hlen & Hfk & _ & Hcs & Hto & _).
    injection Ht as <-. injection Hr as <-.
    exists db'. split; [exact Hadd |]. split; [exact Hlen |]. split; [exact Hfk |].
    split; [exact Hcs | exact Hto].
Defined.

(** A foreign key of a table that is not loaded, on the primary key
    of [account]. *)
Definition strayFk : ConstraintRow :=
  constraintRow 777 101 0 "f" "stray_account_fk" [1] "a" "a" "s".

(** A foreign key of [order] whose second column position names no
    column of [order]. *)
Definition orderShortFk : ConstraintRow :=
  constraintRow 200 101 0 "f" "order_account_fk" [2; 5] "a" "c" "s".

(** The small catalog with a materialized view [stats] that has a
    unique index. *)
Definition statsRow : EntityRow :=
  {| e_oid := 300; e_schemaOid := 2200; e_kind := "m"; e_name := "stats" |}.
Definition statsDayRow : ColumnRow :=
  {| c_parentKind := "m"; c_parentOid := 300; c_attributeNumber := 1; c_name := "day" |}.
Definition statsDayIndex : IndexRow :=
  {| i_oid := 301; i_tableOid := 300; i_name := "stats_day_idx";
     i_columnPositions := [1]; i_indexExpressions := [] |}.

Definition statsResults : QueryResults :=
  {| schemaRows := schemaRows sampleResults;
     systemSchemaRows := systemSchemaRows sampleResults;
     typeRows := typeRows sampleResults;
     entityRows := entityRows sampleResults ++ [statsRow];
     columnRows := columnRows sampleResults ++ [statsDayRow];
     indexRows := indexRows sampleResults ++ [statsDayIndex];
     constraintRows := [];
     functionRows := [];
     triggerRows := [] |}.

Definition withStats : Db :=
  Eval vm_compute in
    after (addSchemas (schemaRows statsResults);;
           addSystemSchemas (systemSchemaRows statsResults);;
           addTypes (typeRows statsResults);;
           addEntities (entityRows statsResults);;
           addColumns (columnRows statsResults);;
           addIndexes (indexRows statsResults)) (newDb sampleInfo).

(** A foreign key of [order] on the index of the materialized view. *)
Definition orderStatsFk : ConstraintRow :=
  constraintRow 200 301 0 "f" "order_stats_fk" [2] "a" "a" "s".

(** C1 (as stated) fails on three foreign-key rows whose referenced
    index resolves, each met when the constraint phase starts.  The
    row of a table that is not loaded is dropped: no object is
    created.  A row with a column position that names no column of
    its table stops the assembly with NotFound.  A row whose index
    belongs to a materialized view, which has no
    [foreignKeysToThis], stops the assembly with a TypeError. *)
Lemma foreignKey_with_index_not_created :
  (k_kind strayFk = "f"%char
   /\ resolveIndex strayFk withIndexes = Some 9%nat
   /\ addConstraint strayFk withIndexes = Ok (tt, withIndexes))
  /\ (k_kind orderShortFk = "f"%char
      /\ resolveIndex orderShortFk withIndexes = Some 9%nat
      /\ addConstraint orderShortFk withIndexes = Throw (NotFound 5))
  /\ (k_kind orderStatsFk = "f"%char
      /\ resolveIndex orderStatsFk withStats = Some 13%nat
      /\ (entity_kind <$> (indexAt withStats 13%nat ≫= fun ix =>
                             entityAt withStats (index_parent ix)))
         = Some MaterializedView
      /\ addConstraint orderStatsFk withStats = Throw (TypeError "entity collection")).
Proof. repeat split; vm_compute; reflexivity. Qed.

End ForeignKeyScenario.

(** ** The root collections of an assembled graph *)

Module RootFacts.
Import Catalog Assembler AssemblerFacts PhaseFacts GraphFacts.

Lemma find_seq_first (P : nat -> bool) (n : nat) :
  forall a k, k < n -> P (a + k) = true -> (forall j, j < k -> P (a + j) = false) ->
              find P (seq a n) = Some (a + k).
Proof.
  induction n as [| n IH]; intros a k Hk HP Hfirst; [lia |]. simpl.
  destruct k as [| k].
  - rewrite Nat.add_0_r in HP. rewrite HP. f_equal. lia.
  - rewrite <- (Nat.add_0_r a) at 1. rewrite (Hfirst 0) by lia.
    replace (a + S k) with (S a + k) in * by lia. apply IH; [lia | done |].
    intros j Hj. replace (S a + j) with (a + S j) by lia. apply Hfirst. lia.
Qed.

Lemma schemaAt_extends db db' r s :
  extends db db' -> schemaAt db r = Some s ->
  (schema_row <$> schemaAt db' r) = Some (schema_row s).
Proof.
  intros Hext Hs. apply schemaAt_heap in Hs.
  destruct (ext_objects _ _ Hext _ _ Hs) as (o' & Ho' & Hg).
  destruct o'; try done. destruct Hg as [Hrow _].
  unfold schemaAt. rewrite Ho'. simpl. by rewrite Hrow.
Qed.

(** The root collections of an assembled graph.  [db.schemas] holds
    one schema per discovery row and [db.systemSchemas] one per system
    schema row, in row order and each with its row, the user schemas
    under the first references and the system schemas after them: no
    later phase adds, drops or reorders a schema.  A user schema OID
    resolves, at the end as in every phase, to the schema of the first
    row that carries it. *)
Theorem assembled_schemas (queryResults : QueryResults) (i : DbInfo) (D : Db) :
  addObjects queryResults (newDb i) = Ok (tt, D) ->
  let users := schemaRows queryResults in
  let systems := systemSchemaRows queryResults in
  schemas D = seq 0 (length users)
  /\ systemSchemas D = seq (length users) (length systems)
  /\ (forall k row, users !! k = Some row -> (schema_row <$> schemaAt D k) = Some row)
  /\ (forall k row, systems !! k = Some row ->
        (schema_row <$> schemaAt D (length users + k)) = Some row)
  /\ (forall k row,
        users !! k = Some row ->
        (forall j row', j < k -> users !! j = Some row' -> s_oid row' <> s_oid row) ->
        get KOid schemas (s_oid row) D = Ok (k, D)).
Proof.
  intros H users systems. subst users systems. rewrite addObjects_phases in H.
  apply grows_addContents in H as (Hext & Hschemas & Hsystems).
  simpl in Hschemas, Hsystems. rewrite length_fmap in Hsystems.
  assert (forall k row, schemaRows queryResults !! k = Some row ->
                        (schema_row <$> schemaAt D k) = Some row) as Husers.
  { intros k row Hk.
    apply (schemaAt_extends _ _ k (emptySchema row) Hext).
    unfold schemaAt. simpl.
    rewrite lookup_app_l by (rewrite length_fmap; by eapply lookup_lt_Some).
    by rewrite list_lookup_fmap, Hk. }
  split; [exact Hschemas |]. split; [exact Hsystems |]. split; [exact Husers |]. split.
  - intros k row Hk.
    apply (schemaAt_extends _ _ (length (schemaRows queryResults) + k) (emptySchema row) Hext).
    unfold schemaAt. simpl.
    rewrite lookup_app_r by (rewrite length_fmap; lia).
    rewrite length_fmap.
    replace (length (schemaRows queryResults) + k - length (schemaRows queryResults))
      with k by lia.
    by rewrite list_lookup_fmap, Hk.
  - intros k row Hk Hfirst. unfold get, getMaybe. rewrite Hschemas.
    pose proof (lookup_lt_Some _ _ _ Hk) as Hlt.
    assert (forall j row', schemaRows queryResults !! j = Some row' ->
              bool_decide (heap D !! j ≫= attribute KOid = Some (s_oid row))
              = bool_decide (s_oid row' = s_oid row)) as Hat.
    { intros j row' Hj. specialize (Husers j row' Hj). unfold schemaAt in Husers.
      destruct (heap D !! j) as [[s | | | | | | |] |]; try done. simpl in *.
      injection Husers as ->. apply bool_decide_ext. split; congruence. }
    rewrite (find_seq_first _ _ 0 k Hlt); [done | |].
    + simpl. rewrite (Hat k row Hk). by apply bool_decide_eq_true_2.
    + intros j Hj. simpl.
      destruct (schemaRows queryResults !! j) as [row' |] eqn:Ej.
      * rewrite (Hat j row' Ej). apply bool_decide_eq_false_2. by eapply Hfirst.
      * apply lookup_ge_None in Ej. lia.
Qed.

End RootFacts.

(** ** How many objects a catalog gives *)

Module CountFacts.
Import Catalog Assembler AssemblerFacts PhaseFacts GraphFacts.

(** A step that creates between [lo] and [hi] objects. *)
Definition allocates {A} (lo hi : nat) (m : M A) : Prop :=
  forall db a db', m db = Ok (a, db') ->
    length (heap db) + lo <= length (heap db') <= length (heap db) + hi.

Lemma allocates_weaken {A} lo hi lo' hi' (m : M A) :
  lo' <= lo -> hi <= hi' -> allocates lo hi m -> allocates lo' hi' m.
Proof. intros Hlo Hhi Hm db a db' H. specialize (Hm _ _ _ H). lia. Qed.

Lemma allocates_ret {A} (a : A) : allocates 0 0 (ret a).
Proof. intros db a' db' [= _ <-]. lia. Qed.

Lemma allocates_mret {A} (a : A) : allocates 0 0 (mret a : M A).
Proof. apply allocates_ret. Qed.

Lemma allocates_throw {A} lo hi e : allocates lo hi (throw e : M A).
Proof. by intros db a db' H. Qed.

Lemma allocates_read {A} (f : Db -> A) : allocates 0 0 (read f).
Proof. intros db a db' [= _ <-]. lia. Qed.

Lemma allocates_get k collection key : allocates 0 0 (get k collection key).
Proof.
  intros db a db' H. unfold get in H.
  destruct (getMaybe k (collection db) key db); [| done]. injection H as _ <-. lia.
Qed.

Lemma allocates_typeSchema oid : allocates 0 0 (typeSchema oid).
Proof.
  intros db a db' H. unfold typeSchema in H.
  destruct (getMaybe KOid (systemSchemas db) oid db).
  - injection H as _ <-. lia.
  - by eapply allocates_get.
Qed.

Lemma allocates_referencedTable index : allocates 0 0 (referencedTable index).
Proof.
  intros db a db' H. unfold referencedTable in H.
  destruct (indexAt db index); [| done]. injection H as _ <-. lia.
Qed.

Lemma allocates_new o : allocates 1 1 (new o).
Proof. intros db a db' [= _ <-]. simpl. rewrite length_app. simpl. lia. Qed.

Lemma allocates_mutate what r f : allocates 0 0 (mutate what r f).
Proof.
  intros db a db' H. unfold mutate in H.
  destruct (heap db !! r ≫= f); [| done]. injection H as _ <-.
  unfold set_heap. cbn [heap]. rewrite length_insert. lia.
Qed.

Lemma allocates_pushDbSchemas x : allocates 0 0 (pushDbSchemas x).
Proof. intros db a db' [= _ <-]. simpl. lia. Qed.

Lemma allocates_pushDbSystemSchemas x : allocates 0 0 (pushDbSystemSchemas x).
Proof. intros db a db' [= _ <-]. simpl. lia. Qed.

Lemma allocates_bind {A B} lo1 hi1 lo2 hi2 (m : M A) (k : A -> M B) :
  allocates lo1 hi1 m -> (forall a, allocates lo2 hi2 (k a)) ->
  allocates (lo1 + lo2) (hi1 + hi2) (m ≫= k).
Proof.
  intros Hm Hk db b db' H. unfold mbind, M_bind, bind in H.
  destruct (m db) as [[a db1] | e] eqn:E; [| done].
  specialize (Hm _ _ _ E). specialize (Hk _ _ _ _ H). lia.
Qed.

Lemma allocates_forEach {A} lo hi (f : A -> M unit) rows :
  (forall row, allocates lo hi (f row)) ->
  allocates (lo * length rows) (hi * length rows) (forEach f rows).
Proof.
  intros Hf. induction rows as [| row rest IH]; simpl.
  - intros db a db' [= _ <-]. lia.
  - intros db a db' H. unfold bind in H.
    destruct (f row db) as [[[] db1] | e] eqn:E; [| done].
    specialize (Hf _ _ _ _ E). specialize (IH _ _ _ H). lia.
Qed.

Lemma allocates_mapM_get k collection keys :
  allocates 0 0 (mapM (get k collection) keys).
Proof.
  intros db cols db' H. apply SymmetryFacts.mapM_get_state in H as ->. lia.
Qed.

Lemma allocates_eachPosition index parent positions :
  forall indexExpressions,
    allocates 0 0 (eachPosition index parent positions indexExpressions).
Proof.
  induction positions as [| p rest IH]; intros es; simpl.
  - apply allocates_ret.
  - unfold pushColumnOrExpression. case_bool_decide; [| destruct es].
    + apply (allocates_bind 0 0 0 0); [apply allocates_read | intros c].
      apply (allocates_bind 0 0 0 0); [apply allocates_mutate | intros _; apply IH].
    + apply (allocates_bind 0 0 0 0); [apply allocates_mutate | intros _; apply IH].
    + apply (allocates_bind 0 0 0 0); [apply allocates_mutate | intros _; apply IH].
Qed.

(** One object pushed onto its owner. *)
Lemma allocates_new_mutate o what r (f : ref -> Obj -> option Obj) :
  allocates 1 1 (x ← new o; mutate what r (f x)).
Proof.
  apply (allocates_bind 1 1 0 0); [apply allocates_new | intros x; apply allocates_mutate].
Qed.

Lemma allocates_addSchema row : allocates 1 1 (addSchema row).
Proof.
  apply (allocates_bind 1 1 0 0); [apply allocates_new | apply allocates_pushDbSchemas].
Qed.

Lemma allocates_addSystemSchema row : allocates 1 1 (addSystemSchema row).
Proof.
  apply (allocates_bind 1 1 0 0); [apply allocates_new | apply allocates_pushDbSystemSchemas].
Qed.

Lemma allocates_addType row : allocates 1 1 (addType row).
Proof.
  unfold addType. apply (allocates_bind 0 0 1 1); [apply allocates_typeSchema | intros s].
  destruct (typeKinds _); [apply allocates_new_mutate | apply allocates_throw].
Qed.

Lemma allocates_addEntity row : allocates 0 1 (addEntity row).
Proof.
  unfold addEntity, newEntity.
  apply (allocates_bind 0 0 0 1); [apply allocates_get | intros s].
  destruct (_ || _); [| repeat case_bool_decide];
    first [ apply (allocates_weaken 1 1); [lia | lia | apply allocates_new_mutate]
          | apply (allocates_weaken 0 0); [lia | lia | apply allocates_ret] ].
Qed.

Lemma allocates_addFunction row : allocates 0 1 (addFunction row).
Proof.
  unfold addFunction, newFunction.
  apply (allocates_bind 0 0 0 1); [apply allocates_get | intros s].
  repeat case_bool_decide;
    first [ apply (allocates_weaken 1 1); [lia | lia | apply allocates_new_mutate]
          | apply (allocates_weaken 0 0); [lia | lia | apply allocates_ret] ].
Qed.

Lemma allocates_addColumn row : allocates 1 1 (addColumn row).
Proof.
  unfold addColumn. apply (allocates_bind 0 0 1 1); [| intros p; apply allocates_new_mutate].
  case_bool_decide; apply allocates_get.
Qed.

Lemma allocates_addIndex row : allocates 1 1 (addIndex row).
Proof.
  unfold addIndex. apply (allocates_bind 0 0 1 1); [apply allocates_get | intros p].
  apply (allocates_bind 1 1 0 0); [apply allocates_new | intros i].
  apply (allocates_bind 0 0 0 0); [apply allocates_eachPosition | intros _].
  apply allocates_mutate.
Qed.

Lemma allocates_addTrigger row : allocates 1 1 (addTrigger row).
Proof.
  unfold addTrigger. apply (allocates_bind 0 0 1 1); [apply allocates_get | intros e].
  apply (allocates_bind 0 0 1 1); [apply allocates_get | intros f].
  apply allocates_new_mutate.
Qed.

Lemma allocates_addConstraint row : allocates 0 1 (addConstraint row).
Proof.
  intros db [] db' H. rewrite addConstraint_unfold in H.
  assert (forall table c, allocates 0 1 (addTableConstraint table c)) as Htable.
  { intros table c. apply (allocates_weaken 1 1); [lia | lia |]. apply allocates_new_mutate. }
  assert (forall A (a : A), allocates 0 1 (ret a)) as Hret.
  { intros A a. apply (allocates_weaken 0 0); [lia | lia | apply allocates_ret]. }
  destruct (resolveTable row db) as [table |].
  - repeat case_bool_decide; try (by eapply Htable); try (by eapply (Hret unit tt)).
    revert H. apply (allocates_weaken 0 1 0 1); [lia | lia |].
    unfold addForeignKey. destruct (resolveIndex row db) as [index |]; [| apply Hret].
    apply (allocates_bind 0 0 0 1); [apply allocates_mapM_get | intros cols].
    apply (allocates_bind 0 1 0 0);
      [apply (allocates_weaken 1 1); [lia | lia | apply allocates_new] | intros fk].
    apply (allocates_bind 0 0 0 0); [apply allocates_mutate | intros _].
    apply (allocates_bind 0 0 0 0); [apply allocates_referencedTable | intros R].
    apply allocates_mutate.
  - destruct (resolveDomain row db) as [domain |]; [| by eapply (Hret unit tt)].
    case_bool_decide; [| by eapply (Hret unit tt)].
    revert H. apply (allocates_weaken 1 1); [lia | lia |]. apply allocates_new_mutate.
Qed.

(** Objects come from rows only.  The assembled graph holds at most
    one object per row of the nine query results, and at least one
    for every schema, system schema, type, column, index and trigger
    row: only entity and function rows of an unknown kind and
    constraint rows that are skipped give none. *)
Theorem assembled_size (queryResults : QueryResults) (i : DbInfo) (D : Db) :
  addObjects queryResults (newDb i) = Ok (tt, D) ->
  let always :=
    length (schemaRows queryResults) + length (systemSchemaRows queryResults)
    + length (typeRows queryResults) + length (columnRows queryResults)
    + length (indexRows queryResults) + length (triggerRows queryResults) in
  let sometimes :=
    length (entityRows queryResults) + length (constraintRows queryResults)
    + length (functionRows queryResults) in
  always <= length (heap D) <= always + sometimes.
Proof.
  intros H always sometimes. unfold addObjects in H.
  apply SymmetryFacts.mbind_inv in H as ([] & db1 & H1 & H).
  apply SymmetryFacts.mbind_inv in H as ([] & db2 & H2 & H).
  apply SymmetryFacts.mbind_inv in H as ([] & db3 & H3 & H).
  apply SymmetryFacts.mbind_inv in H as ([] & db4 & H4 & H).
  apply SymmetryFacts.mbind_inv in H as ([] & db5 & H5 & H).
  apply SymmetryFacts.mbind_inv in H as ([] & db6 & H6 & H).
  apply SymmetryFacts.mbind_inv in H as ([] & db7 & H7 & H).
  apply SymmetryFacts.mbind_inv in H as ([] & db8 & H8 & H).
  apply (allocates_forEach 1 1 _ _ allocates_addSchema) in H1.
  apply (allocates_forEach 1 1 _ _ allocates_addSystemSchema) in H2.
  apply (allocates_forEach 1 1 _ _ allocates_addType) in H3.
  apply (allocates_forEach 0 1 _ _ allocates_addEntity) in H4.
  apply (allocates_forEach 1 1 _ _ allocates_addColumn) in H5.
  apply (allocates_forEach 1 1 _ _ allocates_addIndex) in H6.
  apply (allocates_forEach 0 1 _ _ allocates_addConstraint) in H7.
  apply (allocates_forEach 0 1 _ _ allocates_addFunction) in H8.
  apply (allocates_forEach 1 1 _ _ allocates_addTrigger) in H.
  simpl in H1. subst always sometimes. lia.
Qed.

End CountFacts.

(** ** What [pgStructure] sends and returns *)

Module EntryFacts.
Import Catalog Assembler Entry ConnectionFacts SerializationFacts.

(** *** The first argument *)

(** An object passed first counts as options exactly when it carries
    one of the ten option keys.  Then the second argument is never
    read and the connection comes from the environment, as in a call
    without a client. *)
Theorem pgStructure_options_first (w : World) (o maybeOptions : Options) :
  (isOptions (OptionsBag o) = false <-> o = noOptions)
  /\ (isOptions (OptionsBag o) = true ->
      pgStructure w (OptionsBag o) maybeOptions = pgStructure w Absent o).
Proof.
  split.
  - split.
    + destruct o as [[] [] [] [] [] [] [] [] [] []]; simpl; intros H; done.
    + by intros ->.
  - intros H. unfold pgStructure. by rewrite H.
Qed.

(** *** The client trace of a successful run *)

(** The schema filter that [pgStructure] hands to [getSchemas]. *)
Definition filterOf (options : Options) : Discovery.SchemaFilter :=
  {| Discovery.include := arrify (includeSchemas options);
     Discovery.exclude := arrify (excludeSchemas options);
     Discovery.system := default false (includeSystemSchemas options) |}.

(** The queries of a run, after the connection was made. *)
Definition queriesOf (options : Options) (schemaOids systemOids : list Z) : list Event :=
  [ Query "SHOW server_version" [];
    Query (Discovery.sql (filterOf options)) (Discovery.parameters (filterOf options));
    Query systemSchemasSql [];
    ExecuteSqlFile "type" (schemaOids ++ systemOids);
    ExecuteSqlFile "entity" schemaOids;
    ExecuteSqlFile "column" schemaOids;
    ExecuteSqlFile "index" schemaOids;
    ExecuteSqlFile "constraint" schemaOids;
    ExecuteSqlFile "function" schemaOids;
    ExecuteSqlFile "trigger" schemaOids ].

Lemma emit_Ok e t r t' : emit e t = (r, t') -> r = Ok tt /\ t' = t ++ [e].
Proof. unfold emit. by intros [= <- <-]. Qed.

Lemma settle_Ok {A} (r : Result A) t a t' : settle r t = (Ok a, t') -> r = Ok a /\ t' = t.
Proof. unfold settle. by intros [= -> <-]. Qed.

Lemma executeSqlFile_Ok {A} file (answer : list Z -> Result A) oids t r t' :
  executeSqlFile file answer oids t = (Ok r, t') ->
  r = answer oids /\ t' = t ++ [ExecuteSqlFile file oids].
Proof. unfold executeSqlFile. by intros [= <- <-]. Qed.

Lemma getQueryResultsFromDb_Ok w version options rows t t' :
  getQueryResultsFromDb w version (arrify (includeSchemas options))
                        (arrify (excludeSchemas options)) (includeSystemSchemas options) t
  = (Ok rows, t') ->
  schemasAnswer w (Discovery.sql (filterOf options)) (Discovery.parameters (filterOf options))
  = Ok (schemaRows rows)
  /\ systemSchemasAnswer w = Ok (systemSchemaRows rows)
  /\ t' = t ++ tail (queriesOf options (s_oid <$> schemaRows rows)
                               (s_oid <$> systemSchemaRows rows)).
Proof.
  intros H. unfold getQueryResultsFromDb, getSchemas, getSystemSchemas in H.
  fold (filterOf options) in H.
  apply await_Ok_inv in H as (schemaRows & t1 & H1 & H).
  apply await_Ok_inv in H1 as ([] & ? & [_ ->]%emit_Ok & [Hschemas ->]%settle_Ok).
  apply await_Ok_inv in H as (systemRows & t2 & H2 & H).
  apply await_Ok_inv in H2 as ([] & ? & [_ ->]%emit_Ok & [Hsystem ->]%settle_Ok).
  apply await_Ok_inv in H as (? & ? & [_ ->]%settle_Ok & H).
  repeat (apply await_Ok_inv in H as (? & ? & [-> ->]%executeSqlFile_Ok & H)).
  repeat (apply await_Ok_inv in H as (? & ? & [_ ->]%settle_Ok & H)).
  injection H as <- <-. simpl. rewrite <- !app_assoc. done.
Qed.

(** A run that succeeds on a client or configuration given by the
    caller has sent, in this order and nothing else: the connection
    (unless the caller's client was already connected), the version
    query, the schema discovery query with its parameters, the system
    schema query, the seven catalog queries (the type query with the
    user and system schema OIDs, the other six with the user schema
    OIDs only) and last the end of the connection (when the core made
    it and [keepConnection] is not set). *)
Theorem pgStructure_success_trace (w : World) (c : ClientOrConfig) (options : Options)
        (D : Db) (t : list Event) :
  pgStructure w (Given c) options [] = (Ok D, t) ->
  let owned := if c is ConnectedClient then false else true in
  let rows := queryResults (info D) in
  schemasAnswer w (Discovery.sql (filterOf options)) (Discovery.parameters (filterOf options))
  = Ok (schemaRows rows)
  /\ systemSchemasAnswer w = Ok (systemSchemaRows rows)
  /\ t = (if owned then [Connect] else [])
           ++ queriesOf options (s_oid <$> schemaRows rows) (s_oid <$> systemSchemaRows rows)
           ++ (if negb (default false (keepConnection options)) && owned then [End_] else []).
Proof.
  intros H owned rows. unfold pgStructure in H.
  apply await_Ok_inv in H as (c' & t0 & Hm & H). injection Hm as <- <-.
  apply await_Ok_inv in H as (close & t1 & Hconnect & H).
  assert (close = owned /\ t1 = if owned then [Connect] else []) as [-> ->].
  { unfold getConnectedPgClient in Hconnect. subst owned. destruct c.
    - by injection Hconnect as <- <-.
    - apply await_Ok_inv in Hconnect as (? & ? & [_ ->]%emit_Ok & Hconnect).
      apply await_Ok_inv in Hconnect as (? & ? & [_ ->]%settle_Ok & Hconnect).
      by injection Hconnect as <- <-.
    - apply await_Ok_inv in Hconnect as (? & ? & [_ ->]%emit_Ok & Hconnect).
      apply await_Ok_inv in Hconnect as (? & ? & [_ ->]%settle_Ok & Hconnect).
      by injection Hconnect as <- <-. }
  apply await_Ok_inv in H as ([] & ? & [_ ->]%emit_Ok & H).
  apply await_Ok_inv in H as (version & ? & [_ ->]%settle_Ok & H).
  apply await_Ok_inv in H as (rows' & t2 & Hrows & H).
  apply getQueryResultsFromDb_Ok in Hrows as (Hschemas & Hsystem & ->).
  apply await_Ok_inv in H as (db & ? & Hrun & H).
  unfold run in Hrun. apply settle_Ok in Hrun as [Hrun ->].
  destruct (addObjects rows' (newDb (initialInfo w options c version rows')))
    as [[[] db'] | e] eqn:E; [| done].
  injection Hrun as ->.
  apply await_Ok_inv in H as ([] & t3 & Hend & H). injection H as <- <-.
  assert (rows = rows') as Hsame.
  { subst rows. by rewrite (keepsInfo_addObjects _ _ _ _ E). }
  rewrite <- Hsame in *.
  split; [exact Hschemas |]. split; [exact Hsystem |].
  destruct (negb (default false (keepConnection options)) && owned).
  - apply emit_Ok in Hend as [_ ->]. by rewrite <- !app_assoc.
  - injection Hend as <-. by rewrite <- !app_assoc, app_nil_r.
Qed.

(** *** What the returned [Db] stores *)

Lemma orElse_nonempty x fallback : fallback <> "" -> orElse x fallback <> "".
Proof. intros H. unfold orElse. destruct x; [| done]. by case_bool_decide. Qed.

Lemma getDatabaseName_nonempty w c : getDatabaseName w c <> "".
Proof. destruct c; simpl; [done | |]; by apply orElse_nonempty. Qed.

(** The [Db] of a successful run stores what the constructor was
    given, untouched by the assembly: the name, which is the [name]
    option when that is a non-empty string, else the database of the
    connection string or object when that is non-empty, else
    ["database"], and so never empty; the server version that the
    server reported; and the config with its four defaults. *)
Theorem pgStructure_info (w : World) (c : ClientOrConfig) (options : Options)
        (D : Db) (t : list Event) :
  pgStructure w (Given c) options [] = (Ok D, t) ->
  name (info D) = orElse (opt_name options) (getDatabaseName w c)
  /\ name (info D) <> ""
  /\ showServerVersion w = Ok (serverVersion (info D))
  /\ config (info D)
     = {| commentDataToken := default "pg-structure" (opt_commentDataToken options);
          relationNameFunctions := default (ByName "short") (opt_relationNameFunctions options);
          foreignKeyAliasSeparator := default "," (opt_foreignKeyAliasSeparator options);
          foreignKeyAliasTargetFirst :=
            default false (opt_foreignKeyAliasTargetFirst options) |}.
Proof.
  intros H. unfold pgStructure in H.
  apply await_Ok_inv in H as (c' & t0 & Hm & H). injection Hm as <- <-.
  apply await_Ok_inv in H as (close & t1 & _ & H).
  apply await_Ok_inv in H as ([] & ? & _ & H).
  apply await_Ok_inv in H as (version & ? & [Hversion ->]%settle_Ok & H).
  apply await_Ok_inv in H as (rows & t2 & _ & H).
  apply await_Ok_inv in H as (db & ? & Hrun & H).
  unfold run in Hrun. apply settle_Ok in Hrun as [Hrun ->].
  destruct (addObjects rows (newDb (initialInfo w options c version rows)))
    as [[[] db'] | e] eqn:E; [| done].
  injection Hrun as ->.
  apply await_Ok_inv in H as ([] & t3 & _ & H). injection H as <- _.
  rewrite (keepsInfo_addObjects _ _ _ _ E). simpl.
  split; [done |]. split; [| done].
  apply orElse_nonempty, getDatabaseName_nonempty.
Qed.

(** *** Replaying a deserialized [Db] *)

Section Json.
Variable JSON_stringify : Snapshot -> string.
Variable JSON_parse : string -> Result Snapshot.

(** Deserializing is idempotent: every [Db] that [deserialize]
    returns, from whatever text, is returned again from its own
    serialization, provided the JSON functions of the host give back
    the snapshot of that [Db]. *)
Theorem deserialize_idempotent (text : string) (D : Db) :
  deserialize JSON_parse text = Ok D ->
  JSON_parse (JSON_stringify (snapshotOf D)) = Ok (snapshotOf D) ->
  deserialize JSON_parse (serialize JSON_stringify D) = Ok D.
Proof.
  intros Hde Hjson. unfold deserialize in Hde.
  destruct (JSON_parse text) as [data | e]; [| done].
  match type of Hde with
  | match addObjects ?q (newDb ?i) with _ => _ end = _ =>
      destruct (addObjects q (newDb i)) as [[[] db] | e] eqn:E; [| done];
      injection Hde as ->;
      pose proof (keepsInfo_addObjects _ _ _ _ E) as Hinfo
  end.
  unfold serialize. rewrite (deserialize_parsed _ _ _ Hjson).
  unfold snapshotOf. rewrite Hinfo. simpl. by rewrite E.
Qed.

End Json.

End EntryFacts.

(** ** Outcomes of the legacy constructor *)

Module LegacyConstructorFacts.
Import Legacy.

(** The constructor checks in this order: missing arguments; the
    validation of the arguments, whose error names the constraint;
    and, with [through] given, the constraint to take the containers
    from, which the validation does not ask for, so that its absence
    (or anything that is no constraint in its place) is a TypeError.
    It succeeds in exactly the remaining cases. *)
Theorem Constraint_outcomes (a : Args) (s : Store) :
  Constraint None s = Throw ArgumentsRequired
  /\ (validation a = false -> Constraint (Some a) s = Throw (InvalidArguments (name a)))
  /\ (validation a = true -> through a <> None ->
      (forall toSelf, throughForeignKeyConstraintToSelf a = Some toSelf ->
                      attributesOf s toSelf = None) ->
      exists what, Constraint (Some a) s = Throw (TypeError what))
  /\ ((exists this s', Constraint (Some a) s = Ok (this, s'))
      <-> validation a = true
          /\ (through a = None
              \/ exists toSelf attrs,
                  throughForeignKeyConstraintToSelf a = Some toSelf
                  /\ attributesOf s toSelf = Some attrs)).
Proof.
  split; [reflexivity |]. split; [| split].
  - intros H. unfold Constraint. by rewrite H.
  - intros Hvalid Hthrough HtoSelf. unfold Constraint. rewrite Hvalid. simpl.
    destruct (through a); [| done].
    destruct (throughForeignKeyConstraintToSelf a) as [toSelf |]; [| by eexists].
    unfold internalObjectForeignKeys, internalObjectForeignKeysByName.
    rewrite (HtoSelf toSelf eq_refl). by eexists.
  - unfold Constraint. destruct (validation a); simpl.
    2:{ split; [by intros (? & ? & ?) | by intros [? _]]. }
    destruct (through a).
    + destruct (throughForeignKeyConstraintToSelf a) as [toSelf |].
      * unfold internalObjectForeignKeys, internalObjectForeignKeysByName.
        destruct (attributesOf s toSelf) as [attrs |] eqn:E; simpl.
        -- split; [| intros _; by eexists _, _]. intros _. split; [done |]. right. by exists toSelf, attrs.
        -- split; [by intros (? & ? & ?) |]. intros [_ [? | (? & ? & [= <-] & ?)]]; [done | congruence].
      * split; [by intros (? & ? & ?) |]. by intros [_ [? | (? & ? & ? & _)]].
    + split; [| intros _; by eexists _, _]. intros _. split; [done |]. by left.
Qed.

Lemma Constraint_outcomes_witness :
  exists what,
    Constraint (Some {| name := Some "cart_has_products"; referencesSchema := Some 0;
                        referencesTable := Some 1; onUpdate := None; onDelete := None;
                        table := Some 2; through := Some 3;
                        throughForeignKeyConstraint := None;
                        throughForeignKeyConstraintToSelf := None |})
               [OtherCell; OtherCell; OtherCell; OtherCell]
    = Throw (TypeError what).
Proof.
  apply (proj1 (proj2 (proj2 (Constraint_outcomes _ _))));
    [reflexivity | discriminate | intros toSelf; discriminate].
Defined.


(** Built through a join table, a constraint shares its two
    containers with the constraint it took them from: in every later
    store that holds the two constraints as they are, whatever was
    added to or removed from the containers, both answer the same
    foreign keys, by order and by name. *)
Theorem Constraint_shares_containers (a : Args) (s s' : Store) (this toSelf : ref) :
  through a <> None ->
  throughForeignKeyConstraintToSelf a = Some toSelf ->
  Constraint (Some a) s = Ok (this, s') ->
  this <> toSelf
  /\ forall later,
      attributesOf later this = attributesOf s' this ->
      attributesOf later toSelf = attributesOf s' toSelf ->
      foreignKeysOf later this = foreignKeysOf later toSelf
      /\ foreignKeysByNameOf later this = foreignKeysByNameOf later toSelf.
Proof.
  intros Hthrough HtoSelf. unfold Constraint.
  destruct (validation a); simpl; [| done].
  destruct (through a); [| done]. rewrite HtoSelf.
  unfold internalObjectForeignKeys, internalObjectForeignKeysByName.
  destruct (attributesOf s toSelf) as [attrs |] eqn:E; simpl; [| done].
  intros [= <- <-].
  assert (toSelf < length s) as Hlt.
  { unfold attributesOf in E. destruct (s !! toSelf) eqn:E'; [| done].
    by eapply lookup_lt_Some. }
  split; [lia |]. intros later Hthis Hself.
  rewrite (LegacyFacts.attributesOf_app_l _ _ _ _ E) in Hself.
  unfold attributesOf at 2 in Hthis. rewrite lookup_app_r, Nat.sub_diag in Hthis by done.
  simpl in Hthis. unfold foreignKeysOf, foreignKeysByNameOf. by rewrite Hthis, Hself.
Qed.

End LegacyConstructorFacts.

(** ** The small catalog again: the phases and the graph *)

Module PhaseScenario.
Import Catalog Assembler AssemblerFacts SymmetryFacts Scenario PhaseFacts GraphFacts
  ClosureFacts RootFacts CountFacts.
Local Open Scope Z_scope.

Lemma addSchemas_lookup_witness :
  let db := schemasAdded [publicRow; pgCatalogRow] (newDb sampleInfo) in
  get KOid schemas 11 db = Ok (1%nat, db)
  /\ schemaAt db 1%nat = Some (emptySchema pgCatalogRow)
  /\ get KOid schemas 4242 db = Throw (NotFound 4242).
Proof.
  intros db.
  assert (forall j row', (j < 1)%nat -> [publicRow; pgCatalogRow] !! j = Some row' ->
                         s_oid row' <> s_oid pgCatalogRow) as Hfirst.
  { intros j row' Hj. destruct j as [| j]; [| lia]. by intros [= <-]. }
  destruct (addSchemas_lookup [publicRow; pgCatalogRow] sampleInfo 1 pgCatalogRow
                              eq_refl Hfirst) as (Hget & Hat & Hnone).
  split; [exact Hget |]. split; [exact Hat |]. apply Hnone.
  simpl. rewrite !not_elem_of_cons. repeat split; try done. apply not_elem_of_nil.
Defined.

(** A type row of a kind that [pg_type] does not know. *)
Definition strangeRow : TypeRow :=
  {| t_oid := 700; t_classOid := 0; t_schemaOid := 2200; t_kind := "x";
     t_name := "strange"; t_sqlType := None |}.

Lemma addType_unknown_kind_witness :
  exists what, addType strangeRow withSchemas = Throw (TypeError what).
Proof.
  assert (t_kind strangeRow
          ∉ ["d"%char; "e"%char; "b"%char; "c"%char; "r"%char; "p"%char; "m"%char]) as Hkind.
  { rewrite !not_elem_of_cons. repeat split; try done. apply not_elem_of_nil. }
  apply (proj2 (addType_unknown_kind strangeRow withSchemas Hkind) 0%nat).
  right. split; reflexivity.
Defined.

Lemma addColumn_findColumn_witness :
  exists e,
    entityAt withColumns 5%nat = Some e
    /\ findColumn (columnAdded (column 200 3 "note") 5%nat
                               (OEntity (entity_push Columns 9%nat e)) withColumns)
                  5%nat 3
       = Some 9%nat
    /\ findColumn (columnAdded (column 200 2 "again") 5%nat
                               (OEntity (entity_push Columns 9%nat e)) withColumns)
                  5%nat 2
       = Some 8%nat.
Proof.
  eexists. split; [reflexivity |].
  assert (Forall (fun c => (c < length (heap withColumns))%nat) [7%nat; 8%nat]) as Hold
      by (repeat constructor).
  split.
  - exact (addColumn_findColumn (column 200 3 "note") withColumns 5%nat _ eq_refl Hold 3).
  - exact (addColumn_findColumn (column 200 2 "again") withColumns 5%nat _ eq_refl Hold 2).
Defined.

Lemma addConstraint_on_table_witness :
  exists t,
    entityAt withIndexes 4%nat = Some t
    /\ addConstraint accountPkey withIndexes
       = Ok (tt, constraintAdded (PrimaryKey accountPkey (Some 9%nat) 4%nat) 4%nat t
                                 withIndexes).
Proof.
  eexists. split; [reflexivity |].
  apply (proj1 (addConstraint_on_table accountPkey withIndexes 4%nat _
                                       eq_refl eq_refl eq_refl)).
  apply list_elem_of_here.
Defined.

(** A foreign key over a column that the table does not have. *)
Definition orderBrokenFk : ConstraintRow :=
  constraintRow 200 101 0 "f" "order_broken_fk" [2; 5] "a" "a" "s".

Lemma addConstraint_foreignKey_missing_column_witness :
  exists missing, addConstraint orderBrokenFk withIndexes = Throw (NotFound missing).
Proof.
  assert (5 ∈ k_constrainedColumnPositions orderBrokenFk) as Hin by (repeat constructor).
  destruct (addConstraint_foreignKey_missing_column
              orderBrokenFk withIndexes 5%nat 9%nat 5 eq_refl eq_refl eq_refl Hin eq_refl)
    as (missing & _ & _ & Hrun).
  by exists missing.
Defined.

(** A unique constraint over an index that is not loaded. *)
Definition orderHiddenKey : ConstraintRow :=
  constraintRow 200 999 0 "u" "order_hidden_key" [2] " " " " " ".

Lemma unique_constraint_assembled_witness :
  (exists db',
      addConstraint UniqueScenario.orderNoteKey withIndexes = Ok (tt, db')
      /\ UniqueConstraintClass.fullName 11%nat db' = Ok "public.order.order_note_key"
      /\ UniqueConstraintClass.columns 11%nat db' = Ok [8%nat; 7%nat])
  /\ (exists db' what,
         addConstraint orderHiddenKey withIndexes = Ok (tt, db')
         /\ UniqueConstraintClass.fullName 11%nat db' = Ok "public.order.order_hidden_key"
         /\ UniqueConstraintClass.columns 11%nat db' = Throw (TypeError what)).
Proof.
  split.
  - destruct (unique_constraint_assembled UniqueScenario.orderNoteKey withIndexes 5%nat _ _
                                          eq_refl eq_refl eq_refl eq_refl eq_refl)
      as (db' & Hrun & _ & _ & Hname & _ & Hcolumns).
    exists db'. split; [exact Hrun |]. split; [exact Hname |].
    exact (Hcolumns 10%nat _ eq_refl eq_refl).
  - destruct (unique_constraint_assembled orderHiddenKey withIndexes 5%nat _ _
                                          eq_refl eq_refl eq_refl eq_refl eq_refl)
      as (db' & Hrun & _ & _ & Hname & Hnone & _).
    destruct (Hnone eq_refl) as [what Hthrow].
    exists db', what. split; [exact Hrun |]. split; [exact Hname | exact Hthrow].
Defined.

Lemma builtinTypeData_internalName_witness :
  let numeric := {| t_oid := 1700; t_classOid := 0; t_schemaOid := 11; t_kind := "b";
                    t_name := "numeric"; t_sqlType := None |} in
  let valueOf := {| t_oid := 701; t_classOid := 0; t_schemaOid := 2200; t_kind := "e";
                    t_name := "valueOf"; t_sqlType := None |} in
  a_internalName (builtinTypeData numeric) = Some "decimal"
  /\ a_internalName (builtinTypeData int4Row) = Some "int4"
  /\ a_internalName (builtinTypeData valueOf) = Some "valueOf"
  /\ builtinTypeData valueOf = alias None None (Some "valueOf") None None None
  /\ a_internalName (builtinTypeData emailRow) = None.
Proof.
  intros numeric valueOf.
  split; [reflexivity |]. split; [reflexivity |]. split; [reflexivity |]. split.
  - refine (proj2 (proj2 (builtinTypeData_internalName valueOf)) _).
    simpl. rewrite !not_elem_of_cons. repeat split; try done. apply not_elem_of_nil.
  - apply (proj1 (builtinTypeData_internalName emailRow)).
    unfold inheritedProperties. simpl. rewrite !not_elem_of_cons. repeat split; try done. apply not_elem_of_nil.
Defined.

(** A foreign table, a kind that [addEntities] does not build, and a
    table of the system catalog. *)
Definition remoteRow : EntityRow :=
  {| e_oid := 300; e_schemaOid := 2200; e_kind := "f"; e_name := "remote" |}.

Definition pgClassRow : EntityRow :=
  {| e_oid := 1259; e_schemaOid := 11; e_kind := "r"; e_name := "pg_class" |}.

Lemma addEntity_dispatch_witness :
  addEntity accountRow withSchemas
  = Ok (tt, addedToSchema
              (OEntity {| entity_kind := Table; entity_row := accountRow;
                          entity_schema := 0%nat; columns := []; indexes := [];
                          constraints := []; foreignKeysToThis := []; triggers := [] |})
              Tables 0%nat (emptySchema publicRow) withSchemas)
  /\ addEntity remoteRow withSchemas = Ok (tt, withSchemas)
  /\ addEntity pgClassRow withSchemas = Throw (NotFound 11).
Proof.
  split; [| split].
  - apply (proj1 (proj2 (addEntity_dispatch accountRow withSchemas)
                        0%nat (emptySchema publicRow) eq_refl eq_refl)).
    apply list_elem_of_here.
  - apply (proj2 (proj2 (addEntity_dispatch remoteRow withSchemas)
                        0%nat (emptySchema publicRow) eq_refl eq_refl)).
    simpl. rewrite !not_elem_of_cons. repeat split; try done. apply not_elem_of_nil.
  - exact (proj1 (addEntity_dispatch pgClassRow withSchemas) eq_refl).
Defined.

(** A function and a trigger of [order] that calls it. *)
Definition touchRow : FunctionRow :=
  {| f_oid := 900; f_schemaOid := 2200; f_kind := "f"; f_name := "touch" |}.

Definition orderTouchRow : TriggerRow :=
  {| g_entityOid := 200; g_functionOid := 900; g_name := "order_touch" |}.

Definition strayTouchRow : TriggerRow :=
  {| g_entityOid := 999; g_functionOid := 900; g_name := "stray_touch" |}.

Lemma addFunction_dispatch_witness :
  addFunction touchRow withColumns
  = Ok (tt, addedToSchema
              (OFunction {| function_kind := NormalFunction; function_row := touchRow;
                            function_schema := 0%nat |})
              NormalFunctions 0%nat
              {| schema_row := publicRow; typesIncludingEntities := [3%nat];
                 tables := [4%nat; 5%nat]; views := []; materializedViews := [];
                 sequences := []; normalFunctions := []; procedures := [];
                 aggregateFunctions := []; windowFunctions := [] |}
              withColumns).
Proof.
  apply (proj1 (proj2 (addFunction_dispatch touchRow withColumns) 0%nat _ eq_refl eq_refl)).
  apply list_elem_of_here.
Defined.

Definition withFunction : Db := Eval vm_compute in after (addFunction touchRow) withColumns.

Lemma addTrigger_effect_witness :
  (exists db',
      addTrigger orderTouchRow withFunction = Ok (tt, db')
      /\ (triggers <$> entityAt db' 5%nat) = Some [10%nat])
  /\ addTrigger orderTouchRow withColumns = Throw (NotFound 900)
  /\ addTrigger strayTouchRow withColumns = Throw (NotFound 999).
Proof.
  split; [| split].
  - eexists. split.
    + exact (proj2 (proj2 (addTrigger_effect orderTouchRow withFunction) 5%nat eq_refl)
                   9%nat _ eq_refl eq_refl eq_refl).
    + reflexivity.
  - exact (proj1 (proj2 (addTrigger_effect orderTouchRow withColumns) 5%nat eq_refl) eq_refl).
  - exact (proj1 (addTrigger_effect strayTouchRow withColumns) eq_refl).
Defined.

Lemma addColumn_effect_witness :
  (exists e,
      entityAt withColumns 5%nat = Some e
      /\ addColumn (column 200 3 "note") withColumns
         = Ok (tt, columnAdded (column 200 3 "note") 5%nat
                               (OEntity (entity_push Columns 9%nat e)) withColumns))
  /\ addColumn (column 999 1 "stray") withColumns = Throw (NotFound 999).
Proof.
  split.
  - eexists. split; [reflexivity |].
    refine (proj2 (proj1 (addColumn_effect (column 200 3 "note") withColumns) _)
                  5%nat _ eq_refl eq_refl).
    discriminate.
  - refine (proj1 (proj1 (addColumn_effect (column 999 1 "stray") withColumns) _) eq_refl).
    discriminate.
Defined.

(** The graph of the small catalog. *)
Definition assembled : Db :=
  Eval vm_compute in after (addObjects sampleResults) (newDb sampleInfo).

Lemma assembled_run : addObjects sampleResults (newDb sampleInfo) = Ok (tt, assembled).
Proof. vm_compute. reflexivity. Qed.

Lemma addObjects_only_adds_witness :
  extends (newDb sampleInfo) assembled /\ extends withIndexes assembled.
Proof.
  split.
  - exact (addObjects_only_adds sampleResults _ _ assembled_run).
  - assert (addObjects {| schemaRows := []; systemSchemaRows := []; typeRows := [];
                          entityRows := []; columnRows := []; indexRows := [];
                          constraintRows := constraintRows sampleResults;
                          functionRows := []; triggerRows := [] |} withIndexes
            = Ok (tt, assembled)) as Hrun by (vm_compute; reflexivity).
    exact (addObjects_only_adds _ _ _ Hrun).
Defined.

Lemma assembled_size_witness :
  let always :=
    (length (schemaRows sampleResults) + length (systemSchemaRows sampleResults)
     + length (typeRows sampleResults) + length (columnRows sampleResults)
     + length (indexRows sampleResults) + length (triggerRows sampleResults))%nat in
  let sometimes :=
    (length (entityRows sampleResults) + length (constraintRows sampleResults)
     + length (functionRows sampleResults))%nat in
  (always <= length (heap assembled) <= always + sometimes)%nat.
Proof.
  exact (assembled_size sampleResults sampleInfo assembled assembled_run).
Defined.

Lemma assembled_wellFormed_witness :
  wellFormed assembled /\ wellFormed EntryScenario.shopDb.
Proof.
  split.
  - exact (proj1 assembled_wellFormed sampleResults _ _ (wellFormed_newDb sampleInfo)
                 assembled_run).
  - exact (proj1 (proj2 assembled_wellFormed) _ _ _ _ _ EntryScenario.pgStructure_shop).
Defined.

Lemma assembled_schemas_witness :
  schemas assembled = [0%nat]
  /\ systemSchemas assembled = [1%nat]
  /\ (schema_row <$> schemaAt assembled 1%nat) = Some pgCatalogRow
  /\ get KOid schemas 2200 assembled = Ok (0%nat, assembled).
Proof.
  destruct (assembled_schemas sampleResults sampleInfo assembled assembled_run)
    as (Hschemas & Hsystems & _ & Hsystem & Hget).
  split; [exact Hschemas |]. split; [exact Hsystems |].
  split; [exact (Hsystem 0%nat pgCatalogRow eq_refl) |].
  apply (Hget 0%nat publicRow eq_refl). intros j row' Hj. lia.
Defined.

Lemma assembled_foreignKey_symmetry_witness :
  exists ix R T,
    indexAt assembled 9%nat = Some ix
    /\ entityAt assembled (index_parent ix) = Some R
    /\ occurs 12%nat (foreignKeysToThis R) = 1%nat
    /\ entityAt assembled 5%nat = Some T
    /\ occurs 12%nat (constraints T) = 1%nat.
Proof.
  exact (assembled_foreignKey_symmetry
           sampleResults sampleInfo assembled 12%nat orderAccountFk 5%nat 9%nat [8%nat]
           (Some "NO ACTION") (Some "CASCADE") (Some "SIMPLE") assembled_run eq_refl).
Defined.

End PhaseScenario.

(** ** The shop again: what a run sends and stores *)

Module RunScenario.
Import Catalog Assembler Entry ConnectionFacts Scenario EntryScenario EntryFacts.

Lemma pgStructure_options_first_witness :
  let keep := {| envPrefix := None; opt_name := None; opt_commentDataToken := None;
                 includeSchemas := None; excludeSchemas := None;
                 includeSystemSchemas := None; opt_foreignKeyAliasSeparator := None;
                 opt_foreignKeyAliasTargetFirst := None; opt_relationNameFunctions := None;
                 keepConnection := Some true |} in
  pgStructure shop (OptionsBag keep) noOptions = pgStructure shop Absent keep
  /\ (pgStructure shop (OptionsBag keep) noOptions []).2
     = [Connect] ++ queriesOf keep [2200%Z] [11%Z].
Proof.
  intros keep. split; [| vm_compute; reflexivity].
  exact (proj2 (pgStructure_options_first shop keep noOptions) eq_refl).
Defined.

Lemma pgStructure_success_trace_witness :
  (pgStructure shop shopConfig noOptions []).2
  = [Connect] ++ queriesOf noOptions [2200%Z] [11%Z] ++ [End_].
Proof.
  exact (proj2 (proj2 (pgStructure_success_trace shop (ConnectionConfig (Some "shop"))
                                                 noOptions shopDb _ pgStructure_shop))).
Defined.

Lemma pgStructure_info_witness :
  name (info shopDb) = "shop"
  /\ name (info shopDb) <> ""
  /\ commentDataToken (config (info shopDb)) = "pg-structure".
Proof.
  destruct (pgStructure_info shop (ConnectionConfig (Some "shop")) noOptions shopDb _
                             pgStructure_shop) as (Hname & Hnonempty & _ & Hconfig).
  split; [exact Hname |]. split; [exact Hnonempty |]. by rewrite Hconfig.
Defined.

Lemma pgStructure_supplied_client_stays_open_witness :
  (End_ ∉ (pgStructure shop (Given ConnectedClient) noOptions []).2)
  /\ (End_ ∉ (pgStructure shopGoesAway (Given ConnectedClient) noOptions []).2).
Proof.
  split.
  - exact (pgStructure_supplied_client_stays_open shop noOptions _ _ (surjective_pairing _)).
  - exact (pgStructure_supplied_client_stays_open shopGoesAway noOptions _ _
                                                  (surjective_pairing _)).
Defined.

Lemma deserialize_idempotent_witness :
  deserialize SnapshotText.parse (serialize SnapshotText.stringify shopDb) = Ok shopDb.
Proof.
  assert (deserialize SnapshotText.parse (SnapshotText.stringify (snapshotOf shopDb))
          = Ok shopDb) as Hde by (vm_compute; reflexivity).
  assert (SnapshotText.parse (SnapshotText.stringify (snapshotOf shopDb))
          = Ok (snapshotOf shopDb)) as Hjson by (vm_compute; reflexivity).
  exact (deserialize_idempotent SnapshotText.stringify SnapshotText.parse _ shopDb Hde Hjson).
Defined.

End RunScenario.

(** ** The legacy store again *)

Module ConstructorScenario.
Import Legacy LegacyScenario LegacyConstructorFacts.


(** The store after the column [6] (say, a second key column) was
    added to the containers of the foreign key to [cart]. *)
Definition cartStoreLater : list Cell :=
  <[6 := ArrayCell [4; 13]]>
    (<[7 := ObjectCell [("cart_id", 4); ("shop_id", 13)]]>
       (cartStore ++ [ConstraintCell {| args := cartHasProducts; foreignKeys := 6;
                                        foreignKeysByName := 7 |}; OtherCell])).

Lemma Constraint_shares_containers_witness :
  foreignKeysOf cartStoreLater 12 = foreignKeysOf cartStoreLater 8
  /\ foreignKeysOf cartStoreLater 12 = Some [4; 13].
Proof.
  assert (Constraint (Some cartHasProducts) cartStore
          = Ok (12, cartStore ++ [ConstraintCell {| args := cartHasProducts;
                                                     foreignKeys := 6;
                                                     foreignKeysByName := 7 |}])) as Hrun
      by reflexivity.
  assert (through cartHasProducts <> None) as Hthrough by discriminate.
  destruct (Constraint_shares_containers cartHasProducts cartStore _ 12 8
                                         Hthrough eq_refl Hrun) as [_ Hshare].
  split; [| reflexivity].
  exact (proj1 (Hshare cartStoreLater eq_refl eq_refl)).
Defined.

End ConstructorScenario.
